(** * A shallow embedding of [src/firestore-query.js] (MockFirestoreQuery)

    The development follows the source: document values and JS objects,
    lodash's path lookup, deep equality and multi-key sort, the query
    evaluation [_results], the builder methods over a heap of query
    instances, and the deferred delivery of [get] and [onSnapshot]
    through the shared flush queue. *)

From Stdlib Require Import ZArith Ascii String List Bool Lia Sorted.
From stdpp Require Import base gmap list strings.
Import ListNotations.

Open Scope Z_scope.
Set Warnings "-register-all".

(* ================================================================== *)
(** ** Values and JS objects *)

(** Document bodies as the JSON-like values the mock stores. *)
Inductive value : Type :=
| VUndef
| VNull
| VBool (b : bool)
| VNum (n : Z)
| VStr (s : string)
| VArr (xs : list value)
| VObj (fs : list (string * value)).

(** A JS object: its own enumerable properties in enumeration order. *)
Abbreviation jsobj := (list (string * value)).

Fixpoint assoc (k : string) (o : jsobj) : option value :=
  match o with
  | [] => None
  | (k', v) :: o' => if String.eqb k k' then Some v else assoc k o'
  end.

(** Array-index property keys: the canonical decimal strings of
    0 .. 2^32 - 2. JS enumerates them first, in ascending numeric order,
    before all other string keys, which keep their creation order. *)
Definition digit_val (c : ascii) : option N :=
  let n := N_of_ascii c in
  if (48 <=? n)%N && (n <=? 57)%N then Some (n - 48)%N else None.

Fixpoint parse_digits (s : string) (acc : N) : option N :=
  match s with
  | EmptyString => Some acc
  | String c s' =>
      match digit_val c with
      | Some d => parse_digits s' (acc * 10 + d)%N
      | None => None
      end
  end.

Definition array_index (k : string) : option N :=
  match k with
  | EmptyString => None
  | String c rest =>
      if Ascii.eqb c "0"%char then
        match rest with EmptyString => Some 0%N | _ => None end
      else
        match parse_digits k 0%N with
        | Some n => if (n <? 4294967295)%N then Some n else None
        | None => None
        end
  end.

(** Inserting a fresh array-index key: before the first non-index key or
    the first larger index key. *)
Fixpoint insert_index (n : N) (k : string) (v : value) (o : jsobj) : jsobj :=
  match o with
  | [] => [(k, v)]
  | (k', v') :: o' =>
      match array_index k' with
      | Some m => if (n <? m)%N then (k, v) :: (k', v') :: o'
                  else (k', v') :: insert_index n k v o'
      | None => (k, v) :: (k', v') :: o'
      end
  end.

Fixpoint replace_key (k : string) (v : value) (o : jsobj) : jsobj :=
  match o with
  | [] => []
  | (k', v') :: o' =>
      if String.eqb k k' then (k', v) :: o' else (k', v') :: replace_key k v o'
  end.

(** [o[k] = v]. *)
Definition js_set (o : jsobj) (k : string) (v : value) : jsobj :=
  match assoc k o with
  | Some _ => replace_key k v o
  | None =>
      match array_index k with
      | Some n => insert_index n k v o
      | None => o ++ [(k, v)]
      end
  end.

(** A fresh object filled by [results[key] = value] in list order. *)
Definition js_build (l : jsobj) : jsobj :=
  fold_left (fun o kv => js_set o kv.1 kv.2) l [].

(* ================================================================== *)
(** ** lodash: [_.get], [_.isEqual], [_.includes] *)

Fixpoint split_dot (s : string) : list string :=
  match s with
  | EmptyString => [EmptyString]
  | String x s' =>
      if Ascii.eqb x "."%char then EmptyString :: split_dot s'
      else match split_dot s' with
           | [] => [String x EmptyString]
           | seg :: rest => String x seg :: rest
           end
  end.

(** One property access [object[key]]. *)
Definition get_prop (v : value) (key : string) : value :=
  match v with
  | VObj fs => match assoc key fs with Some w => w | None => VUndef end
  | VArr xs =>
      if String.eqb key "length" then VNum (Z.of_nat (length xs))
      else match array_index key with
           | Some n => match nth_error xs (N.to_nat n) with Some w => w | None => VUndef end
           | None => VUndef
           end
  | VStr s =>
      if String.eqb key "length" then VNum (Z.of_nat (String.length s))
      else match array_index key with
           | Some n => match String.get (N.to_nat n) s with
                       | Some c => VStr (String c EmptyString) | None => VUndef end
           | None => VUndef
           end
  | _ => VUndef
  end.

(** [baseGet]: stops at [null]/[undefined] before the last segment. *)
Fixpoint base_get (v : value) (segs : list string) : value :=
  match segs with
  | [] => v
  | s :: segs' =>
      match v with
      | VUndef | VNull => VUndef
      | _ => base_get (get_prop v s) segs'
      end
  end.

(** [_.get(object, path)]: a path that is itself an own key of the
    object is used as one key ([isKey]); otherwise it is split on dots
    (property paths here carry no bracket syntax). *)
Definition lodash_get (v : value) (p : string) : value :=
  match v with
  | VObj fs => match assoc p fs with
               | Some w => w
               | None => base_get v (split_dot p)
               end
  | _ => base_get v (split_dot p)
  end.

(** [_.isEqual]: structural; objects compare key sets and values
    regardless of key order. *)
Fixpoint isEqual (a b : value) : bool :=
  match a, b with
  | VUndef, VUndef => true
  | VNull, VNull => true
  | VBool x, VBool y => Bool.eqb x y
  | VNum x, VNum y => Z.eqb x y
  | VStr x, VStr y => String.eqb x y
  | VArr xs, VArr ys =>
      (fix go (xs ys : list value) : bool :=
         match xs, ys with
         | [], [] => true
         | x :: xs', y :: ys' => isEqual x y && go xs' ys'
         | _, _ => false
         end) xs ys
  | VObj fs, VObj gs =>
      Nat.eqb (length fs) (length gs) &&
      (fix go (fs : list (string * value)) : bool :=
         match fs with
         | [] => true
         | (k, v) :: fs' =>
             match assoc k gs with
             | Some w => isEqual v w && go fs'
             | None => false
             end
         end) fs
  | _, _ => false
  end.

Definition isEqual_obj (o o' : jsobj) : bool := isEqual (VObj o) (VObj o').

(** [===]: primitives by value; arrays and objects of the (deep-copied)
    store are never the same reference as a caller's value. *)
Definition strict_eq (a b : value) : bool :=
  match a, b with
  | VUndef, VUndef => true
  | VNull, VNull => true
  | VBool x, VBool y => Bool.eqb x y
  | VNum x, VNum y => Z.eqb x y
  | VStr x, VStr y => String.eqb x y
  | _, _ => false
  end.

Fixpoint is_prefix (s t : string) : bool :=
  match s, t with
  | EmptyString, _ => true
  | String a s', String b t' => Ascii.eqb a b && is_prefix s' t'
  | _, _ => false
  end.

Fixpoint is_substring (s t : string) : bool :=
  is_prefix s t ||
  match t with EmptyString => false | String _ t' => is_substring s t' end.

(** [_.includes(collection, value)]: arrays and objects by [===] on the
    elements; strings by substring search (a non-string needle is taken
    as no match). *)
Definition lodash_includes (coll v : value) : bool :=
  match coll with
  | VArr xs => existsb (strict_eq v) xs
  | VObj fs => existsb (fun kv => strict_eq v kv.2) fs
  | VStr s => match v with VStr t => is_substring t s | _ => false end
  | _ => false
  end.

(* ================================================================== *)
(** ** lodash: [_.orderBy] *)

(** JS relational [<] on the values it orders meaningfully here:
    numbers, strings (by character code), booleans and [null] taken as
    numbers; other pairs compare as neither smaller nor larger. *)
Fixpoint str_lt (s t : string) : bool :=
  match s, t with
  | EmptyString, String _ _ => true
  | String a s', String b t' =>
      let na := N_of_ascii a in let nb := N_of_ascii b in
      if (na <? nb)%N then true else if (na =? nb)%N then str_lt s' t' else false
  | _, _ => false
  end.

Definition to_num (v : value) : option Z :=
  match v with
  | VNum n => Some n
  | VBool b => Some (if b then 1 else 0)
  | VNull => Some 0
  | _ => None
  end.

Definition js_lt (a b : value) : bool :=
  match a, b with
  | VStr s, VStr t => str_lt s t
  | _, _ => match to_num a, to_num b with
            | Some x, Some y => x <? y
            | _, _ => false
            end
  end.

Definition is_null (v : value) : bool := match v with VNull => true | _ => false end.
Definition is_defined (v : value) : bool := match v with VUndef => false | _ => true end.

(** lodash [compareAscending] (no symbols, no [NaN] in this value model). *)
Definition compareAscending (value0 other : value) : Z :=
  if negb (strict_eq value0 other) then
    if (negb (is_null other) && js_lt other value0)
       || (is_null value0 && is_defined other)
       || negb (is_defined value0) then 1
    else if (negb (is_null value0) && js_lt value0 other)
       || (is_null other && is_defined value0)
       || negb (is_defined other) then -1
    else 0
  else 0.

(** lodash [compareMultiple]: criteria left to right, a criterion's
    order is descending exactly when it is ['desc'], ties by index. *)
Fixpoint compare_criteria (ca cb : list value) (orders : list string) : Z :=
  match ca, cb with
  | a :: ca', b :: cb' =>
      let r := compareAscending a b in
      if Z.eqb r 0 then compare_criteria ca' cb' (tl orders)
      else match orders with
           | [] => r
           | o :: _ => if String.eqb o "desc" then - r else r
           end
  | _, _ => 0
  end.

Record sort_entry : Type := mkEntry {
  se_criteria : list value;
  se_index : nat;
  se_value : string * value
}.

Definition compareMultiple (orders : list string) (x y : sort_entry) : Z :=
  let r := compare_criteria (se_criteria x) (se_criteria y) orders in
  if Z.eqb r 0 then Z.of_nat (se_index x) - Z.of_nat (se_index y) else r.

(** [Array.prototype.sort] with that comparator (a strict total order
    thanks to the index), as an insertion sort. *)
Fixpoint insert_by (cmp : sort_entry -> sort_entry -> Z) (x : sort_entry)
    (l : list sort_entry) : list sort_entry :=
  match l with
  | [] => [x]
  | y :: l' => if cmp x y <? 0 then x :: y :: l' else y :: insert_by cmp x l'
  end.

Definition sort_by (cmp : sort_entry -> sort_entry -> Z) (l : list sort_entry)
  : list sort_entry := fold_left (fun acc x => insert_by cmp x acc) l [].

(** The record [{ data: data, key: key }] the query builds per document. *)
Definition queryable (key : string) (d : value) : value :=
  VObj [("data", d); ("key", VStr key)].

Fixpoint index_from {A} (i : nat) (l : list A) : list (nat * A) :=
  match l with
  | [] => []
  | x :: l' => (i, x) :: index_from (S i) l'
  end.

(** [_.orderBy(queryable, iteratees, orders)] over (key, data) pairs. *)
Definition lodash_orderBy (l : jsobj) (iteratees orders : list string) : jsobj :=
  let entries := map (fun '(i, (k, d)) =>
        mkEntry (map (lodash_get (queryable k d)) iteratees) i (k, d))
        (index_from 0 l) in
  map se_value (sort_by (compareMultiple orders) entries).

(* ================================================================== *)
(** ** The query instance *)

(** Field paths: [FieldPath.documentId()], a [FieldPath] with segments,
    or a dotted string. *)
Inductive fieldpath : Type :=
| DocumentId
| FieldPathOf (segs : list string)
| PropString (p : string).

Fixpoint join_dot (segs : list string) : string :=
  match segs with
  | [] => ""
  | [s] => s
  | s :: segs' => s ++ "." ++ join_dot segs'
  end.

Definition getPropertyPath (p : fieldpath) : string :=
  match p with
  | DocumentId => "key"
  | FieldPathOf segs => "data." ++ join_dot segs
  | PropString s => "data." ++ s
  end.

(** [this.flushDelay]: [false], [true] or a number of milliseconds. *)
Inductive delay : Type := DFalse | DTrue | DMs (ms : Z).

Definition delay_eqb (a b : delay) : bool :=
  match a, b with
  | DFalse, DFalse | DTrue, DTrue => true
  | DMs x, DMs y => Z.eqb x y
  | _, _ => false
  end.

(** [this.buildStartFinder]: the default always-true finder, or the one
    installed by [startAfter] for a document id. *)
Inductive finder : Type := FindAll | FindAfter (docId : string).

(** The fields of a [MockFirestoreQuery] instance; [parent] and
    [children] are references into the heap, [queue] names a queue. *)
Record node : Type := mkNode {
  errs : list (string * string);
  path : string;
  id : option string;
  flushDelay : delay;
  queue : nat;
  parent : option nat;
  children : list nat;
  orderedProperties : list fieldpath;
  orderedDirections : list string;
  limited : Z;
  buildStartFinder : finder;
  data : jsobj
}.

(** Deep copies ([_.cloneDeep], [_.cloneDeepWith]) are the identity on
    this value model: values carry no references. *)
Definition cloneDeep (v : value) : value := v.

(** Modelled from the spec: [utils.cleanFirestoreData] (utils.js is not
    under src/). The spec has [_setData] take a deep copy of the snapshot;
    on this value model that leaves the records unchanged. *)
Definition cleanFirestoreData (d : jsobj) : jsobj := d.

(* ================================================================== *)
(** ** [_results] *)

(** The closure returned by [buildStartFinder()]; [next] is its
    captured flag. Returns the verdict and the new flag. *)
Definition startFinder_call (f : finder) (next : bool) (key : string) : bool * bool :=
  match f with
  | FindAll => (true, next)
  | FindAfter docId =>
      if next then (true, next) else (false, String.eqb key docId)
  end.

Record walk_state : Type := mkWalk {
  atStart : bool;
  next_flag : bool;
  count : Z;
  acc : jsobj
}.

(** [inRange(data, key)] on its captured [atStart] flag and the
    finder's [next] flag ([atEnd] is never set). *)
Definition inRange (f : finder) (st : bool * bool) (key : string) : bool * (bool * bool) :=
  let '(atS, nx) := st in
  if atS then (true, st)
  else let '(r, nx') := startFinder_call f nx key in (r, (r, nx')).

(** One iteration of the loop body of [_results]. *)
Definition walk_step (f : finder) (lim : Z) (st : walk_state) (kv : string * value)
  : walk_state :=
  let '(ok, st1) := inRange f (atStart st, next_flag st) kv.1 in
  if ok && ((lim <=? 0) || (count st <? lim)) then
    mkWalk st1.1 st1.2 (count st + 1) (js_set (acc st) kv.1 (cloneDeep kv.2))
  else mkWalk st1.1 st1.2 (count st) (acc st).

Definition walk (f : finder) (lim : Z) (l : jsobj) : walk_state :=
  fold_left (walk_step f lim) l (mkWalk false false 0 []).

(** The sequence [_results] walks: stored order, or [_.orderBy]. *)
Definition traversal (n : node) : jsobj :=
  match orderedProperties n with
  | [] => data n
  | props => lodash_orderBy (data n) (map getPropertyPath props) (orderedDirections n)
  end.

Definition _results (n : node) : jsobj :=
  if Nat.eqb (length (data n)) 0 then []
  else acc (walk (buildStartFinder n) (limited n) (traversal n)).

(* ================================================================== *)
(** ** [where]'s filtering pass *)

(** The string lodash takes for [_.get(data, property)]: the property
    string, or the dotted segments of a [FieldPath]. *)
Definition raw_property (p : fieldpath) : string :=
  match p with
  | DocumentId => "__name__"
  | FieldPathOf segs => join_dot segs
  | PropString s => s
  end.

Definition supported_op (op : string) : bool :=
  String.eqb op "==" || String.eqb op "array-contains" || String.eqb op "in".

(** The [switch (operator)] deciding whether one record is kept. *)
Definition where_keep (property : fieldpath) (op : string) (v : value)
    (key : string) (d : value) : bool :=
  if String.eqb op "==" then isEqual (lodash_get (queryable key d) (getPropertyPath property)) v
  else if String.eqb op "array-contains" then lodash_includes (lodash_get d (raw_property property)) v
  else if String.eqb op "in" then lodash_includes v (lodash_get d (raw_property property))
  else true.

(** [_.forEach(this.data, ...)] filling [results]. *)
Definition where_results (d : jsobj) (property : fieldpath) (op : string) (v : value) : jsobj :=
  fold_left (fun results '(key, dat) =>
      if where_keep property op v key dat then js_set results key (cloneDeep dat)
      else results) d [].

(* ================================================================== *)
(** ** The heap of query instances and the builder methods *)

(** A unit of deferred work on a queue: a [get] callback of instance
    [ev_ref], with the injected error it captured; it settles either a
    caller's promise or the [get] a subscription issues after a flush. *)
Inductive ev_kind : Type := KCaller (pid : nat) | KSub (sid : nat).

Record event : Type := mkEvent {
  ev_ref : nat;
  ev_err : option string;
  ev_kind_of : ev_kind
}.

(** A live [onSnapshot] registration ([queue.onPostFlush(onSnapshot)]):
    the captured [err], [includeMetadataChanges], the argument positions
    of [onNext] and [onError], and [context.data]. *)
Record subscription : Type := mkSub {
  s_id : nat;
  s_ref : nat;
  s_queue : nat;
  s_err : option string;
  s_meta : bool;
  s_next_pos : nat;
  s_error_pos : nat;
  s_context : jsobj;
  s_active : bool
}.

(** What the caller observes. [OCall sid pos p]: the subscription's
    argument at position [pos] is invoked with [p]. *)
Inductive payload : Type :=
| PSnap (results previous : jsobj)
| PErr (e : string).

Inductive output : Type :=
| OResolved (pid : nat) (results : jsobj)
| ORejected (pid : nat) (e : string)
| OCall (sid : nat) (pos : nat) (p : payload)
| OThrown (msg : string).

Record world : Type := mkWorld {
  heap : gmap nat node;
  next_ref : nat;
  next_queue : nat;
  queues : gmap nat (list event);
  subs : list subscription;
  next_sub : nat;
  next_promise : nat;
  warnings : list string;
  trace : list output
}.

(** A state and exception monad over the world. *)
Inductive outcome (A : Type) : Type := Ok (a : A) | Thrown (msg : string).
Arguments Ok {A} a.
Arguments Thrown {A} msg.

Definition M (A : Type) : Type := world -> outcome A * world.

Definition retM {A} (a : A) : M A := fun w => (Ok a, w).
Definition bindM {A B} (m : M A) (k : A -> M B) : M B :=
  fun w => match m w with
           | (Ok a, w') => k a w'
           | (Thrown e, w') => (Thrown e, w')
           end.
Definition throwM {A} (msg : string) : M A := fun w => (Thrown msg, w).

Notation "x <-- m ;; k" := (bindM m (fun x => k))
  (at level 100, m at next level, right associativity).
Notation "m ;;; k" := (bindM m (fun _ => k)) (at level 100, right associativity).

Definition modifyM (f : world -> world) : M unit := fun w => (Ok tt, f w).

Definition set_heap (w : world) (h : gmap nat node) : world :=
  mkWorld h (next_ref w) (next_queue w) (queues w) (subs w) (next_sub w)
          (next_promise w) (warnings w) (trace w).

(** Dereferencing an instance; a missing one is a [TypeError]. *)
Definition get_node (r : nat) : M node :=
  fun w => match heap w !! r with
           | Some n => (Ok n, w)
           | None => (Thrown "TypeError", w)
           end.

Definition put_node (r : nat) (n : node) : M unit :=
  modifyM (fun w => set_heap w (<[r := n]> (heap w))).

Definition warn (msg : string) : M unit :=
  modifyM (fun w => mkWorld (heap w) (next_ref w) (next_queue w) (queues w) (subs w)
                            (next_sub w) (next_promise w) (warnings w ++ [msg]) (trace w)).

(** [new Queue()]. *)
Definition new_queue : M nat :=
  fun w => (Ok (next_queue w),
            mkWorld (heap w) (next_ref w) (S (next_queue w)) (queues w) (subs w)
                    (next_sub w) (next_promise w) (warnings w) (trace w)).

Definition alloc (n : node) : M nat :=
  fun w => (Ok (next_ref w),
            mkWorld (<[next_ref w := n]> (heap w)) (S (next_ref w)) (next_queue w)
                    (queues w) (subs w) (next_sub w) (next_promise w) (warnings w) (trace w)).

(** [extractName(path)]: the last [/]-segment when it is non-empty and
    free of [. $ [ ] # /]. *)
Fixpoint after_last_slash (s : string) : option string :=
  match s with
  | EmptyString => None
  | String c s' =>
      match after_last_slash s' with
      | Some seg => Some seg
      | None => if Ascii.eqb c "/"%char then Some s' else None
      end
  end.

Definition forbidden_char (c : ascii) : bool :=
  existsb (Ascii.eqb c) ["."%char; "$"%char; "["%char; "]"%char; "#"%char; "/"%char].

Fixpoint string_forallb (p : ascii -> bool) (s : string) : bool :=
  match s with
  | EmptyString => true
  | String c s' => p c && string_forallb p s'
  end.

Definition extractName (p : string) : option string :=
  match after_last_slash p with
  | Some (String c rest) =>
      if string_forallb (fun c => negb (forbidden_char c)) (String c rest)
      then Some (String c rest) else None
  | _ => None
  end.

(** [new MockFirestoreQuery(path, data, parent, name)]. *)
Definition MockFirestoreQuery (p : string) (d : jsobj) (par : option nat)
    (name : option string) : M nat :=
  pn <-- (match par with
          | Some pr => n <-- get_node pr ;; retM (Some n)
          | None => retM None
          end) ;;
  q <-- (match pn with Some n => retM (queue n) | None => new_queue end) ;;
  alloc {| errs := [];
           path := if String.eqb p "" then "Mock://" else p;
           id := match pn with Some _ => name | None => extractName p end;
           flushDelay := match pn with Some n => flushDelay n | None => DFalse end;
           queue := q;
           parent := par;
           children := [];
           orderedProperties := [];
           orderedDirections := [];
           limited := 0;
           buildStartFinder := FindAll;
           data := cleanFirestoreData (map (fun kv => (kv.1, cloneDeep kv.2)) d) |}.

Definition with_data (n : node) (d : jsobj) : node :=
  mkNode (errs n) (path n) (id n) (flushDelay n) (queue n) (parent n) (children n)
         (orderedProperties n) (orderedDirections n) (limited n) (buildStartFinder n) d.

Definition with_order (n : node) (props : list fieldpath) (dirs : list string) : node :=
  mkNode (errs n) (path n) (id n) (flushDelay n) (queue n) (parent n) (children n)
         props dirs (limited n) (buildStartFinder n) (data n).

Definition with_limit (n : node) (lim : Z) : node :=
  mkNode (errs n) (path n) (id n) (flushDelay n) (queue n) (parent n) (children n)
         (orderedProperties n) (orderedDirections n) lim (buildStartFinder n) (data n).

Definition with_finder (n : node) (f : finder) : node :=
  mkNode (errs n) (path n) (id n) (flushDelay n) (queue n) (parent n) (children n)
         (orderedProperties n) (orderedDirections n) (limited n) f (data n).

Definition with_delay (n : node) (d : delay) : node :=
  mkNode (errs n) (path n) (id n) d (queue n) (parent n) (children n)
         (orderedProperties n) (orderedDirections n) (limited n) (buildStartFinder n) (data n).

Definition with_errs (n : node) (e : list (string * string)) : node :=
  mkNode e (path n) (id n) (flushDelay n) (queue n) (parent n) (children n)
         (orderedProperties n) (orderedDirections n) (limited n) (buildStartFinder n) (data n).

(** [_setData(d)]. *)
Definition _setData (r : nat) (d : jsobj) : M unit :=
  n <-- get_node r ;; put_node r (with_data n (cleanFirestoreData (map (fun kv => (kv.1, cloneDeep kv.2)) d))).

(** [_getData()]. *)
Definition _getData (n : node) : jsobj := map (fun kv => (kv.1, cloneDeep kv.2)) (data n).

(** [clone()]: note the copy is built with [this.parent], not [this]. *)
Definition clone (r : nat) : M nat :=
  n <-- get_node r ;;
  r' <-- MockFirestoreQuery (path n) (_getData n) (parent n) (id n) ;;
  n' <-- get_node r' ;;
  put_node r' (with_finder (with_limit (with_order n' (orderedProperties n) (orderedDirections n))
                                       (limited n)) (buildStartFinder n)) ;;;
  retM r'.

Definition unsupported_where_msg : string :=
  "Using unsupported where() operator for firebase-mock, returning entire dataset".

Definition where_ (r : nat) (property : fieldpath) (op : string) (v : value) : M nat :=
  q <-- clone r ;;
  n <-- get_node r ;;
  (if negb (supported_op op) then warn unsupported_where_msg
   else if negb (Nat.eqb (length (data n)) 0) then _setData q (where_results (data n) property op v)
   else _setData q []) ;;;
  retM q.

(** [orderBy(property, direction)]: [direction || 'asc']. *)
Definition orderBy (r : nat) (property : fieldpath) (direction : option string) : M nat :=
  q <-- clone r ;;
  n <-- get_node q ;;
  let dir := match direction with
             | Some s => if String.eqb s "" then "asc" else s
             | None => "asc" end in
  put_node q (with_order n (orderedProperties n ++ [property]) (orderedDirections n ++ [dir])) ;;;
  retM q.

Definition limit (r : nat) (lim : Z) : M nat :=
  q <-- clone r ;;
  n <-- get_node q ;;
  put_node q (with_limit n lim) ;;;
  retM q.

(** The argument of [startAfter]: a [DocumentSnapshot] (its [ref.id]),
    or anything else. *)
Inductive cursor_arg : Type := DocSnapshot (refId : string) | NotDocSnapshot.

Definition unsupported_cursor_msg : string :=
  "Using unsupported startAfter() parameter for firebase-mock, returning entire dataset".

Definition paginate_msg : string := "Query must be ordered to paginate".

Definition startAfter (r : nat) (doc : cursor_arg) : M nat :=
  match doc with
  | NotDocSnapshot => warn unsupported_cursor_msg ;;; retM r
  | DocSnapshot refId =>
      n <-- get_node r ;;
      match orderedProperties n with
      | [] => throwM paginate_msg
      | _ =>
          q <-- clone r ;;
          nq <-- get_node q ;;
          put_node q (with_finder nq (FindAfter refId)) ;;;
          retM q
      end
  end.

(** [autoFlush(delay)]: recursion through [children] and [parent] while
    the flag changes; [fuel] bounds the JS call stack. *)
Fixpoint autoFlush_go (fuel : nat) (r : nat) (d : delay) : M unit :=
  match fuel with
  | O => throwM "RangeError"
  | S fuel' =>
      n <-- get_node r ;;
      if delay_eqb (flushDelay n) d then retM tt
      else
        put_node r (with_delay n d) ;;;
        fold_left (fun m c => m ;;; autoFlush_go fuel' c d) (children n) (retM tt) ;;;
        match parent n with
        | Some p => autoFlush_go fuel' p d
        | None => retM tt
        end
  end.

Definition autoFlush (r : nat) (d : option delay) : M unit :=
  fun w => autoFlush_go (S (size (heap w))) r (match d with Some x => x | None => DTrue end) w.

(* ================================================================== *)
(** ** Deferred delivery: [get], [onSnapshot], the flush queue *)

Definition emit (o : output) : M unit :=
  modifyM (fun w => mkWorld (heap w) (next_ref w) (next_queue w) (queues w) (subs w)
                            (next_sub w) (next_promise w) (warnings w) (trace w ++ [o])).

Fixpoint remove_key (k : string) (o : list (string * string)) : list (string * string) :=
  match o with
  | [] => []
  | (k', v) :: o' => if String.eqb k k' then remove_key k o' else (k', v) :: remove_key k o'
  end.

Fixpoint lookup_err (k : string) (o : list (string * string)) : option string :=
  match o with
  | [] => None
  | (k', v) :: o' => if String.eqb k k' then Some v else lookup_err k o'
  end.

(** [_nextErr(type)]: read, delete, [err || null] (the empty string is
    falsy). *)
Definition _nextErr (r : nat) (type : string) : M (option string) :=
  n <-- get_node r ;;
  put_node r (with_errs n (remove_key type (errs n))) ;;;
  retM (match lookup_err type (errs n) with
        | Some e => if String.eqb e "" then None else Some e
        | None => None
        end).

Definition set_queues (w : world) (qs : gmap nat (list event)) : world :=
  mkWorld (heap w) (next_ref w) (next_queue w) qs (subs w) (next_sub w)
          (next_promise w) (warnings w) (trace w).

Definition set_subs (w : world) (ss : list subscription) : world :=
  mkWorld (heap w) (next_ref w) (next_queue w) (queues w) ss (next_sub w)
          (next_promise w) (warnings w) (trace w).

Definition queue_events (w : world) (q : nat) : list event :=
  match queues w !! q with Some evs => evs | None => [] end.

(** Modelled from the spec: [Queue.prototype.push] (queue.js is not
    under src/); work units run in the order they were enqueued. *)
Definition queue_push (q : nat) (ev : event) : M unit :=
  modifyM (fun w => set_queues w (<[q := queue_events w q ++ [ev]]> (queues w))).

(** [_defer]: push onto this instance's queue. The automatic
    [this.flush(this.flushDelay)] of lines 312-314 is not modelled: the
    queue's [flush(delay)] (a synchronous or timed flush) is in queue.js,
    which is not under src/. A run flushes only at its [AFlush] steps, so
    no statement here depends on [flushDelay] taking effect. *)
Definition _defer (r : nat) (ev : event) : M unit :=
  n <-- get_node r ;; queue_push (queue n) ev.

Definition fresh_promise : M nat :=
  fun w => (Ok (next_promise w),
            mkWorld (heap w) (next_ref w) (next_queue w) (queues w) (subs w)
                    (next_sub w) (S (next_promise w)) (warnings w) (trace w)).

(** [get()]: the error is taken now, the callback runs at the flush.
    [k] tells whose promise the callback settles. *)
Definition get_with (r : nat) (k : ev_kind) : M unit :=
  err <-- _nextErr r "get" ;;
  _defer r (mkEvent r err k).

Definition get (r : nat) : M nat :=
  pid <-- fresh_promise ;;
  get_with r (KCaller pid) ;;;
  retM pid.

(** The first argument of [onSnapshot]: the next-callback itself, or an
    options object carrying [includeMetadataChanges]. *)
Inductive snapshot_arg1 : Type := A1Callback | A1Options (includeMetadataChanges : bool).

(** Invoking the argument at [pos]; position 1 holding an options object
    is not callable. *)
Definition call_arg (a1 : snapshot_arg1) (sid pos : nat) (p : payload) : M unit :=
  match a1, pos with
  | A1Options _, 1%nat => throwM "TypeError: onNext is not a function"
  | _, _ => emit (OCall sid pos p)
  end.

Definition onSnapshot (r : nat) (a1 : snapshot_arg1) : M nat :=
  err <-- _nextErr r "onSnapshot" ;;
  n <-- get_node r ;;
  let meta := match a1 with A1Options b => b | A1Callback => false end in
  let next_pos := if meta then 2%nat else 1%nat in
  let error_pos := if meta then 3%nat else 2%nat in
  let context := _results n in
  sid <-- (fun w => (Ok (next_sub w), w)) ;;
  (match err with
   | None => call_arg a1 sid next_pos (PSnap (_results n) [])
   | Some e => call_arg a1 sid error_pos (PErr e)
   end) ;;;
  modifyM (fun w => mkWorld (heap w) (next_ref w) (next_queue w) (queues w)
                      (subs w ++ [mkSub sid r (queue n) err meta next_pos error_pos context true])
                      (S (next_sub w)) (next_promise w) (warnings w) (trace w)) ;;;
  retM sid.

Definition unsubscribe (sid : nat) : M unit :=
  modifyM (fun w => set_subs w (map (fun s => if Nat.eqb (s_id s) sid then
      mkSub (s_id s) (s_ref s) (s_queue s) (s_err s) (s_meta s) (s_next_pos s)
            (s_error_pos s) (s_context s) false else s) (subs w))).

Fixpoint find_sub (sid : nat) (ss : list subscription) : option subscription :=
  match ss with
  | [] => None
  | s :: ss' => if Nat.eqb (s_id s) sid then Some s else find_sub sid ss'
  end.

Definition set_context (sid : nat) (ctx : jsobj) : M unit :=
  modifyM (fun w => set_subs w (map (fun s => if Nat.eqb (s_id s) sid then
      mkSub (s_id s) (s_ref s) (s_queue s) (s_err s) (s_meta s) (s_next_pos s)
            (s_error_pos s) ctx (s_active s) else s) (subs w))).

(** The callback a [get] event carries, run by the flush; it returns the
    subscriptions whose [.then] continuation is now due. *)
Definition run_event (ev : event) : M (list nat) :=
  n <-- get_node (ev_ref ev) ;;
  let results := _results n in
  match ev_kind_of ev, ev_err ev with
  | KCaller pid, None => emit (OResolved pid results) ;;; retM []
  | KCaller pid, Some e => emit (ORejected pid e) ;;; retM []
  | KSub sid, None => retM [sid]
  | KSub _, Some _ => retM []
  end.

(** The post-flush handler [onSnapshot(initialCall = undefined)]. *)
Definition post_flush (s : subscription) : M unit :=
  match s_err s with
  | Some e => emit (OCall (s_id s) (s_error_pos s) (PErr e))
  | None => get_with (s_ref s) (KSub (s_id s))
  end.

(** The [.then] continuation of that [get]: compare with [context.data]. *)
Definition snapshot_then (sid : nat) : M unit :=
  fun w =>
    match find_sub sid (subs w) with
    | None => (Ok tt, w)
    | Some s =>
        (n <-- get_node (s_ref s) ;;
         let results := _results n in
         if negb (isEqual_obj results (s_context s)) || s_meta s then
           emit (OCall sid (s_next_pos s) (PSnap results (s_context s))) ;;;
           set_context sid results
         else retM tt) w
    end.

Fixpoint seqM {A} (f : A -> M unit) (l : list A) : M unit :=
  match l with
  | [] => retM tt
  | x :: l' => f x ;;; seqM f l'
  end.

Fixpoint collectM {A B} (f : A -> M (list B)) (l : list A) : M (list B) :=
  match l with
  | [] => retM []
  | x :: l' => ys <-- f x ;; zs <-- collectM f l' ;; retM (ys ++ zs)
  end.

(** Modelled from the spec: [Queue.prototype.flush] and [onPostFlush]
    (queue.js is not under src/). A flush runs the queued work in order,
    then every registered post-flush handler of the queue; promise
    continuations run once the flush has returned. *)
Definition flush (r : nat) : M unit :=
  n <-- get_node r ;;
  let q := queue n in
  evs <-- (fun w => (Ok (queue_events w q), set_queues w (<[q := []]> (queues w)))) ;;
  due <-- collectM run_event evs ;;
  handlers <-- (fun w => (Ok (List.filter (fun s => s_active s && Nat.eqb (s_queue s) q) (subs w)), w)) ;;
  seqM post_flush handlers ;;;
  seqM snapshot_then due.

(** [errs[op] = e] on the object [errs]: an existing entry for [op] is
    overwritten in place, a new one is appended. *)
Fixpoint set_err (k v : string) (o : list (string * string)) : list (string * string) :=
  match o with
  | [] => [(k, v)]
  | (k', v') :: o' => if String.eqb k k' then (k, v) :: o' else (k', v') :: set_err k v o'
  end.

(** Out-of-band error injection: [query.errs[op] = e]. *)
Definition inject_err (r : nat) (op : string) (e : string) : M unit :=
  n <-- get_node r ;; put_node r (with_errs n (set_err op e (errs n))).

(** What a caller (or the data store collaborator) does next. *)
Inductive action : Type :=
| AWhere (r : nat) (p : fieldpath) (op : string) (v : value)
| AOrderBy (r : nat) (p : fieldpath) (dir : option string)
| ALimit (r : nat) (n : Z)
| AStartAfter (r : nat) (doc : cursor_arg)
| AAutoFlush (r : nat) (d : option delay)
| AGet (r : nat)
| AOnSnapshot (r : nat) (a1 : snapshot_arg1)
| AUnsubscribe (sid : nat)
| AFlush (r : nat)
| AInjectErr (r : nat) (op e : string)
| ASetData (r : nat) (d : jsobj).

Definition action_m (a : action) : M unit :=
  match a with
  | AWhere r p op v => where_ r p op v ;;; retM tt
  | AOrderBy r p dir => orderBy r p dir ;;; retM tt
  | ALimit r n => limit r n ;;; retM tt
  | AStartAfter r doc => startAfter r doc ;;; retM tt
  | AAutoFlush r d => autoFlush r d
  | AGet r => get r ;;; retM tt
  | AOnSnapshot r a1 => onSnapshot r a1 ;;; retM tt
  | AUnsubscribe sid => unsubscribe sid
  | AFlush r => flush r
  | AInjectErr r op e => inject_err r op e
  | ASetData r d => _setData r d
  end.

(** One step: an exception thrown to the caller is recorded. *)
Definition step (w : world) (a : action) : world :=
  match action_m a w with
  | (Ok _, w') => w'
  | (Thrown msg, w') =>
      mkWorld (heap w') (next_ref w') (next_queue w') (queues w') (subs w')
              (next_sub w') (next_promise w') (warnings w') (trace w' ++ [OThrown msg])
  end.

Definition run (w : world) (acts : list action) : world := fold_left step acts w.

Definition empty_world : world := mkWorld ∅ 0 0 ∅ [] 0 0 [] [].

(* ================================================================== *)
(** ** Notions used by the statements *)

(** [k] may be enumerated before [k'] in a JS object. *)
Definition key_before (k k' : string) : bool :=
  match array_index k, array_index k' with
  | Some a, Some b => (a <? b)%N
  | Some _, None => true
  | None, Some _ => false
  | None, None => negb (String.eqb k k')
  end.

(** The property list of a well-formed JS object: distinct keys in JS
    enumeration order. *)
Fixpoint enum_ok (l : jsobj) : bool :=
  match l with
  | [] => true
  | (k, _) :: l' => forallb (fun kv => key_before k kv.1) l' && enum_ok l'
  end.

(** The records [inRange] admits along a walk. *)
Fixpoint passed (f : finder) (st : bool * bool) (l : jsobj) : jsobj :=
  match l with
  | [] => []
  | kv :: l' =>
      let '(ok, st') := inRange f st kv.1 in
      if ok then kv :: passed f st' l' else passed f st' l'
  end.

(** The verdicts of the [buildStartFinder()] closure, called on every
    record with its [next] flag threaded through. *)
Fixpoint finder_verdicts (f : finder) (next : bool) (l : jsobj) : list bool :=
  match l with
  | [] => []
  | kv :: l' =>
      let '(r, next') := startFinder_call f next kv.1 in r :: finder_verdicts f next' l'
  end.

(** The verdicts of [inRange] along a walk. *)
Fixpoint inRange_verdicts (f : finder) (st : bool * bool) (l : jsobj) : list bool :=
  match l with
  | [] => []
  | kv :: l' => let '(r, st') := inRange f st kv.1 in r :: inRange_verdicts f st' l'
  end.

(** The cap [limited] puts on a sequence, [c] records already taken. *)
Definition limit_take (lim c : Z) (l : jsobj) : jsobj :=
  if lim <=? 0 then l else firstn (Z.to_nat (lim - c)) l.

Definition node_of (w : world) (r : nat) : option node := heap w !! r.

(** Fresh references and queue names are unused; queued work refers to
    existing instances; parent and children links point below the next
    fresh reference. *)
Definition world_wf (w : world) : Prop :=
  (forall r, (next_ref w <= r)%nat -> heap w !! r = None) /\
  (forall r n, heap w !! r = Some n -> (queue n < next_queue w)%nat) /\
  (forall q evs, queues w !! q = Some evs -> Forall (fun ev => is_Some (heap w !! ev_ref ev)) evs) /\
  (forall r n, heap w !! r = Some n ->
     Forall (fun c => (c < next_ref w)%nat) (children n) /\
     (forall p, parent n = Some p -> (p < next_ref w)%nat)).

Definition add_trace (w : world) (t : list output) : world :=
  mkWorld (heap w) (next_ref w) (next_queue w) (queues w) (subs w) (next_sub w)
          (next_promise w) (warnings w) (trace w ++ t).

(** A computation that only ever appends to the trace. *)
Definition trace_ext {A} (m : M A) : Prop :=
  forall w, exists t, trace (snd (m w)) = trace w ++ t.

(** No instance lists [c] among its children or has it as parent. *)
Definition unlinked (w : world) (c : nat) : Prop :=
  forall r n, heap w !! r = Some n -> (c ∉ children n) /\ parent n <> Some c.

(** The snapshots delivered to subscription [sid], in order. *)
Fixpoint deliveries (sid : nat) (tr : list output) : list jsobj :=
  match tr with
  | [] => []
  | OCall s _ (PSnap r _) :: tr' =>
      if Nat.eqb s sid then r :: deliveries sid tr' else deliveries sid tr'
  | _ :: tr' => deliveries sid tr'
  end.

(** Every snapshot differs by [_.isEqual] from the one delivered before. *)
Fixpoint changes_only (l : list jsobj) : bool :=
  match l with
  | x :: ((y :: _) as l') => negb (isEqual_obj y x) && changes_only l'
  | _ => true
  end.

(** A computation that keeps [P] on the world, whatever its outcome. *)
Definition preserves {A} (P : world -> Prop) (m : M A) : Prop :=
  forall w, P w -> P (snd (m w)).

(** What the callers observe of a world: the trace and the
    subscriptions. *)
Definition frame (w : world) : list output * list subscription * nat :=
  (trace w, subs w, next_sub w).

(** A computation that changes nothing the callers observe. *)
Definition quiet {A} (m : M A) : Prop := forall w, frame (snd (m w)) = frame w.

(** Outputs that are not a snapshot delivery. *)
Definition no_snap (o : output) : bool :=
  match o with OCall _ _ (PSnap _ _) => false | _ => true end.

(** Subscription numbers from [next_sub] on are unused, and every
    subscription without [includeMetadataChanges] has only received
    snapshots each differing from the one before, the last of which is its
    [context.data]. *)
Definition snap_inv (w : world) : Prop :=
  (forall sid, (next_sub w <= sid)%nat ->
     deliveries sid (trace w) = [] /\ find_sub sid (subs w) = None) /\
  (forall sid s, find_sub sid (subs w) = Some s -> s_meta s = false ->
     changes_only (deliveries sid (trace w)) = true /\
     (deliveries sid (trace w) = [] \/ last (deliveries sid (trace w)) = Some (s_context s))).

(** The subscription [sid] exists, with [includeMetadataChanges = b]. *)
Definition sub_meta (sid : nat) (b : bool) (w : world) : Prop :=
  exists s, find_sub sid (subs w) = Some s /\ s_meta s = b.

(** Callbacks (of any subscription) a trace segment contains. *)
Definition callbacks_of (sid : nat) (tr : list output) : list output :=
  List.filter (fun o => match o with OCall s _ _ => Nat.eqb s sid | _ => false end) tr.

(** The instance [clone()] allocates for receiver [n], given the
    receiver's parent instance [pn] and the queue it ends up with. *)
Definition clone_of (n : node) (pn : option node) (q : nat) : node :=
  {| errs := [];
     path := if String.eqb (path n) "" then "Mock://" else path n;
     id := match pn with Some _ => id n | None => extractName (path n) end;
     flushDelay := match pn with Some p => flushDelay p | None => DFalse end;
     queue := q;
     parent := parent n;
     children := [];
     orderedProperties := orderedProperties n;
     orderedDirections := orderedDirections n;
     limited := limited n;
     buildStartFinder := buildStartFinder n;
     data := cleanFirestoreData (map (fun kv => (kv.1, cloneDeep kv.2)) (_getData n)) |}.

Definition alloc_world (w : world) (h : gmap nat node) (nq : nat) : world :=
  mkWorld h (S (next_ref w)) nq (queues w) (subs w) (next_sub w) (next_promise w)
          (warnings w) (trace w).

(** [cn] is a copy of [n] carrying over the query state. *)
Definition cloned_from (n cn : node) : Prop :=
  data cn = data n /\ orderedProperties cn = orderedProperties n /\
  orderedDirections cn = orderedDirections n /\ limited cn = limited n /\
  buildStartFinder cn = buildStartFinder n /\ parent cn = parent n /\
  children cn = [] /\ errs cn = [].

(** The world after [clone()] allocated [cn] at [q]; nothing else moved. *)
Definition clone_world (w w1 : world) (q : nat) (cn : node) : Prop :=
  q = next_ref w /\ heap w1 = <[q := cn]> (heap w) /\ next_ref w1 = S (next_ref w) /\
  (next_queue w <= next_queue w1)%nat /\ queues w1 = queues w /\ subs w1 = subs w /\
  next_sub w1 = next_sub w /\ next_promise w1 = next_promise w /\
  warnings w1 = warnings w /\ trace w1 = trace w.

(** ** Orders on sort keys *)

(** The value [_.orderBy] sorts a record [kv] by, for the property [p]:
    [_.get({data, key}, getPropertyPath(p))]. *)
Definition sort_value (p : fieldpath) (kv : string * value) : value :=
  lodash_get (queryable kv.1 kv.2) (getPropertyPath p).

(** Two sort values that are both numbers and come in the order of the
    direction [dir]: non-increasing for ["desc"], non-decreasing otherwise. *)
Definition num_ordered (dir : string) (a b : value) : bool :=
  match a, b with
  | VNum x, VNum y => if String.eqb dir "desc" then (y <=? x) else (x <=? y)
  | _, _ => false
  end.

(** ** Concrete instances *)

(** A record [{x: z}]. *)
Definition rec_x (z : Z) : value := VObj [("x", VNum z)].

(** A root collection instance on queue 0 holding [records]. *)
Definition root_node (records : jsobj) : node :=
  mkNode [] "Mock://users" (Some "users") DFalse 0 None [] [] [] 0 FindAll records.

(** The records [{a:{x:1}, b:{x:2}, c:{x:1}}]. *)
Definition abc_records : jsobj := [("a", rec_x 1); ("b", rec_x 2); ("c", rec_x 1)].

(** A world whose only instance, at reference 0, is [n]. *)
Definition single_world (n : node) : world := mkWorld {[0%nat := n]} 1 1 ∅ [] 0 0 [] [].

(** The world of [single_world] on the records [{a, b, c}]. *)
Definition abc_world : world := single_world (root_node abc_records).

(** The same world with the error ['boom'] injected for [get]. *)
Definition get_err_world : world :=
  single_world (with_errs (root_node abc_records) [("get", "boom")]).

(** An instance whose [parent] is reference 0. *)
Definition child_node : node :=
  mkNode [] "Mock://users/a" (Some "a") DFalse 0 (Some 0%nat) [] [] [] 0 FindAll [].

(** [child_node] at reference 1 below the root instance at reference 0. *)
Definition linked_world : world :=
  mkWorld (<[1%nat := child_node]> {[0%nat := root_node abc_records]}) 2 1 ∅ [] 0 0 [] [].

(* ================================================================== *)
(** * Properties *)

(** ** JS objects *)

Lemma key_before_neq k k' : key_before k k' = true -> k <> k'.
Proof.
  unfold key_before. intros H ->.
  destruct (array_index k') as [a|].
  - apply N.ltb_lt in H. lia.
  - rewrite String.eqb_refl in H. discriminate.
Qed.

Lemma enum_ok_sublist (l1 l2 : jsobj) :
  l1 `sublist_of` l2 -> enum_ok l2 = true -> enum_ok l1 = true.
Proof.
  induction 1 as [|[k v] l1 l2 Hs IH|[k v] l1 l2 Hs IH]; simpl; auto.
  - intros [Hall Hok]%andb_prop. apply andb_true_intro. split; [|auto].
    apply forallb_forall. intros x Hx. rewrite forallb_forall in Hall.
    apply Hall. apply list_elem_of_In.
    eapply elem_of_sublist; [|exact Hs]. apply list_elem_of_In. exact Hx.
  - intros [_ Hok]%andb_prop. auto.
Qed.

Lemma filter_sublist {A} (f : A -> bool) (l : list A) : List.filter f l `sublist_of` l.
Proof.
  induction l as [|x l IH]; simpl; [constructor|].
  destruct (f x); constructor; auto.
Qed.

Lemma enum_ok_snoc_before (o : jsobj) k v :
  enum_ok (o ++ [(k, v)]) = true -> forall kv, In kv o -> key_before kv.1 k = true.
Proof.
  induction o as [|[k0 v0] o IH]; simpl; [tauto|].
  intros [Hall Hok]%andb_prop kv [<-|Hin]; [|auto].
  rewrite forallb_forall in Hall. apply (Hall (k, v)). apply in_or_app. simpl; auto.
Qed.

Lemma assoc_None_before (o : jsobj) k :
  (forall kv, In kv o -> key_before kv.1 k = true) -> assoc k o = None.
Proof.
  induction o as [|[k0 v0] o IH]; simpl; intros H; [done|].
  destruct (String.eqb_spec k k0) as [->|_].
  - exfalso. apply (key_before_neq k0 k0); [apply (H (k0, v0)); auto | done].
  - apply IH. intros kv Hin. apply H. auto.
Qed.

Lemma insert_index_end (o : jsobj) n k v :
  (forall kv, In kv o -> exists m, array_index kv.1 = Some m /\ (m < n)%N) ->
  insert_index n k v o = o ++ [(k, v)].
Proof.
  induction o as [|[k0 v0] o IH]; simpl; intros H; [done|].
  destruct (H (k0, v0)) as [m [Hm Hlt]]; [auto|]. simpl in Hm. rewrite Hm.
  destruct (N.ltb_spec n m); [lia|].
  rewrite IH; [done|]. intros kv Hin. apply H. auto.
Qed.

Lemma js_set_snoc (o : jsobj) k v :
  enum_ok (o ++ [(k, v)]) = true -> js_set o k v = o ++ [(k, v)].
Proof.
  intros Hok. pose proof (enum_ok_snoc_before o k v Hok) as Hb.
  unfold js_set. rewrite (assoc_None_before o k Hb).
  destruct (array_index k) as [n|] eqn:Hk; [|done].
  apply insert_index_end. intros kv Hin. specialize (Hb kv Hin).
  unfold key_before in Hb. rewrite Hk in Hb.
  destruct (array_index kv.1) as [m|]; [|discriminate].
  exists m. split; [done|]. by apply N.ltb_lt.
Qed.

Lemma js_build_from (l acc : jsobj) :
  enum_ok (acc ++ l) = true ->
  fold_left (fun o kv => js_set o kv.1 kv.2) l acc = acc ++ l.
Proof.
  revert acc. induction l as [|[k v] l IH]; intros acc Hok; simpl.
  - by rewrite app_nil_r.
  - rewrite js_set_snoc.
    + rewrite IH; [by rewrite <- app_assoc|]. by rewrite <- app_assoc.
    + eapply enum_ok_sublist; [|exact Hok].
      apply sublist_app; [done|]. apply sublist_skip, sublist_nil_l.
Qed.

Lemma js_build_id (l : jsobj) : enum_ok l = true -> js_build l = l.
Proof. intros H. unfold js_build. apply (js_build_from l []). done. Qed.

(** ** [_results] *)

Lemma limit_take_nil lim c : limit_take lim c [] = [].
Proof. unfold limit_take. destruct (lim <=? 0); [done|]. by destruct (Z.to_nat _). Qed.

Lemma walk_fold f lim (l : jsobj) st :
  acc (fold_left (walk_step f lim) l st) =
  fold_left (fun o kv => js_set o kv.1 kv.2)
            (limit_take lim (count st) (passed f (atStart st, next_flag st) l)) (acc st).
Proof.
  revert st. induction l as [|kv l IH]; intros st; cbn [fold_left passed].
  - by rewrite limit_take_nil.
  - unfold walk_step at 2.
    destruct (inRange f (atStart st, next_flag st) kv.1) as [ok [a nx]] eqn:E.
    cbn [fst snd]. unfold limit_take.
    destruct ok; cbn [andb]; destruct (lim <=? 0) eqn:Hl; cbn [orb].
    + rewrite IH. cbn [atStart next_flag count acc]. unfold limit_take. rewrite Hl. reflexivity.
    + destruct (count st <? lim) eqn:Hc.
      * apply Z.ltb_lt in Hc. rewrite IH. cbn [atStart next_flag count acc].
        unfold limit_take. rewrite Hl.
        replace (Z.to_nat (lim - count st)) with (S (Z.to_nat (lim - (count st + 1)))) by lia.
        reflexivity.
      * apply Z.ltb_ge in Hc. rewrite IH. cbn [atStart next_flag count acc].
        unfold limit_take. rewrite Hl.
        replace (Z.to_nat (lim - count st)) with 0%nat by lia. reflexivity.
    + rewrite IH. cbn [atStart next_flag count acc]. unfold limit_take. rewrite Hl. reflexivity.
    + rewrite IH. cbn [atStart next_flag count acc]. unfold limit_take. rewrite Hl. reflexivity.
Qed.

Lemma traversal_nil (n : node) : data n = [] -> traversal n = [].
Proof.
  intros Hd. unfold traversal. destruct (orderedProperties n); [done|].
  unfold lodash_orderBy. rewrite Hd. reflexivity.
Qed.

(** [_results] builds the object of the first [limited] records that
    pass the cursor, along the traversal, from a fresh walk state. *)
Lemma results_spec (n : node) :
  _results n = js_build (limit_take (limited n) 0
                           (passed (buildStartFinder n) (false, false) (traversal n))).
Proof.
  unfold _results. destruct (Nat.eqb_spec (length (data n)) 0) as [H|H].
  - apply length_zero_iff_nil in H. rewrite (traversal_nil n H). simpl.
    by rewrite limit_take_nil.
  - unfold walk. rewrite walk_fold. reflexivity.
Qed.

Lemma length_insert_index n k v (o : jsobj) : length (insert_index n k v o) = S (length o).
Proof.
  induction o as [|[k' v'] o IH]; simpl; [done|].
  destruct (array_index k'); [destruct (n <? _)%N|]; simpl; auto.
Qed.

Lemma length_replace_key k v (o : jsobj) : length (replace_key k v o) = length o.
Proof.
  induction o as [|[k' v'] o IH]; simpl; [done|].
  destruct (String.eqb k k'); simpl; auto.
Qed.

Lemma length_js_set (o : jsobj) k v : (length (js_set o k v) <= S (length o))%nat.
Proof.
  unfold js_set. destruct (assoc k o).
  - rewrite length_replace_key. lia.
  - destruct (array_index k).
    + rewrite length_insert_index. lia.
    + rewrite length_app. simpl. lia.
Qed.

Lemma length_js_build_from (l acc : jsobj) :
  (length (fold_left (fun o kv => js_set o kv.1 kv.2) l acc) <= length acc + length l)%nat.
Proof.
  revert acc. induction l as [|kv l IH]; intros acc; simpl; [lia|].
  specialize (IH (js_set acc kv.1 kv.2)). pose proof (length_js_set acc kv.1 kv.2). lia.
Qed.

Lemma length_js_build (l : jsobj) : (length (js_build l) <= length l)%nat.
Proof. apply (length_js_build_from l []). Qed.

(** ** The builders over the heap *)

Ltac mred H :=
  cbv beta iota zeta delta [clone MockFirestoreQuery bindM get_node retM alloc new_queue
    put_node modifyM set_heap throwM warn] in H;
  cbn [heap next_ref next_queue queues subs next_sub next_promise warnings trace] in H.

Ltac mnorm H :=
  cbv beta iota zeta in H;
  cbn [heap next_ref next_queue queues subs next_sub next_promise warnings trace] in H.

Lemma clone_spec r w r' w' :
  clone r w = (Ok r', w') ->
  exists n, heap w !! r = Some n /\ r' = next_ref w /\
    match parent n with
    | Some p => exists pn, heap w !! p = Some pn /\
        w' = alloc_world w (<[r' := clone_of n (Some pn) (queue pn)]> (heap w)) (next_queue w)
    | None =>
        w' = alloc_world w (<[r' := clone_of n None (next_queue w)]> (heap w)) (S (next_queue w))
    end.
Proof.
  intros H. mred H.
  destruct (heap w !! r) as [n|] eqn:Hr; mnorm H; [|discriminate].
  exists n. split; [done|].
  destruct (parent n) as [p|] eqn:Hp; mnorm H.
  - destruct (heap w !! p) as [pn|] eqn:Hpn; mnorm H; [|discriminate].
    rewrite lookup_insert_eq in H. mnorm H. injection H as <- <-.
    split; [done|]. exists pn. split; [done|].
    unfold alloc_world. rewrite insert_insert_eq. unfold clone_of, with_finder, with_limit, with_order.
    cbn. rewrite Hp. reflexivity.
  - rewrite lookup_insert_eq in H. mnorm H. injection H as <- <-.
    split; [done|].
    unfold alloc_world. rewrite insert_insert_eq. unfold clone_of, with_finder, with_limit, with_order.
    cbn. rewrite Hp. reflexivity.
Qed.

Lemma copy_data (l : jsobj) : map (fun kv : string * value => (kv.1, kv.2)) l = l.
Proof. induction l as [|[k v] l IH]; simpl; [done|]. by rewrite IH. Qed.

Lemma clone_Ok r w q w1 :
  clone r w = (Ok q, w1) ->
  exists n cn, heap w !! r = Some n /\ cloned_from n cn /\ clone_world w w1 q cn /\
    match parent n with
    | Some p => exists pn, heap w !! p = Some pn /\
                 queue cn = queue pn /\ flushDelay cn = flushDelay pn
    | None => queue cn = next_queue w /\ flushDelay cn = DFalse
    end.
Proof.
  intros H. destruct (clone_spec r w q w1 H) as (n & Hr & Hq & Hw).
  destruct (parent n) as [p|] eqn:Hp.
  - destruct Hw as (pn & Hpn & ->).
    exists n, (clone_of n (Some pn) (queue pn)). split; [done|].
    split; [|split].
    + unfold cloned_from, clone_of; cbn. unfold _getData, cleanFirestoreData, cloneDeep.
      rewrite !copy_data. by rewrite Hp.
    + unfold clone_world, alloc_world; cbn. repeat split; auto.
    + rewrite Hp. exists pn. cbn. done.
  - subst w1. exists n, (clone_of n None (next_queue w)). split; [done|].
    split; [|split].
    + unfold cloned_from, clone_of; cbn. unfold _getData, cleanFirestoreData, cloneDeep.
      rewrite !copy_data. by rewrite Hp.
    + unfold clone_world, alloc_world; cbn. repeat split; auto.
    + rewrite Hp. cbn. done.
Qed.

Lemma results_cloned (n cn : node) : cloned_from n cn -> _results cn = _results n.
Proof.
  intros (Hd & Hp & Hdir & Hl & Hf & _). unfold _results, traversal.
  by rewrite Hd, Hp, Hdir, Hl, Hf.
Qed.

Lemma wf_receiver_ne w r n : world_wf w -> heap w !! r = Some n -> r <> next_ref w.
Proof.
  intros [Hfresh _] Hr ->. rewrite (Hfresh (next_ref w)) in Hr; [discriminate | lia].
Qed.

Lemma bind_Ok {A B} (m : M A) (k : A -> M B) w a w1 :
  m w = (Ok a, w1) -> bindM m k w = k a w1.
Proof. unfold bindM. by intros ->. Qed.

Lemma bind_Thrown {A B} (m : M A) (k : A -> M B) w e w1 :
  m w = (Thrown e, w1) -> bindM m k w = (Thrown e, w1).
Proof. unfold bindM. by intros ->. Qed.

(** [where()] on a receiver [n]: a clone whose records are the filtered
    ones for a supported operator, and the receiver's own otherwise. *)
Lemma where_spec r p op v w q w' :
  world_wf w -> where_ r p op v w = (Ok q, w') ->
  exists n cn, heap w !! r = Some n /\ cloned_from n cn /\
    q = next_ref w /\
    heap w' = <[q := if supported_op op
                     then with_data cn (if Nat.eqb (length (data n)) 0 then []
                                        else where_results (data n) p op v)
                     else cn]> (heap w) /\
    warnings w' = warnings w ++ (if supported_op op then [] else [unsupported_where_msg]) /\
    trace w' = trace w /\ subs w' = subs w /\ queues w' = queues w.
Proof.
  intros Hwf H. unfold where_ in H.
  destruct (clone r w) as [[q1|e] w1] eqn:Hc;
    [|rewrite (bind_Thrown _ _ _ _ _ Hc) in H; discriminate].
  rewrite (bind_Ok _ _ _ _ _ Hc) in H.
  destruct (clone_Ok r w q1 w1 Hc) as (n & cn & Hr & Hcl & Hcw & _).
  destruct Hcw as (Hq & Hh & _ & _ & Hqs & Hs & _ & _ & Hwarn & Htr).
  pose proof (wf_receiver_ne w r n Hwf Hr) as Hne.
  exists n, cn. split; [done|]. split; [done|].
  unfold bindM at 1, get_node at 1 in H. rewrite Hh in H.
  rewrite lookup_insert_ne in H by congruence. rewrite Hr in H.
  destruct (supported_op op) eqn:Hop; cbn [negb] in H.
  - assert (Hd : forall d, _setData q1 d w1 =
              (Ok tt, set_heap w1 (<[q1 := with_data cn d]> (heap w1)))).
    { intros d. unfold _setData, bindM, get_node, put_node, modifyM.
      rewrite Hh, lookup_insert_eq. unfold cleanFirestoreData, cloneDeep. rewrite copy_data. by rewrite Hh. }
    destruct (Nat.eqb (length (data n)) 0); cbn [negb] in H;
      unfold bindM at 1 in H; rewrite Hd in H; unfold retM in H; injection H as <- <-;
      cbn; rewrite Hh, insert_insert_eq; rewrite <- Hq; repeat split; auto;
      by rewrite app_nil_r.
  - unfold bindM, warn, modifyM, retM in H. injection H as <- <-. cbn.
    rewrite <- Hq. repeat split; auto. by rewrite Hwarn.
Qed.

(** ** Traces only grow *)

Lemma trace_ext_ret {A} (a : A) : trace_ext (retM a).
Proof. intros w. exists []. by rewrite app_nil_r. Qed.

Lemma trace_ext_throw {A} msg : trace_ext (@throwM A msg).
Proof. intros w. exists []. by rewrite app_nil_r. Qed.

Lemma trace_ext_bind {A B} (m : M A) (k : A -> M B) :
  trace_ext m -> (forall a, trace_ext (k a)) -> trace_ext (bindM m k).
Proof.
  intros Hm Hk w. unfold bindM. destruct (Hm w) as [t1 Ht1].
  destruct (m w) as [[a|e] w1]; cbn in Ht1.
  - destruct (Hk a w1) as [t2 Ht2]. exists (t1 ++ t2). by rewrite Ht2, Ht1, app_assoc.
  - exists t1. done.
Qed.

Lemma trace_ext_emit o : trace_ext (emit o).
Proof. intros w. by exists [o]. Qed.

Lemma trace_ext_get_node r : trace_ext (get_node r).
Proof.
  intros w. exists []. unfold get_node. rewrite app_nil_r. by destruct (heap w !! r).
Qed.

Lemma trace_ext_put_node r n : trace_ext (put_node r n).
Proof. intros w. exists []. by rewrite app_nil_r. Qed.

Create HintDb trace_db.
#[local] Hint Opaque trace_ext : trace_db.
#[local] Hint Resolve trace_ext_ret trace_ext_throw trace_ext_emit
  trace_ext_get_node trace_ext_put_node : trace_db.

Ltac trace_auto :=
  repeat (apply trace_ext_bind; [|intros]); try solve [auto with trace_db].

Lemma trace_ext_nextErr r type : trace_ext (_nextErr r type).
Proof. unfold _nextErr. trace_auto. Qed.

Lemma trace_ext_queue_push q ev : trace_ext (queue_push q ev).
Proof. intros w. exists []. by rewrite app_nil_r. Qed.

#[local] Hint Resolve trace_ext_nextErr trace_ext_queue_push : trace_db.

Lemma trace_ext_get_with r k : trace_ext (get_with r k).
Proof.
  unfold get_with, _defer. trace_auto.
Qed.

Lemma trace_ext_post_flush s : trace_ext (post_flush s).
Proof. unfold post_flush. destruct (s_err s); [apply trace_ext_emit|apply trace_ext_get_with]. Qed.

Lemma trace_ext_set_context sid ctx : trace_ext (set_context sid ctx).
Proof. intros w. exists []. by rewrite app_nil_r. Qed.

Lemma trace_ext_snapshot_then sid : trace_ext (snapshot_then sid).
Proof.
  intros w. unfold snapshot_then. destruct (find_sub sid (subs w)) as [s|].
  - revert w. trace_auto. destruct (_ || _).
    + trace_auto. apply trace_ext_set_context.
    + apply trace_ext_ret.
  - exists []. by rewrite app_nil_r.
Qed.

Lemma trace_ext_seqM {A} (f : A -> M unit) (l : list A) :
  (forall x, trace_ext (f x)) -> trace_ext (seqM f l).
Proof. intros Hf. induction l as [|x l IH]; simpl; trace_auto. Qed.

Lemma trace_ext_read {A} (f : world -> A) : trace_ext (fun w => (Ok (f w), w)).
Proof. intros w. exists []. by rewrite app_nil_r. Qed.

(** ** [get] and the flush *)

Lemma add_trace_add w t1 t2 : add_trace (add_trace w t1) t2 = add_trace w (t1 ++ t2).
Proof. unfold add_trace. cbn. by rewrite app_assoc. Qed.

Lemma run_event_ok ev w :
  is_Some (heap w !! ev_ref ev) -> exists ds t, run_event ev w = (Ok ds, add_trace w t).
Proof.
  intros [n Hn]. unfold run_event, bindM, get_node. rewrite Hn.
  destruct (ev_kind_of ev), (ev_err ev); cbn.
  1-2: eexists _, [_]; reflexivity.
  all: eexists _, []; unfold add_trace; destruct w; cbn; by rewrite app_nil_r.
Qed.

Lemma collect_ok evs w :
  Forall (fun ev => is_Some (heap w !! ev_ref ev)) evs ->
  exists ds t, collectM run_event evs w = (Ok ds, add_trace w t).
Proof.
  revert w. induction evs as [|ev evs IH]; intros w Hall; cbn.
  - exists [], []. unfold retM, add_trace. destruct w; cbn. by rewrite app_nil_r.
  - inversion Hall as [|? ? Hev Hrest]; subst.
    destruct (run_event_ok ev w Hev) as (ds1 & t1 & E1). unfold bindM. rewrite E1.
    destruct (IH (add_trace w t1) Hrest) as (ds2 & t2 & E2). rewrite E2.
    exists (ds1 ++ ds2), (t1 ++ t2). by rewrite add_trace_add.
Qed.

Lemma collect_resolves pre ev post w n pid :
  Forall (fun e => is_Some (heap w !! ev_ref e)) (pre ++ ev :: post) ->
  heap w !! ev_ref ev = Some n -> ev_kind_of ev = KCaller pid -> ev_err ev = None ->
  exists ds t, collectM run_event (pre ++ ev :: post) w = (Ok ds, add_trace w t) /\
               In (OResolved pid (_results n)) t.
Proof.
  intros Hall Hn Hk He. revert w Hall Hn.
  induction pre as [|x pre IH]; intros w Hall Hn; cbn [app collectM].
  - inversion Hall as [|? ? _ Hrest]; subst.
    assert (E1 : run_event ev w = (Ok [], add_trace w [OResolved pid (_results n)])).
    { unfold run_event, bindM, get_node. rewrite Hn, Hk, He. reflexivity. }
    unfold bindM at 1. rewrite E1.
    destruct (collect_ok post (add_trace w [OResolved pid (_results n)]) Hrest)
      as (ds & t & E). unfold bindM at 1. rewrite E. cbn.
    exists ds, (OResolved pid (_results n) :: t). split; [|by left].
    by rewrite add_trace_add.
  - inversion Hall as [|? ? Hx Hrest]; subst.
    destruct (run_event_ok x w Hx) as (ds1 & t1 & E1). unfold bindM at 1. rewrite E1.
    destruct (IH (add_trace w t1) Hrest Hn) as (ds2 & t2 & E2 & Hin).
    unfold bindM at 1. rewrite E2. cbn.
    exists (ds1 ++ ds2), (t1 ++ t2). split; [by rewrite add_trace_add|].
    apply in_or_app. by right.
Qed.

Lemma flush_resolves r w nr pre ev post n pid :
  heap w !! r = Some nr -> queue_events w (queue nr) = pre ++ ev :: post ->
  Forall (fun e => is_Some (heap w !! ev_ref e)) (pre ++ ev :: post) ->
  heap w !! ev_ref ev = Some n -> ev_kind_of ev = KCaller pid -> ev_err ev = None ->
  In (OResolved pid (_results n)) (trace (snd (flush r w))).
Proof.
  intros Hr Hq Hall Hn Hk He. unfold flush, bindM at 1, get_node at 1. rewrite Hr.
  cbv beta iota. unfold bindM at 1. rewrite Hq.
  set (w3 := set_queues w (<[queue nr := []]> (queues w))).
  destruct (collect_resolves pre ev post w3 n pid Hall Hn Hk He) as (ds & t & E & Hin).
  unfold bindM at 1. rewrite E.
  set (rest := handlers <-- _ ;; _).
  assert (Hrest : trace_ext rest).
  { unfold rest. apply trace_ext_bind; [apply trace_ext_read|intros].
    apply trace_ext_bind; intros; apply trace_ext_seqM;
      [apply trace_ext_post_flush | intros; apply trace_ext_snapshot_then]. }
  destruct (Hrest (add_trace w3 t)) as [t' Ht']. rewrite Ht'.
  cbn. apply in_or_app. left. apply in_or_app. by right.
Qed.

Lemma get_Ok w r n :
  heap w !! r = Some n -> lookup_err "get" (errs n) = None ->
  get r w = (Ok (next_promise w),
    mkWorld (<[r := with_errs n (remove_key "get" (errs n))]> (heap w)) (next_ref w)
            (next_queue w)
            (<[queue n := queue_events w (queue n) ++ [mkEvent r None (KCaller (next_promise w))]]>
               (queues w))
            (subs w) (next_sub w) (S (next_promise w)) (warnings w) (trace w)).
Proof.
  intros Hr Hl.
  unfold get, get_with, fresh_promise, _nextErr, _defer, queue_push, bindM, get_node,
    put_node, modifyM, set_heap, set_queues, retM; cbn.
  rewrite Hr. cbn. rewrite lookup_insert_eq. rewrite Hl. reflexivity.
Qed.

Lemma step_trace w a o :
  In o (trace (snd (action_m a w))) -> In o (trace (step w a)).
Proof.
  unfold step. destruct (action_m a w) as [[x|e] w']; cbn; [done|].
  intros H. apply in_or_app. by left.
Qed.

Lemma is_Some_insert (h : gmap nat node) k x r : is_Some (h !! r) -> is_Some (<[k := x]> h !! r).
Proof.
  intros Hs. destruct (decide (k = r)) as [->|Hne].
  - rewrite lookup_insert_eq. by eexists.
  - by rewrite lookup_insert_ne.
Qed.

(** [get()] then a flush of the instance's queue resolves the promise
    with the instance's evaluation. *)
Lemma get_flush_resolves w r n :
  heap w !! r = Some n -> lookup_err "get" (errs n) = None ->
  Forall (fun e => is_Some (heap w !! ev_ref e)) (queue_events w (queue n)) ->
  In (OResolved (next_promise w) (_results n)) (trace (run w [AGet r; AFlush r])).
Proof.
  intros Hr Hl Hall. unfold run. cbn [fold_left].
  assert (E : step w (AGet r) =
    mkWorld (<[r := with_errs n (remove_key "get" (errs n))]> (heap w)) (next_ref w)
            (next_queue w)
            (<[queue n := queue_events w (queue n) ++ [mkEvent r None (KCaller (next_promise w))]]>
               (queues w))
            (subs w) (next_sub w) (S (next_promise w)) (warnings w) (trace w)).
  { unfold step, action_m. rewrite (bind_Ok _ _ _ _ _ (get_Ok w r n Hr Hl)). reflexivity. }
  rewrite E. apply step_trace. cbn [action_m].
  change (_results n) with (_results (with_errs n (remove_key "get" (errs n)))).
  eapply (flush_resolves _ _ (with_errs n (remove_key "get" (errs n)))
            (queue_events w (queue n)) _ []); cbn.
  - apply lookup_insert_eq.
  - unfold queue_events at 1. cbn. by rewrite lookup_insert_eq.
  - apply Forall_app. split.
    + eapply Forall_impl; [exact Hall|]. intros e He. by apply is_Some_insert.
    + constructor; [|constructor]. cbn. rewrite lookup_insert_eq. by eexists.
  - apply lookup_insert_eq.
  - reflexivity.
  - reflexivity.
Qed.

(** ** Plain evaluation and [where]'s filter *)

Lemma passed_FindAll st (l : jsobj) : passed FindAll st l = l.
Proof.
  revert st. induction l as [|kv l IH]; intros [a nx]; cbn [passed]; [done|].
  destruct a; cbn; by rewrite IH.
Qed.

Lemma limit_take_unbounded lim c (l : jsobj) : lim <= 0 -> limit_take lim c l = l.
Proof. intros H. unfold limit_take. by replace (lim <=? 0) with true by lia. Qed.

(** With no order, no cap and no cursor, the evaluation is the data. *)
Lemma results_plain (n : node) :
  orderedProperties n = [] -> limited n <= 0 -> buildStartFinder n = FindAll ->
  enum_ok (data n) = true -> _results n = data n.
Proof.
  intros Ho Hl Hf Hok. rewrite results_spec, Hf, passed_FindAll, limit_take_unbounded by done.
  unfold traversal. rewrite Ho. by apply js_build_id.
Qed.

Lemma where_fold_filter (f : string -> value -> bool) (d acc : jsobj) :
  fold_left (fun results '(key, dat) =>
      if f key dat then js_set results key (cloneDeep dat) else results) d acc =
  fold_left (fun o kv => js_set o kv.1 kv.2) (List.filter (fun kv => f kv.1 kv.2) d) acc.
Proof.
  revert acc. induction d as [|[k x] d IH]; intros acc; cbn; [done|].
  destruct (f k x); cbn; apply IH.
Qed.

Lemma where_results_filter d p op v :
  enum_ok d = true ->
  where_results d p op v = List.filter (fun kv => where_keep p op v kv.1 kv.2) d.
Proof.
  intros Hok. unfold where_results. rewrite where_fold_filter. apply js_build_id.
  eapply enum_ok_sublist; [apply filter_sublist | exact Hok].
Qed.

Lemma wf_queue_events w q :
  world_wf w -> Forall (fun e => is_Some (heap w !! ev_ref e)) (queue_events w q).
Proof.
  intros (_ & _ & Hq & _). unfold queue_events. destruct (queues w !! q) eqn:E; [|constructor].
  by apply (Hq q).
Qed.

Lemma Forall_is_Some_insert (h : gmap nat node) k x (evs : list event) :
  Forall (fun e => is_Some (h !! ev_ref e)) evs ->
  Forall (fun e => is_Some (<[k := x]> h !! ev_ref e)) evs.
Proof. intros H. eapply Forall_impl; [exact H|]. intros e He. by apply is_Some_insert. Qed.

Lemma single_world_wf n :
  queue n = 0%nat -> children n = [] -> parent n = None -> world_wf (single_world n).
Proof.
  intros Hq Hc Hp. unfold single_world, world_wf; cbn. split; [|split; [|split]].
  - intros r Hr. apply lookup_singleton_ne. lia.
  - intros r n' (_ & <-)%lookup_singleton_Some. lia.
  - intros q evs H. by rewrite lookup_empty in H.
  - intros r n' (_ & <-)%lookup_singleton_Some. rewrite Hc, Hp. split; [constructor|done].
Qed.

(** ** The other builders *)

(** The tail every builder but [where] runs on its clone. *)
Lemma update_clone_Ok r w q w1 (f : node -> node) :
  world_wf w -> clone r w = (Ok q, w1) ->
  exists n cn, heap w !! r = Some n /\ cloned_from n cn /\ q = next_ref w /\
    (n' <-- get_node q ;; put_node q (f n') ;;; retM q) w1 =
      (Ok q, set_heap w1 (<[q := f cn]> (heap w1))) /\
    heap w1 = <[q := cn]> (heap w) /\ trace w1 = trace w /\ subs w1 = subs w /\
    queues w1 = queues w.
Proof.
  intros Hwf Hc. destruct (clone_Ok r w q w1 Hc) as (n & cn & Hr & Hcl & Hcw & _).
  destruct Hcw as (Hq & Hh & _ & _ & Hqs & Hs & _ & _ & _ & Htr).
  exists n, cn. do 3 (split; [done|]). split; [|auto].
  unfold bindM, get_node, put_node, modifyM, retM.
  replace (heap w1 !! q) with (Some cn) by (rewrite Hh; symmetry; apply lookup_insert_eq).
  reflexivity.
Qed.

Lemma orderBy_spec r p dir w q w' :
  world_wf w -> orderBy r p dir w = (Ok q, w') ->
  exists n cn, heap w !! r = Some n /\ cloned_from n cn /\ q = next_ref w /\
    heap w' = <[q := with_order cn (orderedProperties n ++ [p])
                       (orderedDirections n ++ [match dir with
                                                | Some s => if String.eqb s "" then "asc" else s
                                                | None => "asc" end])]> (heap w) /\
    trace w' = trace w /\ subs w' = subs w /\ queues w' = queues w.
Proof.
  intros Hwf H. unfold orderBy in H.
  destruct (clone r w) as [[q1|e] w1] eqn:Hc;
    [|rewrite (bind_Thrown _ _ _ _ _ Hc) in H; discriminate].
  rewrite (bind_Ok _ _ _ _ _ Hc) in H.
  destruct (clone_Ok r w q1 w1 Hc) as (n & cn & Hr & Hcl & Hcw & _).
  destruct Hcw as (Hq & Hh & _ & _ & Hqs & Hs & _ & _ & _ & Htr).
  unfold bindM, get_node, put_node, modifyM, retM in H. rewrite Hh, lookup_insert_eq in H.
  injection H as <- <-. exists n, cn. do 3 (split; [done|]).
  destruct Hcl as (Hd & Ho & Hdi & _).
  split; [|auto]. cbn. rewrite Hh, insert_insert_eq, Ho, Hdi. reflexivity.
Qed.

Lemma limit_spec r lim w q w' :
  world_wf w -> limit r lim w = (Ok q, w') ->
  exists n cn, heap w !! r = Some n /\ cloned_from n cn /\ q = next_ref w /\
    heap w' = <[q := with_limit cn lim]> (heap w) /\
    trace w' = trace w /\ subs w' = subs w /\ queues w' = queues w.
Proof.
  intros Hwf H. unfold limit in H.
  destruct (clone r w) as [[q1|e] w1] eqn:Hc;
    [|rewrite (bind_Thrown _ _ _ _ _ Hc) in H; discriminate].
  rewrite (bind_Ok _ _ _ _ _ Hc) in H.
  destruct (update_clone_Ok r w q1 w1 (fun n => with_limit n lim) Hwf Hc)
    as (n & cn & Hr & Hcl & Hq & E & Hh & Htr & Hs & Hqs).
  rewrite E in H. injection H as <- <-. exists n, cn. do 3 (split; [done|]).
  split; [|auto]. cbn. by rewrite Hh, insert_insert_eq.
Qed.

Lemma startAfter_doc_spec r d w q w' :
  world_wf w -> startAfter r (DocSnapshot d) w = (Ok q, w') ->
  exists n cn, heap w !! r = Some n /\ orderedProperties n <> [] /\
    cloned_from n cn /\ q = next_ref w /\
    heap w' = <[q := with_finder cn (FindAfter d)]> (heap w) /\
    trace w' = trace w /\ subs w' = subs w /\ queues w' = queues w.
Proof.
  intros Hwf H. unfold startAfter, bindM at 1, get_node at 1 in H.
  destruct (heap w !! r) as [n0|] eqn:Hr0; [|discriminate].
  destruct (orderedProperties n0) as [|p0 ps] eqn:Ho0; [discriminate|].
  destruct (clone r w) as [[q1|e] w1] eqn:Hc;
    [|rewrite (bind_Thrown _ _ _ _ _ Hc) in H; discriminate].
  rewrite (bind_Ok _ _ _ _ _ Hc) in H.
  destruct (update_clone_Ok r w q1 w1 (fun n => with_finder n (FindAfter d)) Hwf Hc)
    as (n & cn & Hr & Hcl & Hq & E & Hh & Htr & Hs & Hqs).
  rewrite Hr0 in Hr. injection Hr as <-.
  rewrite E in H. injection H as <- <-. exists n0, cn. split; [done|].
  split; [by rewrite Ho0|]. do 2 (split; [done|]).
  split; [|auto]. cbn. by rewrite Hh, insert_insert_eq.
Qed.

Lemma traversal_cloned (n cn : node) : cloned_from n cn -> traversal cn = traversal n.
Proof. intros (Hd & Ho & Hdi & _). unfold traversal. by rewrite Hd, Ho, Hdi. Qed.

Lemma clone_Thrown r w e w1 n :
  clone r w = (Thrown e, w1) -> heap w !! r = Some n ->
  exists p, parent n = Some p /\ heap w !! p = None.
Proof.
  intros H Hr. mred H. rewrite Hr in H. mnorm H.
  destruct (parent n) as [p|] eqn:Hp; mnorm H.
  - exists p. split; [done|]. destruct (heap w !! p) eqn:Hpn; [|done].
    mnorm H. rewrite lookup_insert_eq in H. discriminate.
  - rewrite lookup_insert_eq in H. discriminate.
Qed.

(** [where()] returns normally on an instance whose parent exists. *)
Lemma where_Ok w r n p op v :
  world_wf w -> heap w !! r = Some n ->
  (forall pr, parent n = Some pr -> is_Some (heap w !! pr)) ->
  exists q w', where_ r p op v w = (Ok q, w').
Proof.
  intros Hwf Hr Hpar. unfold where_.
  destruct (clone r w) as [[q1|e] w1] eqn:Hc.
  - rewrite (bind_Ok _ _ _ _ _ Hc).
    destruct (clone_Ok r w q1 w1 Hc) as (n' & cn & Hr' & _ & Hcw & _).
    destruct Hcw as (Hq & Hh & _).
    pose proof (wf_receiver_ne w r n Hwf Hr) as Hne.
    unfold bindM at 1, get_node at 1. rewrite Hh, lookup_insert_ne, Hr by congruence.
    cbv beta iota.
    destruct (negb (supported_op op)).
    + unfold bindM, warn, modifyM, retM. eauto.
    + destruct (negb (Nat.eqb (length (data n)) 0));
        cbv beta iota zeta delta [bindM _setData get_node put_node modifyM retM];
        rewrite Hh, lookup_insert_eq; eauto.
  - destruct (clone_Thrown r w e w1 n Hc Hr) as (pr & Hp & Hn).
    destruct (Hpar pr Hp) as [x Hx]. congruence.
Qed.

(** ** The cursor of [startAfter] *)

Lemma finder_verdicts_next d (l : jsobj) :
  finder_verdicts (FindAfter d) true l = repeat true (length l).
Proof. induction l as [|kv l IH]; cbn; [done|]. by rewrite IH. Qed.

Lemma finder_verdicts_skip d (pre l : jsobj) :
  ~ In d (map fst pre) ->
  finder_verdicts (FindAfter d) false (pre ++ l) =
    repeat false (length pre) ++ finder_verdicts (FindAfter d) false l.
Proof.
  induction pre as [|[k v] pre IH]; cbn; intros Hn; [done|].
  destruct (String.eqb_spec k d) as [->|Hne]; [tauto|]. f_equal. apply IH. tauto.
Qed.

Lemma passed_started f x (l : jsobj) : passed f (true, x) l = l.
Proof. induction l as [|kv l IH]; cbn; [done|]. by rewrite IH. Qed.

Lemma passed_after d (l : jsobj) : passed (FindAfter d) (false, true) l = l.
Proof. destruct l as [|kv l]; cbn; [done|]. by rewrite passed_started. Qed.

Lemma passed_skip d (pre l : jsobj) :
  ~ In d (map fst pre) ->
  passed (FindAfter d) (false, false) (pre ++ l) = passed (FindAfter d) (false, false) l.
Proof.
  induction pre as [|[k v] pre IH]; cbn; intros Hn; [done|].
  destruct (String.eqb_spec k d) as [->|Hne]; [tauto|]. apply IH. tauto.
Qed.

Lemma passed_cursor d v (pre post : jsobj) :
  ~ In d (map fst pre) ->
  passed (FindAfter d) (false, false) (pre ++ (d, v) :: post) = post.
Proof. intros Hn. rewrite passed_skip by done. cbn. rewrite String.eqb_refl. apply passed_after. Qed.

(** ** [autoFlush] and links *)

Lemma preserves_bind {A B} P (m : M A) (k : A -> M B) :
  preserves P m -> (forall a, preserves P (k a)) -> preserves P (bindM m k).
Proof.
  intros Hm Hk w Hw. unfold bindM. specialize (Hm w Hw).
  destruct (m w) as [[a|e] w1]; cbn in *; [by apply Hk|done].
Qed.

Lemma preserves_ret {A} P (a : A) : preserves P (retM a).
Proof. by intros w. Qed.

Lemma preserves_fold P (f : nat -> M unit) (l : list nat) (m0 : M unit) :
  preserves P m0 -> (forall c, In c l -> preserves P (f c)) ->
  preserves P (fold_left (fun m c => m ;;; f c) l m0).
Proof.
  revert m0. induction l as [|c l IH]; intros m0 H0 Hf; cbn; [done|].
  apply IH; [|intros; apply Hf; by right].
  apply preserves_bind; [done|]. intros _. apply Hf. by left.
Qed.

(** [autoFlush] started anywhere but at an unlinked instance never
    reaches it. *)
Lemma autoFlush_go_unlinked c nc fuel :
  forall x d, x <> c ->
  preserves (fun w => unlinked w c /\ heap w !! c = Some nc) (autoFlush_go fuel x d).
Proof.
  induction fuel as [|fuel IH]; intros x d Hx w Hw; [exact Hw|].
  destruct (heap w !! x) as [n|] eqn:Hn.
  2: { assert (E : autoFlush_go (S fuel) x d w = (Thrown "TypeError", w)).
       { cbn [autoFlush_go]. unfold bindM at 1, get_node at 1. by rewrite Hn. }
       rewrite E. exact Hw. }
  assert (E : autoFlush_go (S fuel) x d w =
    (if delay_eqb (flushDelay n) d then retM tt
     else put_node x (with_delay n d) ;;;
          fold_left (fun m c => m ;;; autoFlush_go fuel c d) (children n) (retM tt) ;;;
          match parent n with Some p => autoFlush_go fuel p d | None => retM tt end) w).
  { cbn [autoFlush_go]. unfold bindM at 1, get_node at 1. by rewrite Hn. }
  rewrite E. destruct (delay_eqb (flushDelay n) d); [exact Hw|].
  destruct Hw as [Hu Hc].
  destruct (Hu x n Hn) as [Hch Hpar].
  refine (preserves_bind (fun w => unlinked w c /\ heap w !! c = Some nc) _ _ _ _ w (conj Hu Hc)).
  - intros w0 [Hu0 Hc0]. unfold put_node, modifyM, set_heap, unlinked. cbn. split.
    + intros r' n'. destruct (decide (r' = x)) as [->|Hne].
      * rewrite lookup_insert_eq. intros [= <-]. by split.
      * rewrite lookup_insert_ne by congruence. apply Hu0.
    + rewrite lookup_insert_ne by congruence. done.
  - intros _. apply preserves_bind.
    + apply preserves_fold; [apply preserves_ret|]. intros c' Hin. apply IH.
      intros ->. apply Hch. by apply list_elem_of_In.
    + intros _. destruct (parent n) as [p|] eqn:Hp; [|apply preserves_ret].
      apply IH. congruence.
Qed.

(** ** Computations the callers do not observe *)

Lemma quiet_bind {A B} (m : M A) (k : A -> M B) :
  quiet m -> (forall a, quiet (k a)) -> quiet (bindM m k).
Proof.
  intros Hm Hk w. unfold bindM. specialize (Hm w).
  destruct (m w) as [[a|e] w1]; cbn in *; [by rewrite Hk|done].
Qed.

Lemma quiet_ret {A} (a : A) : quiet (retM a).
Proof. by intros w. Qed.

Lemma quiet_throw {A} msg : quiet (@throwM A msg).
Proof. by intros w. Qed.

Lemma quiet_get_node r : quiet (get_node r).
Proof. intros w. unfold get_node. by destruct (heap w !! r). Qed.

Lemma quiet_put_node r n : quiet (put_node r n).
Proof. by intros w. Qed.

Lemma quiet_warn msg : quiet (warn msg).
Proof. by intros w. Qed.

Lemma quiet_alloc n : quiet (alloc n).
Proof. by intros w. Qed.

Lemma quiet_new_queue : quiet new_queue.
Proof. by intros w. Qed.

Lemma quiet_queue_push q ev : quiet (queue_push q ev).
Proof. by intros w. Qed.

Lemma quiet_fresh_promise : quiet fresh_promise.
Proof. by intros w. Qed.

Create HintDb quiet_db.
#[local] Hint Opaque quiet : quiet_db.
#[local] Hint Resolve quiet_ret quiet_throw quiet_get_node quiet_put_node quiet_warn
  quiet_alloc quiet_new_queue quiet_queue_push quiet_fresh_promise : quiet_db.

Ltac quiet_auto :=
  repeat (first [ apply quiet_bind; [|intros ?]
                | progress cbv zeta
                | match goal with |- quiet (match ?x with _ => _ end) => destruct x end ]);
  try solve [auto with quiet_db].

Lemma quiet_nextErr r type : quiet (_nextErr r type).
Proof. unfold _nextErr. quiet_auto. Qed.

Lemma quiet_get r : quiet (get r).
Proof. unfold get, get_with, _defer. quiet_auto. Qed.

Lemma quiet_clone r : quiet (clone r).
Proof. unfold clone, MockFirestoreQuery. quiet_auto. Qed.

Lemma quiet_setData r d : quiet (_setData r d).
Proof. unfold _setData. quiet_auto. Qed.

#[local] Hint Resolve quiet_nextErr quiet_get quiet_clone quiet_setData : quiet_db.

Lemma quiet_where r p op v : quiet (where_ r p op v).
Proof. unfold where_. quiet_auto. Qed.

Lemma quiet_orderBy r p dir : quiet (orderBy r p dir).
Proof. unfold orderBy. quiet_auto. Qed.

Lemma quiet_limit r lim : quiet (limit r lim).
Proof. unfold limit. quiet_auto. Qed.

Lemma quiet_startAfter r doc : quiet (startAfter r doc).
Proof. unfold startAfter. quiet_auto. Qed.

Lemma quiet_fold (f : nat -> M unit) (l : list nat) (m0 : M unit) :
  quiet m0 -> (forall c, quiet (f c)) -> quiet (fold_left (fun m c => m ;;; f c) l m0).
Proof.
  revert m0. induction l as [|c l IH]; intros m0 H0 Hf; cbn; [done|].
  apply IH; [|done]. by apply quiet_bind.
Qed.

Lemma quiet_autoFlush_go fuel r d : quiet (autoFlush_go fuel r d).
Proof.
  revert r. induction fuel as [|fuel IH]; intros r; cbn [autoFlush_go]; [apply quiet_throw|].
  quiet_auto. apply quiet_fold; auto with quiet_db.
Qed.

Lemma quiet_autoFlush r d : quiet (autoFlush r d).
Proof. intros w. apply quiet_autoFlush_go. Qed.

Lemma quiet_inject_err r op e : quiet (inject_err r op e).
Proof. unfold inject_err. quiet_auto. Qed.
#[local] Hint Resolve quiet_where quiet_orderBy quiet_limit quiet_startAfter
  quiet_autoFlush quiet_inject_err : quiet_db.


(** ** Snapshot deliveries along a run *)

Lemma deliveries_app sid (t1 t2 : list output) :
  deliveries sid (t1 ++ t2) = deliveries sid t1 ++ deliveries sid t2.
Proof.
  induction t1 as [|o t1 IH]; cbn; [done|].
  destruct o as [| |k pos [res prev|e]|]; try destruct (Nat.eqb k sid); cbn; by rewrite IH.
Qed.

Lemma deliveries_no_snap sid o : no_snap o = true -> deliveries sid [o] = [].
Proof. destruct o as [| |k pos [res prev|e]|]; cbn; done. Qed.

Lemma find_sub_id sid l s : find_sub sid l = Some s -> s_id s = sid.
Proof.
  induction l as [|s' l IH]; cbn; [done|].
  destruct (Nat.eqb_spec (s_id s') sid); [by intros [= <-]|exact IH].
Qed.

Lemma find_sub_app sid l1 l2 :
  find_sub sid (l1 ++ l2) =
    match find_sub sid l1 with Some s => Some s | None => find_sub sid l2 end.
Proof.
  induction l1 as [|s l1 IH]; cbn; [done|]. by destruct (Nat.eqb (s_id s) sid).
Qed.

Lemma find_sub_map (f : subscription -> subscription) sid l :
  (forall s, s_id (f s) = s_id s) ->
  find_sub sid (map f l) = option_map f (find_sub sid l).
Proof.
  intros Hf. induction l as [|s l IH]; cbn; [done|]. rewrite Hf.
  by destruct (Nat.eqb (s_id s) sid).
Qed.

Lemma changes_only_snoc (l : list jsobj) y :
  changes_only l = true -> (forall x, last l = Some x -> isEqual_obj y x = false) ->
  changes_only (l ++ [y]) = true.
Proof.
  induction l as [|x l IH]; intros Hc Hl; [done|].
  destruct l as [|x' l].
  - cbn [app changes_only]. by rewrite (Hl x eq_refl).
  - cbn [app changes_only] in Hc |- *. apply andb_prop in Hc as [H1 H2]. rewrite H1. cbn [andb].
    apply IH; [done|]. intros z Hz. apply Hl. exact Hz.
Qed.

Lemma snap_inv_frame w w' : frame w' = frame w -> snap_inv w -> snap_inv w'.
Proof. unfold frame, snap_inv. intros [= -> -> ->]. done. Qed.

Lemma quiet_snap_inv {A} (m : M A) : quiet m -> preserves snap_inv m.
Proof. intros Hq w Hw. apply (snap_inv_frame w); [apply Hq|exact Hw]. Qed.

Lemma snap_inv_emit o : no_snap o = true -> preserves snap_inv (emit o).
Proof.
  intros Ho w [H1 H2]. unfold emit, modifyM, snap_inv. cbn [snd trace subs next_sub]. split.
  - intros sid Hs. rewrite deliveries_app, deliveries_no_snap by done.
    rewrite app_nil_r. by apply H1.
  - intros sid s Hf Hm. rewrite deliveries_app, deliveries_no_snap by done.
    rewrite app_nil_r. by apply H2.
Qed.

(** Registering a new subscription [s] with its first callback [o]. *)
Lemma snap_inv_register w o s :
  snap_inv w -> s_id s = next_sub w ->
  match o with
  | OCall k _ (PSnap res _) => k = s_id s /\ (s_meta s = false -> res = s_context s)
  | _ => True
  end ->
  snap_inv (mkWorld (heap w) (next_ref w) (next_queue w) (queues w) (subs w ++ [s])
                    (S (next_sub w)) (next_promise w) (warnings w) (trace w ++ [o])).
Proof.
  intros [H1 H2] Hid Ho.
  assert (Hdo : forall sid, sid <> s_id s -> deliveries sid [o] = []).
  { intros sid Hne. destruct o as [| |k pos [res prev|e]|]; cbn; try done.
    destruct Ho as [-> _]. by destruct (Nat.eqb_spec (s_id s) sid). }
  unfold snap_inv. split; cbn [trace subs next_sub].
  - intros sid Hs. rewrite deliveries_app, Hdo by lia. rewrite app_nil_r.
    destruct (H1 sid) as [Hd Hf]; [lia|]. split; [done|].
    rewrite find_sub_app, Hf. cbn. destruct (Nat.eqb_spec (s_id s) sid); [lia|done].
  - intros sid s' Hf Hm. rewrite deliveries_app. rewrite find_sub_app in Hf.
    destruct (find_sub sid (subs w)) as [s0|] eqn:Hf0.
    + injection Hf as <-.
      assert (Hlt : (sid < next_sub w)%nat).
      { destruct (Nat.lt_ge_cases sid (next_sub w)) as [?|Hge]; [done|].
        destruct (H1 sid Hge) as [_ Hn]. congruence. }
      rewrite Hdo by lia. rewrite app_nil_r. by apply H2.
    + cbn [find_sub] in Hf. destruct (Nat.eqb_spec (s_id s) sid) as [Heq|]; [|done].
      injection Hf as <-. destruct (H1 sid) as [Hd _]; [lia|]. rewrite Hd. cbn.
      destruct o as [| |k pos [res prev|e]|]; cbn; try (split; [done|by left]).
      destruct Ho as [-> Hres]. rewrite Heq, Nat.eqb_refl. rewrite (Hres Hm).
      split; [done|by right].
Qed.

Lemma snap_inv_snapshot_then sid : preserves snap_inv (snapshot_then sid).
Proof.
  intros w Hw. unfold snapshot_then.
  destruct (find_sub sid (subs w)) as [s|] eqn:Hf; [|exact Hw].
  unfold bindM at 1, get_node at 1.
  destruct (heap w !! s_ref s) as [n|] eqn:Hn; cbv beta iota zeta; [|exact Hw].
  destruct (negb (isEqual_obj (_results n) (s_context s)) || s_meta s) eqn:Hc; [|exact Hw].
  cbv beta iota zeta delta [bindM emit modifyM set_context set_subs].
  cbn [snd trace subs next_sub].
  destruct Hw as [H1 H2]. pose proof (find_sub_id _ _ _ Hf) as Hid.
  assert (Hlt : (sid < next_sub w)%nat).
  { destruct (Nat.lt_ge_cases sid (next_sub w)) as [?|Hge]; [done|].
    destruct (H1 sid Hge) as [_ Hn']. congruence. }
  assert (Hdo : forall sid', sid' <> sid ->
            deliveries sid' [OCall sid (s_next_pos s) (PSnap (_results n) (s_context s))] = []).
  { intros sid' Hne. cbn. by destruct (Nat.eqb_spec sid sid'). }
  unfold snap_inv. cbn [trace subs next_sub].
  split; intros sid'; rewrite find_sub_map
    by (intros s0; by destruct (Nat.eqb (s_id s0) sid)).
  - intros Hs. rewrite deliveries_app, Hdo by lia. rewrite app_nil_r.
    destruct (H1 sid' Hs) as [Hd Hn']. rewrite Hn'. done.
  - intros s' Hf' Hm.
    destruct (find_sub sid' (subs w)) as [s0|] eqn:Hf0; [|done].
    cbn in Hf'. injection Hf' as Hs'. pose proof (find_sub_id _ _ _ Hf0) as Hid0.
    rewrite deliveries_app. destruct (Nat.eqb_spec sid' sid) as [->|Hne].
    + rewrite Hf in Hf0. injection Hf0 as <-.
      rewrite Hid, Nat.eqb_refl in Hs'. subst s'. cbn [s_meta s_context] in Hm |- *.
      rewrite Hm, orb_false_r in Hc. apply negb_true_iff in Hc.
      destruct (H2 sid s Hf Hm) as [Hco Hlast].
      cbn [deliveries]. rewrite Nat.eqb_refl. split.
      * apply changes_only_snoc; [done|]. intros x Hx.
        destruct Hlast as [Hnil|Hl]; [by rewrite Hnil in Hx|]. congruence.
      * right. apply last_snoc.
    + rewrite Hid0, (proj2 (Nat.eqb_neq _ _) Hne) in Hs'. subst s'.
      rewrite Hdo by done. rewrite app_nil_r. by apply H2.
Qed.

Lemma snap_inv_map_subs (g : subscription -> subscription) w :
  (forall s, s_id (g s) = s_id s /\ s_meta (g s) = s_meta s /\ s_context (g s) = s_context s) ->
  snap_inv w -> snap_inv (set_subs w (map g (subs w))).
Proof.
  intros Hg [H1 H2]. unfold snap_inv, set_subs. cbn [trace subs next_sub].
  split; intros sid; rewrite find_sub_map by apply Hg.
  - intros Hs. destruct (H1 sid Hs) as [Hd Hn]. by rewrite Hn.
  - intros s' Hf Hm. destruct (find_sub sid (subs w)) as [s0|] eqn:Hf0; [|done].
    cbn in Hf. injection Hf as <-. destruct (Hg s0) as (_ & Hm0 & Hc0).
    rewrite Hc0. apply H2; [done|congruence].
Qed.

Lemma snap_inv_unsubscribe sid : preserves snap_inv (unsubscribe sid).
Proof.
  intros w Hw. apply snap_inv_map_subs; [|done].
  intros s. by destruct (Nat.eqb (s_id s) sid).
Qed.

Lemma snap_inv_run_event ev : preserves snap_inv (run_event ev).
Proof.
  unfold run_event. apply preserves_bind; [apply quiet_snap_inv, quiet_get_node|intros n].
  cbv zeta. destruct (ev_kind_of ev), (ev_err ev);
    try (apply preserves_bind; [apply snap_inv_emit; reflexivity|intros]);
    apply preserves_ret.
Qed.

Lemma snap_inv_collect evs : preserves snap_inv (collectM run_event evs).
Proof.
  induction evs as [|ev evs IH]; cbn [collectM]; [apply preserves_ret|].
  apply preserves_bind; [apply snap_inv_run_event|intros].
  apply preserves_bind; [exact IH|intros]. apply preserves_ret.
Qed.

Lemma snap_inv_seqM {A} (f : A -> M unit) (l : list A) :
  (forall x, preserves snap_inv (f x)) -> preserves snap_inv (seqM f l).
Proof.
  intros Hf. induction l as [|x l IH]; cbn [seqM]; [apply preserves_ret|].
  apply preserves_bind; [apply Hf|intros; exact IH].
Qed.

Lemma snap_inv_post_flush s : preserves snap_inv (post_flush s).
Proof.
  unfold post_flush. destruct (s_err s).
  - by apply snap_inv_emit.
  - apply quiet_snap_inv. unfold get_with, _defer. quiet_auto.
Qed.

Lemma snap_inv_flush r : preserves snap_inv (flush r).
Proof.
  unfold flush. apply preserves_bind; [apply quiet_snap_inv, quiet_get_node|intros n].
  cbv zeta. apply preserves_bind; [apply quiet_snap_inv; by intros w|intros evs].
  apply preserves_bind; [apply snap_inv_collect|intros due].
  apply preserves_bind; [apply quiet_snap_inv; by intros w|intros hs].
  apply preserves_bind; [apply snap_inv_seqM, snap_inv_post_flush|intros].
  apply snap_inv_seqM, snap_inv_snapshot_then.
Qed.

Lemma snap_inv_onSnapshot r a1 : preserves snap_inv (onSnapshot r a1).
Proof.
  unfold onSnapshot.
  apply preserves_bind; [apply quiet_snap_inv, quiet_nextErr|intros err].
  apply preserves_bind; [apply quiet_snap_inv, quiet_get_node|intros n].
  intros w Hw.
  destruct err as [e|]; destruct a1 as [|[|]];
    cbv beta iota zeta delta [bindM call_arg emit modifyM retM throwM];
    cbn [snd heap next_ref next_queue queues subs next_sub next_promise warnings trace];
    try exact Hw;
    (eapply snap_inv_register; [exact Hw|reflexivity|cbn; try tauto]).
  all: split; [reflexivity|done].
Qed.

Lemma snap_inv_action a : preserves snap_inv (action_m a).
Proof.
  destruct a; cbn [action_m];
    try (apply preserves_bind; [|intros; apply preserves_ret]).
  all: try (apply quiet_snap_inv; solve [auto with quiet_db]).
  - apply snap_inv_onSnapshot.
  - apply snap_inv_unsubscribe.
  - apply snap_inv_flush.
Qed.

Lemma snap_inv_step w a : snap_inv w -> snap_inv (step w a).
Proof.
  intros Hw. pose proof (snap_inv_action a w Hw) as Ha. unfold step.
  destruct (action_m a w) as [[u|msg] w'] eqn:E; cbn [snd] in Ha; [exact Ha|].
  apply (snap_inv_emit (OThrown msg) eq_refl w' Ha).
Qed.

Lemma snap_inv_run w acts : snap_inv w -> snap_inv (run w acts).
Proof.
  unfold run. revert w. induction acts as [|a acts IH]; intros w Hw; cbn [fold_left];
    [exact Hw|]. apply IH, snap_inv_step, Hw.
Qed.

Section SubMeta.
Variables (sid : nat) (b : bool).

Lemma quiet_sub_meta {A} (m : M A) : quiet m -> preserves (sub_meta sid b) m.
Proof.
  intros Hq w Hw. specialize (Hq w). unfold frame in Hq. injection Hq as _ Hs _.
  unfold sub_meta. by rewrite Hs.
Qed.

Lemma sub_meta_map (g : subscription -> subscription) w w' :
  (forall s, s_id (g s) = s_id s /\ s_meta (g s) = s_meta s) ->
  subs w' = map g (subs w) -> sub_meta sid b w -> sub_meta sid b w'.
Proof.
  intros Hg Hs (s & Hf & Hm). exists (g s). rewrite Hs, find_sub_map by apply Hg.
  rewrite Hf. split; [done|]. by rewrite (proj2 (Hg s)).
Qed.

Lemma sub_meta_app w w' l :
  subs w' = subs w ++ l -> sub_meta sid b w -> sub_meta sid b w'.
Proof.
  intros Hs (s & Hf & Hm). exists s. by rewrite Hs, find_sub_app, Hf.
Qed.

Lemma sub_meta_emit o : preserves (sub_meta sid b) (emit o).
Proof. intros w Hw. exact Hw. Qed.

Lemma sub_meta_snapshot_then x : preserves (sub_meta sid b) (snapshot_then x).
Proof.
  intros w Hw. unfold snapshot_then.
  destruct (find_sub x (subs w)) as [s|]; [|exact Hw].
  unfold bindM at 1, get_node at 1.
  destruct (heap w !! s_ref s) as [n|]; cbv beta iota zeta; [|exact Hw].
  destruct (negb (isEqual_obj (_results n) (s_context s)) || s_meta s); [|exact Hw].
  cbv beta iota zeta delta [bindM emit modifyM set_context set_subs].
  cbn [snd]. eapply (sub_meta_map _ w); [|reflexivity|exact Hw].
  intros s0. cbv beta. by destruct (Nat.eqb (s_id s0) x).
Qed.

Lemma sub_meta_unsubscribe x : preserves (sub_meta sid b) (unsubscribe x).
Proof.
  intros w Hw. eapply (sub_meta_map _ w); [|reflexivity|exact Hw].
  intros s0. cbv beta. by destruct (Nat.eqb (s_id s0) x).
Qed.

Lemma sub_meta_onSnapshot r a1 : preserves (sub_meta sid b) (onSnapshot r a1).
Proof.
  unfold onSnapshot.
  apply preserves_bind; [apply quiet_sub_meta, quiet_nextErr|intros err].
  apply preserves_bind; [apply quiet_sub_meta, quiet_get_node|intros n].
  intros w Hw.
  destruct err as [e|]; destruct a1 as [|[|]];
    cbv beta iota zeta delta [bindM call_arg emit modifyM retM throwM];
    cbn [snd heap next_ref next_queue queues subs next_sub next_promise warnings trace];
    try exact Hw; (eapply (sub_meta_app w); [reflexivity|exact Hw]).
Qed.

Lemma sub_meta_run_event ev : preserves (sub_meta sid b) (run_event ev).
Proof.
  unfold run_event. apply preserves_bind; [apply quiet_sub_meta, quiet_get_node|intros n].
  cbv zeta. destruct (ev_kind_of ev), (ev_err ev);
    try (apply preserves_bind; [apply sub_meta_emit|intros]);
    apply preserves_ret.
Qed.

Lemma sub_meta_collect evs : preserves (sub_meta sid b) (collectM run_event evs).
Proof.
  induction evs as [|ev evs IH]; cbn [collectM]; [apply preserves_ret|].
  apply preserves_bind; [apply sub_meta_run_event|intros].
  apply preserves_bind; [exact IH|intros]. apply preserves_ret.
Qed.

Lemma sub_meta_seqM {A} (f : A -> M unit) (l : list A) :
  (forall x, preserves (sub_meta sid b) (f x)) -> preserves (sub_meta sid b) (seqM f l).
Proof.
  intros Hf. induction l as [|x l IH]; cbn [seqM]; [apply preserves_ret|].
  apply preserves_bind; [apply Hf|intros; exact IH].
Qed.

Lemma sub_meta_post_flush s : preserves (sub_meta sid b) (post_flush s).
Proof.
  unfold post_flush. destruct (s_err s).
  - apply sub_meta_emit.
  - apply quiet_sub_meta. unfold get_with, _defer. quiet_auto.
Qed.

Lemma sub_meta_flush r : preserves (sub_meta sid b) (flush r).
Proof.
  unfold flush. apply preserves_bind; [apply quiet_sub_meta, quiet_get_node|intros n].
  cbv zeta. apply preserves_bind; [apply quiet_sub_meta; by intros w|intros evs].
  apply preserves_bind; [apply sub_meta_collect|intros due].
  apply preserves_bind; [apply quiet_sub_meta; by intros w|intros hs].
  apply preserves_bind; [apply sub_meta_seqM, sub_meta_post_flush|intros].
  apply sub_meta_seqM, sub_meta_snapshot_then.
Qed.

Lemma sub_meta_action a : preserves (sub_meta sid b) (action_m a).
Proof.
  destruct a; cbn [action_m];
    try (apply preserves_bind; [|intros; apply preserves_ret]).
  all: try (apply quiet_sub_meta; solve [auto with quiet_db]).
  - apply sub_meta_onSnapshot.
  - apply sub_meta_unsubscribe.
  - apply sub_meta_flush.
Qed.

Lemma sub_meta_run w acts : sub_meta sid b w -> sub_meta sid b (run w acts).
Proof.
  unfold run. revert w. induction acts as [|a acts IH]; intros w Hw; cbn [fold_left];
    [exact Hw|]. apply IH. pose proof (sub_meta_action a w Hw) as Ha. unfold step.
  destruct (action_m a w) as [[u|msg] w'] eqn:E; exact Ha.
Qed.

End SubMeta.

Lemma snd_bind_ret {A B} (m : M A) (x : B) w : snd ((m ;;; retM x) w) = snd (m w).
Proof. unfold bindM. by destruct (m w) as [[]]. Qed.

Lemma quiet_callbacks {A} (m : M A) w :
  quiet m -> (next_sub w <= next_sub (snd (m w)))%nat /\
  forall sid, (sid < next_sub w)%nat ->
    callbacks_of sid (trace (snd (m w))) = callbacks_of sid (trace w).
Proof.
  intros Hq. specialize (Hq w). unfold frame in Hq. injection Hq as Ht _ Hn.
  rewrite Ht, Hn. split; [done|]. by intros.
Qed.

Lemma onSnapshot_trace r a1 w :
  (next_sub w <= next_sub (snd (onSnapshot r a1 w)))%nat /\
  (trace (snd (onSnapshot r a1 w)) = trace w \/
   exists pos p, trace (snd (onSnapshot r a1 w)) = trace w ++ [OCall (next_sub w) pos p]).
Proof.
  destruct (onSnapshot r a1 w) as [o w'] eqn:E. cbn [snd].
  unfold onSnapshot, bindM at 1 in E.
  pose proof (quiet_nextErr r "onSnapshot" w) as Q.
  destruct (_nextErr r "onSnapshot" w) as [[err|m] w1]; unfold frame in Q;
    cbn [snd] in Q; injection Q as Ht _ Hn;
    [|injection E as _ <-; rewrite Ht, Hn; split; [done|by left]].
  unfold bindM at 1, get_node at 1 in E.
  destruct (heap w1 !! r) as [n|]; cbv beta iota zeta in E;
    [|injection E as _ <-; rewrite Ht, Hn; split; [done|by left]].
  destruct err as [e|]; destruct a1 as [|[|]];
    cbv beta iota zeta delta [bindM call_arg emit modifyM retM throwM] in E;
    injection E as _ <-; cbn [trace next_sub]; rewrite ?Ht, ?Hn; (split; [lia|]);
    first [by left | right; eauto].
Qed.

Lemma step_nonflush w a :
  (forall r', a <> AFlush r') ->
  (next_sub w <= next_sub (step w a))%nat /\
  forall sid, (sid < next_sub w)%nat ->
    callbacks_of sid (trace (step w a)) = callbacks_of sid (trace w).
Proof.
  intros Ha.
  assert (H : (next_sub w <= next_sub (snd (action_m a w)))%nat /\
    forall sid, (sid < next_sub w)%nat ->
      callbacks_of sid (trace (snd (action_m a w))) = callbacks_of sid (trace w)).
  { destruct a as [| | | | | |r a1|x|r| |]; cbn [action_m].
    all: try (exfalso; by eapply Ha).
    all: try solve [apply quiet_callbacks; quiet_auto].
    - rewrite snd_bind_ret. destruct (onSnapshot_trace r a1 w) as [Hn [Ht|(pos & p & Ht)]];
        rewrite Ht; split; [done|done|done|].
      intros sid Hs. unfold callbacks_of. rewrite List.filter_app. cbn.
      replace (Nat.eqb (next_sub w) sid) with false by (symmetry; apply Nat.eqb_neq; lia).
      apply app_nil_r.
    - unfold unsubscribe, modifyM, set_subs. cbn [snd trace next_sub]. by split. }
  unfold step. destruct (action_m a w) as [[u|msg] w'] eqn:E; cbn [snd] in H; [exact H|].
  cbn [trace next_sub]. split; [apply H|]. intros sid Hs.
  unfold callbacks_of. rewrite List.filter_app. cbn. rewrite app_nil_r. by apply H.
Qed.

Lemma run_nonflush w acts sid :
  (sid < next_sub w)%nat -> (forall a, In a acts -> forall r', a <> AFlush r') ->
  callbacks_of sid (trace (run w acts)) = callbacks_of sid (trace w).
Proof.
  unfold run. revert w. induction acts as [|a acts IH]; intros w Hs Ha; cbn [fold_left]; [done|].
  destruct (step_nonflush w a (Ha a (or_introl eq_refl))) as [Hn Hc].
  rewrite IH; [by apply Hc|lia|]. intros a' Ha'. apply Ha. by right.
Qed.

Lemma onSnapshot_step w r n a1 :
  heap w !! r = Some n -> lookup_err "onSnapshot" (errs n) = None -> a1 <> A1Options false ->
  let meta := match a1 with A1Options b => b | A1Callback => false end in
  trace (step w (AOnSnapshot r a1)) =
    trace w ++ [OCall (next_sub w) (if meta then 2%nat else 1%nat) (PSnap (_results n) [])] /\
  subs (step w (AOnSnapshot r a1)) =
    subs w ++ [mkSub (next_sub w) r (queue n) None meta (if meta then 2%nat else 1%nat)
                     (if meta then 3%nat else 2%nat) (_results n) true] /\
  next_sub (step w (AOnSnapshot r a1)) = S (next_sub w).
Proof.
  intros Hr He Ha meta. unfold step, action_m, onSnapshot, _nextErr.
  cbv beta iota zeta delta [bindM get_node put_node modifyM set_heap retM].
  rewrite Hr. cbn [heap]. rewrite lookup_insert_eq. rewrite He.
  subst meta. destruct a1 as [|[|]]; [| |done]; cbn; auto.
Qed.

Lemma snap_inv_init w : subs w = [] -> trace w = [] -> snap_inv w.
Proof.
  intros Hs Ht. unfold snap_inv. rewrite Hs, Ht. split; [by intros|]. by intros.
Qed.

(** ** [extractName] *)

Lemma after_last_slash_none s :
  string_forallb (fun c => negb (Ascii.eqb c "/"%char)) s = true -> after_last_slash s = None.
Proof.
  induction s as [|c s IH]; cbn; [done|]. intros [Hc Hs]%andb_prop.
  rewrite IH by done. by destruct (Ascii.eqb c "/").
Qed.

Lemma after_last_slash_app pre s :
  string_forallb (fun c => negb (Ascii.eqb c "/"%char)) s = true ->
  after_last_slash (pre ++ String "/"%char s) = Some s.
Proof.
  intros Hs. induction pre as [|c pre IH].
  - change (after_last_slash (String "/"%char s) = Some s). cbn [after_last_slash].
    by rewrite after_last_slash_none.
  - change (after_last_slash (String c (pre ++ String "/"%char s)) = Some s).
    cbn [after_last_slash]. by rewrite IH.
Qed.

Lemma after_last_slash_some p s :
  after_last_slash p = Some s -> exists pre : string, p = (pre ++ String "/"%char s)%string.
Proof.
  revert s. induction p as [|c p IH]; intros s; cbn; [discriminate|].
  destruct (after_last_slash p) as [seg|] eqn:E.
  - intros [= <-]. destruct (IH seg eq_refl) as [pre ->]. by exists (String c pre).
  - destruct (Ascii.eqb_spec c "/"%char) as [->|]; [|discriminate].
    intros [= <-]. by exists EmptyString.
Qed.

(** ** [_nextErr] *)

Lemma lookup_err_remove_same t (l : list (string * string)) :
  lookup_err t (remove_key t l) = None.
Proof.
  induction l as [|[k v] l IH]; cbn; [done|].
  destruct (String.eqb_spec t k) as [->|Hne]; [done|]. cbn.
  by rewrite (proj2 (String.eqb_neq t k) Hne).
Qed.


(** ** [where]'s filtering pass, edge cases *)

Lemma where_results_none d p op v :
  (forall k x, where_keep p op v k x = false) -> where_results d p op v = [].
Proof.
  intros Hk. unfold where_results. rewrite where_fold_filter.
  replace (List.filter _ d) with (@nil (string * value)); [done|].
  induction d as [|[k x] d IH]; cbn; [done|]. by rewrite Hk.
Qed.

Lemma existsb_false {A} (l : list A) : existsb (fun _ => false) l = false.
Proof. induction l; cbn; auto. Qed.

(** The keys [where(documentId(), '==', k)] keeps. *)
Lemma where_keep_documentId k key d :
  where_keep DocumentId "==" (VStr k) key d = String.eqb key k.
Proof. reflexivity. Qed.

Lemma filter_key_enum (d : jsobj) k :
  enum_ok d = true ->
  List.filter (fun kv => String.eqb kv.1 k) d =
    match assoc k d with Some v => [(k, v)] | None => [] end.
Proof.
  induction d as [|[k0 v0] d IH]; cbn; [done|]. intros [Hall Hok]%andb_prop.
  destruct (String.eqb_spec k0 k) as [->|Hne].
  - rewrite String.eqb_refl. f_equal.
    assert (Hn : forall kv, In kv d -> kv.1 <> k).
    { intros kv Hin He. rewrite forallb_forall in Hall.
      apply (key_before_neq k kv.1); [by apply Hall|done]. }
    clear IH Hall Hok. induction d as [|[k1 v1] d IHd]; cbn; [done|].
    destruct (String.eqb_spec k1 k) as [->|]; [exfalso; apply (Hn (k, v1)); cbn; auto|].
    apply IHd. intros kv Hin. apply Hn. by right.
  - rewrite (proj2 (String.eqb_neq k k0) (not_eq_sym Hne)). by apply IH.
Qed.

(** ** Membership and length along the evaluation *)

Lemma In_replace_key kv k v (o : jsobj) :
  In kv (replace_key k v o) -> In kv o \/ kv = (k, v).
Proof.
  induction o as [|[k' v'] o IH]; cbn; [tauto|].
  destruct (String.eqb_spec k k') as [->|_]; cbn.
  - intros [<-|H]; [by right|by left; right].
  - intros [<-|H]; [by left; left|]. destruct (IH H); [left; by right|by right].
Qed.

Lemma In_insert_index kv n k v (o : jsobj) :
  In kv (insert_index n k v o) -> In kv o \/ kv = (k, v).
Proof.
  induction o as [|[k' v'] o IH]; cbn; [intros [<-|[]]; by right|].
  destruct (array_index k') as [m|]; [destruct (n <? m)%N|]; cbn.
  - intros [<-|H]; [by right|by left].
  - intros [<-|H]; [by left; left|]. destruct (IH H); [left; by right|by right].
  - intros [<-|H]; [by right|by left].
Qed.

Lemma In_js_set kv (o : jsobj) k v : In kv (js_set o k v) -> In kv o \/ kv = (k, v).
Proof.
  unfold js_set. destruct (assoc k o); [apply In_replace_key|].
  destruct (array_index k); [apply In_insert_index|].
  intros [H|[<-|[]]]%in_app_or; [by left|by right].
Qed.

Lemma In_js_build_from kv (l acc : jsobj) :
  In kv (fold_left (fun o kv => js_set o kv.1 kv.2) l acc) -> In kv acc \/ In kv l.
Proof.
  revert acc. induction l as [|[k v] l IH]; intros acc; cbn; [by left|].
  intros H. destruct (IH _ H) as [H1|H1]; [|by right; right].
  destruct (In_js_set _ _ _ _ H1) as [H2|<-]; [by left|by right; left].
Qed.

Lemma In_passed kv f st (l : jsobj) : In kv (passed f st l) -> In kv l.
Proof.
  revert st. induction l as [|x l IH]; intros st; cbn; [done|].
  destruct (inRange f st x.1) as [[] st']; cbn.
  - intros [<-|H]; [by left|right; eauto].
  - intros H. right. eauto.
Qed.

Lemma length_passed f st (l : jsobj) : (length (passed f st l) <= length l)%nat.
Proof.
  revert st. induction l as [|x l IH]; intros st; cbn; [lia|].
  destruct (inRange f st x.1) as [[] st']; cbn; specialize (IH st'); lia.
Qed.

Lemma In_limit_take kv lim c (l : jsobj) : In kv (limit_take lim c l) -> In kv l.
Proof.
  unfold limit_take. destruct (lim <=? 0); [done|]. intros H.
  rewrite <- (firstn_skipn (Z.to_nat (lim - c)) l). apply in_or_app. by left.
Qed.

Lemma length_limit_take lim c (l : jsobj) : (length (limit_take lim c l) <= length l)%nat.
Proof. unfold limit_take. destruct (lim <=? 0); [done|]. rewrite List.length_firstn. lia. Qed.

Lemma insert_by_perm cmp x (l : list sort_entry) : insert_by cmp x l ≡ₚ x :: l.
Proof.
  induction l as [|y l IH]; cbn; [done|].
  destruct (cmp x y <? 0); [done|]. rewrite IH. apply perm_swap.
Qed.

Lemma sort_by_from_perm cmp (l acc : list sort_entry) :
  fold_left (fun acc x => insert_by cmp x acc) l acc ≡ₚ l ++ acc.
Proof.
  revert acc. induction l as [|x l IH]; intros acc; cbn; [done|].
  rewrite IH, insert_by_perm. by rewrite Permutation_middle.
Qed.

Lemma entries_values (iteratees : list string) i (l : jsobj) :
  map se_value (map (fun '(i, (k, d)) =>
        mkEntry (map (lodash_get (queryable k d)) iteratees) i (k, d)) (index_from i l)) = l.
Proof.
  revert i. induction l as [|[k d] l IH]; intros i; cbn; [done|]. by rewrite IH.
Qed.

Lemma lodash_orderBy_perm (l : jsobj) iteratees orders :
  lodash_orderBy l iteratees orders ≡ₚ l.
Proof.
  unfold lodash_orderBy, sort_by.
  rewrite <- (entries_values iteratees 0 l) at 2.
  apply Permutation_map. rewrite sort_by_from_perm. by rewrite app_nil_r.
Qed.

Lemma traversal_perm (n : node) : traversal n ≡ₚ data n.
Proof. unfold traversal. destruct (orderedProperties n); [done|]. apply lodash_orderBy_perm. Qed.

(* ================================================================== *)
(** * Builders, evaluation and [autoFlush]: further lemmas *)

Lemma wf_update w w' q m m' :
  world_wf w -> heap w !! q = Some m -> heap w' = <[q := m']> (heap w) ->
  next_ref w' = next_ref w -> next_queue w' = next_queue w -> queues w' = queues w ->
  queue m' = queue m -> children m' = children m -> parent m' = parent m -> world_wf w'.
Proof.
  intros (Hf & Hq & Hqs & Hl) Hm Hh Hr Hn Hqq Hq' Hc Hp.
  unfold world_wf. rewrite Hh, Hr, Hn, Hqq. split; [|split; [|split]].
  - intros k Hk. destruct (decide (q = k)) as [->|Hne].
    + rewrite Hf in Hm; [discriminate|lia].
    + rewrite lookup_insert_ne by done. by apply Hf.
  - intros k x Hx. destruct (decide (q = k)) as [->|Hne].
    + rewrite lookup_insert_eq in Hx. injection Hx as <-. rewrite Hq'. by apply (Hq k m).
    + rewrite lookup_insert_ne in Hx by done. by apply (Hq k x).
  - intros q0 evs Hevs. apply Forall_is_Some_insert. by apply (Hqs q0).
  - intros k x Hx. destruct (decide (q = k)) as [->|Hne].
    + rewrite lookup_insert_eq in Hx. injection Hx as <-. rewrite Hc, Hp. by apply (Hl k m).
    + rewrite lookup_insert_ne in Hx by done. by apply (Hl k x).
Qed.

Lemma wf_clone r w q w1 : world_wf w -> clone r w = (Ok q, w1) -> world_wf w1.
Proof.
  intros Hwf Hc. destruct (clone_spec r w q w1 Hc) as (n & Hr & Hq & Hw). subst q.
  destruct Hwf as (Hf & Hqn & Hqs & Hl).
  assert (Hpar : forall p, parent n = Some p -> (p < next_ref w)%nat) by (apply (Hl r n Hr)).
  assert (Gen : forall cn nq, w1 = alloc_world w (<[next_ref w := cn]> (heap w)) nq ->
     (next_queue w <= nq)%nat -> (queue cn < nq)%nat -> children cn = [] ->
     parent cn = parent n -> world_wf w1).
  { intros cn nq -> Hnq Hcq Hcc Hcp. unfold world_wf, alloc_world; cbn.
    split; [|split; [|split]].
    - intros k Hk. rewrite lookup_insert_ne by lia. apply Hf. lia.
    - intros k x Hx. destruct (decide (next_ref w = k)) as [<-|Hne].
      + rewrite lookup_insert_eq in Hx. by injection Hx as <-.
      + rewrite lookup_insert_ne in Hx by done. specialize (Hqn k x Hx). lia.
    - intros q0 evs Hevs. apply Forall_is_Some_insert. by apply (Hqs q0).
    - intros k x Hx. destruct (decide (next_ref w = k)) as [<-|Hne].
      + rewrite lookup_insert_eq in Hx. injection Hx as <-. rewrite Hcc, Hcp.
        split; [constructor|]. intros p Hp. specialize (Hpar p Hp). lia.
      + rewrite lookup_insert_ne in Hx by done. destruct (Hl k x Hx) as [Hc' Hp'].
        split; [eapply Forall_impl; [exact Hc'|]; intros c Hc0; cbn in *; lia|].
        intros p Hp. specialize (Hp' p Hp). lia. }
  destruct (parent n) as [p|] eqn:Hp.
  - destruct Hw as (pn & Hpn & Hw). eapply Gen; [exact Hw | lia | | reflexivity | cbn; by rewrite Hp].
    cbn. apply (Hqn p pn Hpn).
  - eapply Gen; [exact Hw | lia | cbn; lia | reflexivity | cbn; by rewrite Hp].
Qed.

Lemma wf_limit r lim w q w' : world_wf w -> limit r lim w = (Ok q, w') -> world_wf w'.
Proof.
  intros Hwf H. unfold limit in H.
  destruct (clone r w) as [[q1|e] w1] eqn:Hc;
    [|rewrite (bind_Thrown _ _ _ _ _ Hc) in H; discriminate].
  rewrite (bind_Ok _ _ _ _ _ Hc) in H.
  destruct (update_clone_Ok r w q1 w1 (fun n => with_limit n lim) Hwf Hc)
    as (n & cn & Hr & Hcl & Hq & E & Hh & _).
  rewrite E in H. injection H as <- <-.
  eapply (wf_update w1 _ q1 cn);
    [exact (wf_clone r w q1 w1 Hwf Hc) | rewrite Hh; apply lookup_insert_eq | reflexivity ..].
Qed.

Lemma wf_orderBy r p dir w q w' : world_wf w -> orderBy r p dir w = (Ok q, w') -> world_wf w'.
Proof.
  intros Hwf H. unfold orderBy in H.
  destruct (clone r w) as [[q1|e] w1] eqn:Hc;
    [|rewrite (bind_Thrown _ _ _ _ _ Hc) in H; discriminate].
  rewrite (bind_Ok _ _ _ _ _ Hc) in H.
  destruct (clone_Ok r w q1 w1 Hc) as (n & cn & Hr & Hcl & Hcw & _).
  destruct Hcw as (Hq & Hh & _).
  assert (Hl : heap w1 !! q1 = Some cn) by (rewrite Hh; apply lookup_insert_eq).
  unfold bindM, get_node, put_node, modifyM, retM in H. rewrite Hl in H.
  injection H as <- <-.
  eapply (wf_update w1 _ q1 cn); [exact (wf_clone r w q1 w1 Hwf Hc) | exact Hl | reflexivity ..].
Qed.

Lemma wf_startAfter r doc w q w' : world_wf w -> startAfter r doc w = (Ok q, w') -> world_wf w'.
Proof.
  intros Hwf H. destruct doc as [d|].
  - unfold startAfter, bindM at 1, get_node at 1 in H.
    destruct (heap w !! r) as [n0|] eqn:Hr0; [|discriminate].
    destruct (orderedProperties n0) as [|p0 ps] eqn:Ho0; [discriminate|].
    destruct (clone r w) as [[q1|e] w1] eqn:Hc;
      [|rewrite (bind_Thrown _ _ _ _ _ Hc) in H; discriminate].
    rewrite (bind_Ok _ _ _ _ _ Hc) in H.
    destruct (update_clone_Ok r w q1 w1 (fun n => with_finder n (FindAfter d)) Hwf Hc)
      as (n & cn & Hr & Hcl & Hq & E & Hh & _).
    rewrite E in H. injection H as <- <-.
    eapply (wf_update w1 _ q1 cn);
      [exact (wf_clone r w q1 w1 Hwf Hc) | rewrite Hh; apply lookup_insert_eq | reflexivity ..].
  - unfold startAfter, bindM, warn, modifyM, retM in H. injection H as <- <-. exact Hwf.
Qed.

Lemma wf_where r p op v w q w' : world_wf w -> where_ r p op v w = (Ok q, w') -> world_wf w'.
Proof.
  intros Hwf H. unfold where_ in H.
  destruct (clone r w) as [[q1|e] w1] eqn:Hc;
    [|rewrite (bind_Thrown _ _ _ _ _ Hc) in H; discriminate].
  rewrite (bind_Ok _ _ _ _ _ Hc) in H.
  pose proof (wf_clone r w q1 w1 Hwf Hc) as Hwf1.
  destruct (clone_Ok r w q1 w1 Hc) as (n & cn & Hr & Hcl & Hcw & _).
  destruct Hcw as (Hq & Hh & _).
  pose proof (wf_receiver_ne w r n Hwf Hr) as Hne.
  unfold bindM at 1, get_node at 1 in H. rewrite Hh in H.
  rewrite lookup_insert_ne in H by congruence. rewrite Hr in H.
  assert (Hl : heap w1 !! q1 = Some cn) by (rewrite Hh; apply lookup_insert_eq).
  destruct (supported_op op) eqn:Hop; cbn [negb] in H.
  - assert (Hd : forall d, _setData q1 d w1 =
              (Ok tt, set_heap w1 (<[q1 := with_data cn d]> (heap w1)))).
    { intros d. unfold _setData, bindM, get_node, put_node, modifyM.
      rewrite Hl. unfold cleanFirestoreData, cloneDeep. by rewrite copy_data. }
    destruct (Nat.eqb (length (data n)) 0); cbn [negb] in H;
      unfold bindM at 1 in H; rewrite Hd in H; unfold retM in H; injection H as <- <-;
      (eapply (wf_update w1 _ q1 cn); [exact Hwf1 | exact Hl | reflexivity ..]).
  - unfold bindM, warn, modifyM, retM in H. injection H as <- <-. exact Hwf1.
Qed.

Lemma results_ext (n m : node) :
  data m = data n -> orderedProperties m = orderedProperties n ->
  orderedDirections m = orderedDirections n -> limited m = limited n ->
  buildStartFinder m = buildStartFinder n -> _results m = _results n.
Proof. intros Hd Ho Hdi Hl Hf. unfold _results, traversal. by rewrite Hd, Ho, Hdi, Hl, Hf. Qed.

Lemma clone_succeeds w r n :
  heap w !! r = Some n -> (forall p, parent n = Some p -> is_Some (heap w !! p)) ->
  exists q w1, clone r w = (Ok q, w1).
Proof.
  intros Hr Hp. destruct (clone r w) as [[q|e] w1] eqn:Hc; [eauto|].
  destruct (clone_Thrown r w e w1 n Hc Hr) as (p & Hpp & Hn).
  destruct (Hp p Hpp) as [x Hx]. congruence.
Qed.

Lemma limit_from_clone r lim w q w1 :
  world_wf w -> clone r w = (Ok q, w1) -> exists w', limit r lim w = (Ok q, w').
Proof.
  intros Hwf Hc. unfold limit. rewrite (bind_Ok _ _ _ _ _ Hc).
  destruct (update_clone_Ok r w q w1 (fun n => with_limit n lim) Hwf Hc)
    as (n & cn & _ & _ & _ & E & _).
  eexists. exact E.
Qed.

Lemma orderBy_from_clone r p dir w q w1 :
  clone r w = (Ok q, w1) -> exists w', orderBy r p dir w = (Ok q, w').
Proof.
  intros Hc. unfold orderBy. rewrite (bind_Ok _ _ _ _ _ Hc).
  destruct (clone_Ok r w q w1 Hc) as (n & cn & _ & _ & Hcw & _).
  destruct Hcw as (Hq & Hh & _).
  unfold bindM, get_node, put_node, modifyM, retM. rewrite Hh, lookup_insert_eq.
  eexists. reflexivity.
Qed.

Lemma limit_clone r lim w q w' :
  world_wf w -> limit r lim w = (Ok q, w') -> exists w1, clone r w = (Ok q, w1).
Proof.
  intros Hwf H. unfold limit in H.
  destruct (clone r w) as [[q1|e] w1] eqn:Hc;
    [|rewrite (bind_Thrown _ _ _ _ _ Hc) in H; discriminate].
  rewrite (bind_Ok _ _ _ _ _ Hc) in H.
  destruct (update_clone_Ok r w q1 w1 (fun n => with_limit n lim) Hwf Hc)
    as (n & cn & _ & _ & _ & E & _).
  rewrite E in H. injection H as <- _. eauto.
Qed.

Lemma orderBy_clone r p dir w q w' :
  orderBy r p dir w = (Ok q, w') -> exists w1, clone r w = (Ok q, w1).
Proof.
  intros H. unfold orderBy in H.
  destruct (clone r w) as [[q1|e] w1] eqn:Hc;
    [|rewrite (bind_Thrown _ _ _ _ _ Hc) in H; discriminate].
  rewrite (bind_Ok _ _ _ _ _ Hc) in H.
  destruct (clone_Ok r w q1 w1 Hc) as (n & cn & _ & _ & Hcw & _).
  destruct Hcw as (Hq & Hh & _).
  unfold bindM, get_node, put_node, modifyM, retM in H. rewrite Hh, lookup_insert_eq in H.
  injection H as <- _. eauto.
Qed.

Lemma clone_parent_exists r w q w1 n :
  clone r w = (Ok q, w1) -> heap w !! r = Some n ->
  forall p, parent n = Some p -> is_Some (heap w !! p).
Proof.
  intros Hc Hr p Hp. destruct (clone_spec r w q w1 Hc) as (n' & Hr' & _ & Hw).
  rewrite Hr in Hr'. injection Hr' as <-. rewrite Hp in Hw.
  destruct Hw as (pn & Hpn & _). by eexists.
Qed.

Lemma where_clone r p op v w q w' :
  world_wf w -> where_ r p op v w = (Ok q, w') -> exists w1, clone r w = (Ok q, w1).
Proof.
  intros Hwf H. pose proof H as H'. unfold where_ in H'.
  destruct (clone r w) as [[q1|e] w1] eqn:Hc;
    [|rewrite (bind_Thrown _ _ _ _ _ Hc) in H'; discriminate].
  destruct (clone_spec r w q1 w1 Hc) as (_ & _ & Hq1 & _).
  destruct (where_spec r p op v w q w' Hwf H) as (_ & _ & _ & _ & Hq & _).
  exists w1. congruence.
Qed.

Lemma where_from_clone r p op v w q w1 :
  world_wf w -> clone r w = (Ok q, w1) -> exists w', where_ r p op v w = (Ok q, w').
Proof.
  intros Hwf Hc. destruct (clone_spec r w q w1 Hc) as (n & Hr & _).
  destruct (where_Ok w r n p op v Hwf Hr (clone_parent_exists r w q w1 n Hc Hr))
    as (q' & w' & H).
  destruct (where_clone r p op v w q' w' Hwf H) as (w1' & Hc').
  rewrite Hc in Hc'. injection Hc' as <- _. eauto.
Qed.

Lemma where_node w r p op v q w' :
  world_wf w -> where_ r p op v w = (Ok q, w') ->
  exists n nq, heap w !! r = Some n /\ q = next_ref w /\ heap w' = <[q := nq]> (heap w) /\
    orderedProperties nq = orderedProperties n /\ orderedDirections nq = orderedDirections n /\
    limited nq = limited n /\ buildStartFinder nq = buildStartFinder n /\
    parent nq = parent n /\ errs nq = [] /\ children nq = [] /\
    data nq = (if supported_op op
               then (if Nat.eqb (length (data n)) 0 then [] else where_results (data n) p op v)
               else data n).
Proof.
  intros Hwf H. destruct (where_spec r p op v w q w' Hwf H) as (n & cn & Hr & Hcl & Hq & Hh & _).
  destruct Hcl as (Hd & Ho & Hdi & Hl & Hf & Hp & Hc & He).
  exists n, (if supported_op op
             then with_data cn (if Nat.eqb (length (data n)) 0 then [] else where_results (data n) p op v)
             else cn).
  do 3 (split; [done|]).
  destruct (supported_op op); cbn; auto 20.
Qed.

Lemma filter_true {A} (l : list A) : List.filter (fun _ => true) l = l.
Proof. induction l as [|x l IH]; cbn; [done|]. by rewrite IH. Qed.

Lemma where_data_filter d p op v :
  enum_ok d = true ->
  (if supported_op op
   then (if Nat.eqb (length d) 0 then [] else where_results d p op v) else d) =
  List.filter (fun kv => where_keep p op v kv.1 kv.2) d.
Proof.
  intros Hok. destruct (supported_op op) eqn:Hop.
  - destruct (Nat.eqb_spec (length d) 0) as [H0|H0].
    + apply length_zero_iff_nil in H0. by subst d.
    + by apply where_results_filter.
  - unfold supported_op in Hop. apply orb_false_iff in Hop as [Hop H3].
    apply orb_false_iff in Hop as [H1 H2].
    unfold where_keep. rewrite H1, H2, H3. by rewrite filter_true.
Qed.

(** limit(a).limit(b) *)

Lemma startAfter_clone r d w q w' :
  world_wf w -> startAfter r (DocSnapshot d) w = (Ok q, w') ->
  exists w1, clone r w = (Ok q, w1).
Proof.
  intros Hwf H. pose proof H as H'. unfold startAfter, bindM at 1, get_node at 1 in H'.
  destruct (heap w !! r) as [n0|] eqn:Hr0; [|discriminate].
  destruct (orderedProperties n0) as [|p0 ps] eqn:Ho0; [discriminate|].
  destruct (clone r w) as [[q1|e] w1] eqn:Hc;
    [|rewrite (bind_Thrown _ _ _ _ _ Hc) in H'; discriminate].
  destruct (clone_spec r w q1 w1 Hc) as (_ & _ & Hq1 & _).
  destruct (startAfter_doc_spec r d w q w' Hwf H) as (_ & _ & _ & _ & _ & Hq & _).
  exists w1. congruence.
Qed.

Lemma startAfter_from_clone r d w n q w1 :
  world_wf w -> heap w !! r = Some n -> orderedProperties n <> [] ->
  clone r w = (Ok q, w1) -> exists w', startAfter r (DocSnapshot d) w = (Ok q, w').
Proof.
  intros Hwf Hr Ho Hc. unfold startAfter, bindM at 1, get_node at 1. rewrite Hr.
  destruct (orderedProperties n) as [|p0 ps]; [done|].
  rewrite (bind_Ok _ _ _ _ _ Hc).
  destruct (update_clone_Ok r w q w1 (fun n => with_finder n (FindAfter d)) Hwf Hc)
    as (n' & cn & _ & _ & _ & E & _).
  eexists. exact E.
Qed.

(** startAfter(d1).startAfter(d2) *)

Lemma filter_filter' {A} (f g : A -> bool) (l : list A) :
  List.filter f (List.filter g l) = List.filter (fun x => g x && f x) l.
Proof.
  induction l as [|x l IH]; cbn; [done|].
  destruct (g x); cbn; [destruct (f x); cbn; by rewrite IH|exact IH].
Qed.

(** where(...).where(...) *)

Lemma get_step w r n :
  heap w !! r = Some n ->
  step w (AGet r) =
    mkWorld (<[r := with_errs n (remove_key "get" (errs n))]> (heap w)) (next_ref w)
            (next_queue w)
            (<[queue n := queue_events w (queue n) ++
                 [mkEvent r (match lookup_err "get" (errs n) with
                             | Some e => if String.eqb e "" then None else Some e
                             | None => None end) (KCaller (next_promise w))]]> (queues w))
            (subs w) (next_sub w) (S (next_promise w)) (warnings w) (trace w).
Proof.
  intros Hr.
  unfold step, action_m, get, get_with, fresh_promise, _nextErr, _defer, queue_push, bindM,
    get_node, put_node, modifyM, set_heap, set_queues, retM; cbn.
  rewrite Hr. cbn. rewrite lookup_insert_eq. reflexivity.
Qed.

Lemma run_event_caller ev w n pid :
  heap w !! ev_ref ev = Some n -> ev_kind_of ev = KCaller pid ->
  run_event ev w =
    (Ok [], add_trace w [match ev_err ev with
                         | None => OResolved pid (_results n)
                         | Some e => ORejected pid e end]).
Proof.
  intros Hn Hk. unfold run_event, bindM, get_node. rewrite Hn, Hk.
  by destruct (ev_err ev).
Qed.

Lemma collect_settles evs w :
  Forall (fun ev => is_Some (heap w !! ev_ref ev)) evs ->
  exists ds t, collectM run_event evs w = (Ok ds, add_trace w t) /\
    forall ev n pid, In ev evs -> heap w !! ev_ref ev = Some n -> ev_kind_of ev = KCaller pid ->
      In (match ev_err ev with
          | None => OResolved pid (_results n)
          | Some e => ORejected pid e end) t.
Proof.
  revert w. induction evs as [|x evs IH]; intros w Hall; cbn [collectM].
  - exists [], []. split; [|intros ? ? ? []].
    unfold retM, add_trace. destruct w; cbn. by rewrite app_nil_r.
  - inversion Hall as [|? ? Hx Hrest]; subst.
    destruct (run_event_ok x w Hx) as (ds1 & t1 & E1). unfold bindM at 1. rewrite E1.
    destruct (IH (add_trace w t1) Hrest) as (ds2 & t2 & E2 & Hin2).
    unfold bindM at 1. rewrite E2. cbn.
    exists (ds1 ++ ds2), (t1 ++ t2). split; [by rewrite add_trace_add|].
    intros ev n pid [->|Hev] Hn Hk.
    + rewrite (run_event_caller ev w n pid Hn Hk) in E1. injection E1 as _ E1.
      apply app_inv_head in E1. subst t1. apply in_or_app. by left; left.
    + apply in_or_app. right. exact (Hin2 ev n pid Hev Hn Hk).
Qed.

Lemma flush_settles r w nr ev n pid :
  heap w !! r = Some nr ->
  Forall (fun e => is_Some (heap w !! ev_ref e)) (queue_events w (queue nr)) ->
  In ev (queue_events w (queue nr)) -> heap w !! ev_ref ev = Some n ->
  ev_kind_of ev = KCaller pid ->
  In (match ev_err ev with
      | None => OResolved pid (_results n)
      | Some e => ORejected pid e end) (trace (snd (flush r w))).
Proof.
  intros Hr Hall Hin Hn Hk. unfold flush, bindM at 1, get_node at 1. rewrite Hr.
  cbv beta iota. unfold bindM at 1.
  set (w3 := set_queues w (<[queue nr := []]> (queues w))).
  destruct (collect_settles (queue_events w (queue nr)) w3 Hall) as (ds & t & E & Hin2).
  unfold bindM at 1. rewrite E.
  set (rest := handlers <-- _ ;; _).
  assert (Hrest : trace_ext rest).
  { unfold rest. apply trace_ext_bind; [apply trace_ext_read|intros].
    apply trace_ext_bind; intros; apply trace_ext_seqM;
      [apply trace_ext_post_flush | intros; apply trace_ext_snapshot_then]. }
  destruct (Hrest (add_trace w3 t)) as [t' Ht']. rewrite Ht'.
  cbn. apply in_or_app. left. apply in_or_app. right. exact (Hin2 ev n pid Hin Hn Hk).
Qed.

Lemma assoc_notin k (o : jsobj) : (forall x, ~ In (k, x) o) -> assoc k o = None.
Proof.
  induction o as [|[k' v'] o IH]; cbn; [done|]. intros Hn.
  destruct (String.eqb_spec k k') as [->|_]; [exfalso; apply (Hn v'); by left|].
  apply IH. intros x Hx. apply (Hn x). by right.
Qed.

Lemma insert_index_perm n k v (o : jsobj) : insert_index n k v o ≡ₚ (k, v) :: o.
Proof.
  induction o as [|[k' v'] o IH]; cbn; [done|].
  destruct (array_index k') as [m|]; [destruct (n <? m)%N|]; [done| |done].
  rewrite IH. apply perm_swap.
Qed.

Lemma js_set_perm (o : jsobj) k v : assoc k o = None -> js_set o k v ≡ₚ o ++ [(k, v)].
Proof.
  intros Hn. unfold js_set. rewrite Hn. destruct (array_index k); [|done].
  rewrite insert_index_perm. apply Permutation_cons_append.
Qed.

Lemma js_build_from_perm (l acc : jsobj) :
  List.NoDup (map fst l) -> (forall kv x, In kv l -> ~ In (kv.1, x) acc) ->
  fold_left (fun o kv => js_set o kv.1 kv.2) l acc ≡ₚ acc ++ l.
Proof.
  revert acc. induction l as [|[k v] l IH]; intros acc Hnd Hfresh; cbn; [by rewrite app_nil_r|].
  inversion Hnd as [|? ? Hk Hnd']; subst.
  assert (Hacc : assoc k acc = None).
  { apply assoc_notin. intros x. exact (Hfresh (k, v) x (or_introl eq_refl)). }
  etransitivity; [apply IH; [exact Hnd'|]|].
  - intros kv x Hin Hx. destruct (In_js_set _ _ _ _ Hx) as [H1|H1].
    + exact (Hfresh kv x (or_intror Hin) H1).
    + injection H1 as H1 _. apply Hk. rewrite <- H1. by apply in_map.
  - rewrite js_set_perm by done. by rewrite <- app_assoc.
Qed.

Lemma js_build_perm (l : jsobj) : List.NoDup (map fst l) -> js_build l ≡ₚ l.
Proof. intros Hnd. unfold js_build. rewrite js_build_from_perm; [done|exact Hnd|intros kv x _ []]. Qed.

Lemma enum_ok_NoDup (l : jsobj) : enum_ok l = true -> List.NoDup (map fst l).
Proof.
  induction l as [|[k v] l IH]; cbn; intros H; [constructor|].
  apply andb_prop in H as [Hall Hok]. constructor; [|by apply IH].
  intros (kv & Hk & Hin)%in_map_iff. rewrite forallb_forall in Hall.
  apply (key_before_neq k kv.1); [by apply Hall|done].
Qed.

Lemma traversal_NoDup (n : node) : enum_ok (data n) = true -> List.NoDup (map fst (traversal n)).
Proof.
  intros Hok. eapply Permutation_NoDup; [|exact (enum_ok_NoDup _ Hok)].
  apply Permutation_map. symmetry. apply traversal_perm.
Qed.

Section SortBy.
Variable cmp : sort_entry -> sort_entry -> Z.
Variable P : sort_entry -> Prop.
Hypothesis cmp_asym : forall x y, P x -> P y -> cmp x y < 0 -> 0 <= cmp y x.

Lemma insert_by_hd y x l :
  0 <= cmp x y -> HdRel (fun a b => 0 <= cmp b a) y l ->
  HdRel (fun a b => 0 <= cmp b a) y (insert_by cmp x l).
Proof.
  intros Hxy Hhd. destruct l as [|z l]; cbn; [by constructor|].
  destruct (cmp x z <? 0); constructor; [done|]. by inversion Hhd.
Qed.

Lemma insert_by_sorted x l :
  P x -> Forall P l -> Sorted (fun a b => 0 <= cmp b a) l ->
  Sorted (fun a b => 0 <= cmp b a) (insert_by cmp x l).
Proof.
  intros Hx. induction l as [|y l IH]; intros Hall Hs; cbn; [by repeat constructor|].
  inversion Hall as [|? ? Hy Hl]; subst. inversion Hs as [|? ? Hs' Hhd]; subst.
  destruct (Z.ltb_spec (cmp x y) 0) as [Hlt|Hge].
  - constructor; [done|]. constructor. by apply cmp_asym.
  - constructor; [by apply IH|]. by apply insert_by_hd.
Qed.

Lemma sort_by_sorted l :
  Forall P l -> Sorted (fun a b => 0 <= cmp b a) (sort_by cmp l).
Proof.
  unfold sort_by. intros Hall.
  assert (Gen : forall acc, Forall P acc -> Sorted (fun a b => 0 <= cmp b a) acc ->
    Sorted (fun a b => 0 <= cmp b a) (fold_left (fun acc x => insert_by cmp x acc) l acc)).
  { induction Hall as [|x l Hx Hl IH]; intros acc Hacc Hs; cbn; [done|].
    apply IH; [|by apply insert_by_sorted].
    eapply Permutation_Forall; [symmetry; apply insert_by_perm|]. by constructor. }
  apply Gen; constructor.
Qed.

End SortBy.

Lemma Sorted_map_Forall {A B} (R : A -> A -> Prop) (R' : B -> B -> Prop) (f : A -> B)
    (P : A -> Prop) (l : list A) :
  Forall P l -> (forall x y, P x -> P y -> R x y -> R' (f x) (f y)) ->
  Sorted R l -> Sorted R' (map f l).
Proof.
  intros Hall Himp Hs. induction Hs as [|x l Hs IH Hhd]; cbn; constructor.
  - apply IH. by inversion Hall.
  - inversion Hall as [|? ? Hx Hl]; subst. destruct Hhd as [|y l' Hxy]; cbn; constructor.
    inversion Hl; subst. by apply Himp.
Qed.

Lemma entries_forall (Q : string * value -> Prop) iteratees i (l : jsobj) :
  Forall Q l ->
  Forall (fun e => Q (se_value e) /\
                   se_criteria e = map (lodash_get (queryable (se_value e).1 (se_value e).2)) iteratees)
    (map (fun '(i, (k, d)) => mkEntry (map (lodash_get (queryable k d)) iteratees) i (k, d))
       (index_from i l)).
Proof.
  revert i. induction l as [|[k d] l IH]; intros i Hall; cbn; [constructor|].
  inversion Hall; subst. constructor; [done|]. by apply IH.
Qed.

Lemma compareAscending_num a b :
  compareAscending (VNum a) (VNum b) = if a =? b then 0 else if b <? a then 1 else -1.
Proof.
  unfold compareAscending, strict_eq, js_lt, to_num, is_null, is_defined. cbn.
  destruct (Z.eqb_spec a b) as [->|Hne]; cbn; [done|].
  destruct (Z.ltb_spec b a); cbn; [done|]. destruct (Z.ltb_spec a b); cbn; [done|]. lia.
Qed.

Lemma compareMultiple_num dir x y a b :
  se_criteria x = [VNum a] -> se_criteria y = [VNum b] ->
  compareMultiple [dir] x y =
    if a =? b then Z.of_nat (se_index x) - Z.of_nat (se_index y)
    else if String.eqb dir "desc" then (if b <? a then -1 else 1) else (if b <? a then 1 else -1).
Proof.
  intros Hx Hy. unfold compareMultiple. rewrite Hx, Hy. cbn [compare_criteria].
  rewrite compareAscending_num.
  destruct (Z.eqb_spec a b) as [->|Hne]; [done|].
  destruct (Z.ltb_spec b a); cbn; destruct (String.eqb dir "desc"); reflexivity.
Qed.

Lemma lodash_orderBy_num_sorted (l : jsobj) p dir :
  Forall (fun kv => exists z, sort_value p kv = VNum z) l ->
  Sorted (fun a b => num_ordered dir (sort_value p a) (sort_value p b) = true)
    (lodash_orderBy l [getPropertyPath p] [dir]).
Proof.
  intros Hall. unfold lodash_orderBy.
  set (P := fun e : sort_entry => exists z, sort_value p (se_value e) = VNum z /\ se_criteria e = [VNum z]).
  assert (HP : Forall P (map (fun '(i, (k, d)) =>
        mkEntry (map (lodash_get (queryable k d)) [getPropertyPath p]) i (k, d)) (index_from 0 l))).
  { eapply Forall_impl; [exact (entries_forall _ [getPropertyPath p] 0 l Hall)|].
    intros e [[z Hz] He]. exists z. split; [done|]. rewrite He.
    exact (f_equal (fun v => [v]) Hz). }
  apply (Sorted_map_Forall (fun a b => 0 <= compareMultiple [dir] b a) _ se_value P).
  - eapply Permutation_Forall; [symmetry; apply (sort_by_from_perm _ _ [])|].
    by rewrite app_nil_r.
  - intros x y (a & Ha & Hca) (b & Hb & Hcb) Hyx. rewrite Ha, Hb. cbn.
    rewrite (compareMultiple_num dir y x b a Hcb Hca) in Hyx.
    destruct (Z.eqb_spec b a) as [->|Hne]; [by destruct (String.eqb dir "desc"); apply Z.leb_le; lia|].
    destruct (String.eqb dir "desc"); destruct (Z.ltb_spec a b); apply Z.leb_le; lia.
  - apply (sort_by_sorted _ P); [|exact HP].
    intros x y (a & _ & Hca) (b & _ & Hcb) Hlt.
    rewrite (compareMultiple_num dir x y a b Hca Hcb) in Hlt.
    rewrite (compareMultiple_num dir y x b a Hcb Hca).
    destruct (Z.eqb_spec a b) as [->|Hne]; [rewrite Z.eqb_refl; lia|].
    rewrite (proj2 (Z.eqb_neq b a)) by lia.
    destruct (String.eqb dir "desc"); destruct (Z.ltb_spec b a); destruct (Z.ltb_spec a b); lia.
Qed.

Lemma In_firstn_l {A} (x : A) k (l : list A) : In x (firstn k l) -> In x l.
Proof. intros H. rewrite <- (firstn_skipn k l). apply in_or_app. by left. Qed.

Lemma SSorted_passed (R : string * value -> string * value -> Prop) f st (l : jsobj) :
  StronglySorted R l -> StronglySorted R (passed f st l).
Proof.
  revert st. induction l as [|x l IH]; intros st Hs; cbn; [constructor|].
  inversion Hs as [|? ? Hs' Hx]; subst.
  destruct (inRange f st x.1) as [[] st']; [|by apply IH].
  constructor; [by apply IH|]. rewrite List.Forall_forall in Hx |- *.
  intros y Hy. apply Hx. exact (In_passed _ _ _ _ Hy).
Qed.

Lemma SSorted_limit_take (R : string * value -> string * value -> Prop) lim c (l : jsobj) :
  StronglySorted R l -> StronglySorted R (limit_take lim c l).
Proof.
  unfold limit_take. destruct (lim <=? 0); [done|]. generalize (Z.to_nat (lim - c)) as k.
  induction l as [|x l IH]; intros k Hs; destruct k; cbn; try (constructor; fail).
  inversion Hs as [|? ? Hs' Hx]; subst. constructor; [by apply IH|].
  rewrite List.Forall_forall in Hx |- *. intros y Hy. apply Hx. exact (In_firstn_l _ _ _ Hy).
Qed.

Lemma NoDup_passed f st (l : jsobj) :
  List.NoDup (map fst l) -> List.NoDup (map fst (passed f st l)).
Proof.
  revert st. induction l as [|x l IH]; intros st Hnd; cbn; [constructor|].
  inversion Hnd as [|? ? Hx Hnd']; subst.
  destruct (inRange f st x.1) as [[] st']; cbn; [|by apply IH].
  constructor; [|by apply IH]. intros (y & Hy & Hin)%in_map_iff. apply Hx.
  apply in_map_iff. exists y. split; [done|]. exact (In_passed _ _ _ _ Hin).
Qed.

Lemma NoDup_limit_take lim c (l : jsobj) :
  List.NoDup (map fst l) -> List.NoDup (map fst (limit_take lim c l)).
Proof.
  unfold limit_take. destruct (lim <=? 0); [done|]. generalize (Z.to_nat (lim - c)) as k.
  induction l as [|x l IH]; intros k Hnd; destruct k; cbn; try (constructor; fail).
  inversion Hnd as [|? ? Hx Hnd']; subst. constructor; [|by apply IH].
  intros (y & Hy & Hin)%in_map_iff. apply Hx.
  apply in_map_iff. exists y. split; [done|]. exact (In_firstn_l _ _ _ Hin).
Qed.

Lemma js_build_from_plain (l acc : jsobj) :
  Forall (fun kv => array_index kv.1 = None) l -> List.NoDup (map fst l) ->
  (forall kv x, In kv l -> ~ In (kv.1, x) acc) ->
  fold_left (fun o kv => js_set o kv.1 kv.2) l acc = acc ++ l.
Proof.
  revert acc. induction l as [|[k v] l IH]; intros acc Hidx Hnd Hfresh; cbn; [by rewrite app_nil_r|].
  inversion Hnd as [|? ? Hk Hnd']; subst. inversion Hidx as [|? ? Hi Hidx']; subst.
  assert (Hacc : assoc k acc = None).
  { apply assoc_notin. intros x. exact (Hfresh (k, v) x (or_introl eq_refl)). }
  assert (Hset : js_set acc k v = acc ++ [(k, v)]).
  { unfold js_set. rewrite Hacc. cbn in Hi. by rewrite Hi. }
  rewrite Hset, IH; [by rewrite <- app_assoc|done|done|].
  intros kv x Hin [H1|[H1|[]]]%in_app_or.
  - exact (Hfresh kv x (or_intror Hin) H1).
  - injection H1 as H1 _. apply Hk. rewrite H1. by apply in_map.
Qed.

Lemma js_build_plain (l : jsobj) :
  Forall (fun kv => array_index kv.1 = None) l -> List.NoDup (map fst l) -> js_build l = l.
Proof. intros Hi Hnd. unfold js_build. rewrite js_build_from_plain; [done|done|done|intros kv x _ []]. Qed.

Lemma num_ordered_trans dir a b c :
  num_ordered dir a b = true -> num_ordered dir b c = true -> num_ordered dir a c = true.
Proof.
  destruct a, b, c; cbn; try discriminate.
  destruct (String.eqb dir "desc"); rewrite !Z.leb_le; lia.
Qed.

Lemma delay_eqb_true a b : delay_eqb a b = true -> a = b.
Proof. destruct a, b; cbn; try discriminate; try done. by intros ->%Z.eqb_eq. Qed.

Lemma autoFlush_go_S fuel x d w n :
  heap w !! x = Some n ->
  autoFlush_go (S fuel) x d w =
    (if delay_eqb (flushDelay n) d then retM tt
     else put_node x (with_delay n d) ;;;
          fold_left (fun m c => m ;;; autoFlush_go fuel c d) (children n) (retM tt) ;;;
          match parent n with Some p => autoFlush_go fuel p d | None => retM tt end) w.
Proof. intros Hn. cbn [autoFlush_go]. unfold bindM at 1, get_node at 1. by rewrite Hn. Qed.

Lemma autoFlush_go_missing fuel x d w :
  heap w !! x = None -> autoFlush_go (S fuel) x d w = (Thrown "TypeError", w).
Proof. intros Hn. cbn [autoFlush_go]. unfold bindM at 1, get_node at 1. by rewrite Hn. Qed.

Lemma autoFlush_go_keeps_flag fuel :
  forall x d c,
  preserves (fun w => exists m, heap w !! c = Some m /\ flushDelay m = d) (autoFlush_go fuel x d).
Proof.
  induction fuel as [|fuel IH]; intros x d c w Hw; [exact Hw|].
  destruct (heap w !! x) as [n|] eqn:Hn; [|by rewrite autoFlush_go_missing].
  rewrite (autoFlush_go_S fuel x d w n Hn). destruct (delay_eqb (flushDelay n) d); [exact Hw|].
  refine (preserves_bind (fun w => exists m, heap w !! c = Some m /\ flushDelay m = d) _ _ _ _ w Hw).
  - intros w0 [m [Hm Hf]]. unfold put_node, modifyM, set_heap. cbn.
    destruct (decide (c = x)) as [->|Hne].
    + exists (with_delay n d). by rewrite lookup_insert_eq.
    + exists m. by rewrite lookup_insert_ne by congruence.
  - intros _. apply preserves_bind.
    + apply preserves_fold; [apply preserves_ret|]. intros c' _. apply IH.
    + intros _. destruct (parent n); [apply IH|apply preserves_ret].
Qed.

Lemma with_delay_twice n d : with_delay (with_delay n d) d = with_delay n d.
Proof. by destruct n. Qed.

Lemma autoFlush_go_only_flags fuel :
  forall x d w0,
  preserves (fun w => forall y m', heap w !! y = Some m' ->
                        exists m, heap w0 !! y = Some m /\ (m' = m \/ m' = with_delay m d))
            (autoFlush_go fuel x d).
Proof.
  induction fuel as [|fuel IH]; intros x d w0 w Hw; [exact Hw|].
  destruct (heap w !! x) as [n|] eqn:Hn; [|by rewrite autoFlush_go_missing].
  rewrite (autoFlush_go_S fuel x d w n Hn). destruct (delay_eqb (flushDelay n) d); [exact Hw|].
  unfold bindM at 1, put_node at 1, modifyM at 1. cbn [fst snd].
  assert (Hw1 : forall y m', heap (set_heap w (<[x:=with_delay n d]> (heap w))) !! y = Some m' ->
                  exists m, heap w0 !! y = Some m /\ (m' = m \/ m' = with_delay m d)).
  { intros y m'. cbn. destruct (decide (y = x)) as [->|Hne].
    - rewrite lookup_insert_eq. intros [= <-]. destruct (Hw x n Hn) as [m [Hm [->| ->]]].
      + exists m. by split; [|right].
      + exists m. split; [done|]. right. apply with_delay_twice.
    - rewrite lookup_insert_ne by congruence. apply Hw. }
  revert Hw1. generalize (set_heap w (<[x:=with_delay n d]> (heap w))). intros w1 Hw1.
  apply preserves_bind; [|intros _; destruct (parent n); [apply IH|apply preserves_ret]|exact Hw1].
  apply preserves_fold; [apply preserves_ret|]. intros c' _. apply IH.
Qed.

Lemma establishes_bind_l {A B} (Q : world -> Prop) (m : M A) (k : A -> M B) :
  (forall w w' a, m w = (Ok a, w') -> Q w') -> (forall a, preserves Q (k a)) ->
  forall w w' b, bindM m k w = (Ok b, w') -> Q w'.
Proof.
  intros Hm Hk w w' b. unfold bindM. destruct (m w) as [[a|e] w1] eqn:E; [|discriminate].
  intros Hb. specialize (Hk a w1 (Hm _ _ _ E)). by rewrite Hb in Hk.
Qed.

Lemma establishes_bind_r {A B} (Q : world -> Prop) (m : M A) (k : A -> M B) :
  (forall a w w' b, k a w = (Ok b, w') -> Q w') ->
  forall w w' b, bindM m k w = (Ok b, w') -> Q w'.
Proof.
  intros Hk w w' b. unfold bindM. destruct (m w) as [[a|e] w1]; [|discriminate]. apply Hk.
Qed.

Lemma establishes_fold (Q : world -> Prop) (f : nat -> M unit) c (l : list nat) :
  (forall c', preserves Q (f c')) -> (forall w w' u, f c w = (Ok u, w') -> Q w') ->
  forall m0, ((forall w w' u, m0 w = (Ok u, w') -> Q w') \/ In c l) ->
  forall w w' u, fold_left (fun m c => m ;;; f c) l m0 w = (Ok u, w') -> Q w'.
Proof.
  intros Hp Hc. induction l as [|c0 l IH]; intros m0 H0; cbn.
  - destruct H0 as [H0|[]]. exact H0.
  - apply IH. destruct H0 as [H0|[->|Hin]].
    + left. apply establishes_bind_l; [exact H0|]. intros _. apply Hp.
    + left. apply establishes_bind_r. intros _. exact Hc.
    + by right.
Qed.

Lemma autoFlush_go_rest_keeps_flag fuel n d c :
  preserves (fun w => exists m, heap w !! c = Some m /\ flushDelay m = d)
    (fold_left (fun m c => m ;;; autoFlush_go fuel c d) (children n) (retM tt) ;;;
     match parent n with Some p => autoFlush_go fuel p d | None => retM tt end).
Proof.
  apply preserves_bind.
  - apply preserves_fold; [apply preserves_ret|]. intros c' _. apply autoFlush_go_keeps_flag.
  - intros _. destruct (parent n); [apply autoFlush_go_keeps_flag|apply preserves_ret].
Qed.

Lemma autoFlush_go_sets fuel c d w w' u :
  autoFlush_go fuel c d w = (Ok u, w') ->
  exists m, heap w' !! c = Some m /\ flushDelay m = d.
Proof.
  destruct fuel as [|fuel]; [discriminate|].
  destruct (heap w !! c) as [n|] eqn:Hn; [|by rewrite autoFlush_go_missing].
  rewrite (autoFlush_go_S fuel c d w n Hn).
  destruct (delay_eqb (flushDelay n) d) eqn:Ed.
  - intros [= _ <-]. exists n. split; [done|]. by apply delay_eqb_true.
  - unfold bindM at 1, put_node at 1, modifyM at 1. cbn [fst snd]. intros E.
    pose proof (autoFlush_go_rest_keeps_flag fuel n d c
                  (set_heap w (<[c:=with_delay n d]> (heap w)))) as H.
    rewrite E in H. apply H. exists (with_delay n d). cbn. by rewrite lookup_insert_eq.
Qed.

Lemma abc_world_wf : world_wf abc_world.
Proof. exact (single_world_wf (root_node abc_records) eq_refl eq_refl eq_refl). Qed.

Ltac discharge_concrete :=
  first [ exact abc_world_wf | exact I | discriminate | (right; reflexivity)
        | (apply single_world_wf; reflexivity)
        | (apply (wf_orderBy 0 (PropString "x") (Some "asc"%string) abc_world 1); [exact abc_world_wf|vm_compute; reflexivity])
        | (vm_compute; reflexivity) ].

(* ================================================================== *)
(** * The claims *)

(** C1: on an instance with no order, no limit and no cursor over a
    well-formed record object, [where(path, '==', value)] followed by
    [get()] and a flush resolves the promise with exactly the records,
    in traversal order, whose value at the path deep-equals [value]. *)
Theorem where_eq_get_filters w r n p v q w' :
  world_wf w -> heap w !! r = Some n -> enum_ok (data n) = true ->
  orderedProperties n = [] -> limited n <= 0 -> buildStartFinder n = FindAll ->
  where_ r p "==" v w = (Ok q, w') ->
  In (OResolved (next_promise w')
        (List.filter (fun kv => isEqual (lodash_get (queryable kv.1 kv.2) (getPropertyPath p)) v)
                     (traversal n)))
     (trace (run w' [AGet q; AFlush q])).
Proof.
  intros Hwf Hr Hok Ho Hl Hf H.
  destruct (where_spec r p "==" v w q w' Hwf H)
    as (n' & cn & Hr' & Hcl & Hq & Hh & _ & _ & _ & Hqs).
  rewrite Hr in Hr'. injection Hr' as <-.
  destruct Hcl as (Hd & Ho' & _ & Hl' & Hf' & _ & _ & He).
  cbn [supported_op String.eqb orb] in Hh. cbn in Hh.
  set (nq := with_data cn (if Nat.eqb (length (data n)) 0 then []
                           else where_results (data n) p "==" v)) in Hh.
  assert (Hfil : _results nq =
    List.filter (fun kv => isEqual (lodash_get (queryable kv.1 kv.2) (getPropertyPath p)) v)
                (traversal n)).
  { unfold traversal. rewrite Ho.
    assert (Hdq : data nq = List.filter (fun kv =>
               isEqual (lodash_get (queryable kv.1 kv.2) (getPropertyPath p)) v) (data n)).
    { unfold nq, with_data. cbn [data].
      destruct (Nat.eqb_spec (length (data n)) 0) as [Hz|Hz].
      - apply length_zero_iff_nil in Hz. by rewrite Hz.
      - by rewrite where_results_filter. }
    rewrite <- Hdq. apply results_plain.
    - unfold nq, with_data. cbn. by rewrite Ho'.
    - unfold nq, with_data. cbn. by rewrite Hl'.
    - unfold nq, with_data. cbn. by rewrite Hf'.
    - rewrite Hdq. eapply enum_ok_sublist; [apply filter_sublist | exact Hok]. }
  rewrite <- Hfil. apply get_flush_resolves.
  - rewrite Hh. apply lookup_insert_eq.
  - unfold nq, with_data. cbn. by rewrite He.
  - rewrite Hh. apply Forall_is_Some_insert.
    unfold queue_events. rewrite Hqs. apply (wf_queue_events w (queue nq) Hwf).
Qed.


Lemma where_eq_get_filters_witness :
  In (OResolved 0 [("a", rec_x 1); ("c", rec_x 1)])
     (trace (run (snd (where_ 0 (PropString "x") "==" (VNum 1) (single_world (root_node abc_records))))
                 [AGet 1; AFlush 1])).
Proof.
  exact (where_eq_get_filters (single_world (root_node abc_records)) 0 (root_node abc_records)
           (PropString "x") (VNum 1) 1
           (snd (where_ 0 (PropString "x") "==" (VNum 1) (single_world (root_node abc_records))))
           (single_world_wf (root_node abc_records) eq_refl eq_refl eq_refl) eq_refl eq_refl eq_refl ltac:(cbn; lia) eq_refl eq_refl).
Defined.

(** C2 (as amended): [startAfter] with a [DocumentSnapshot] on an
    instance with no [orderBy] throws ['Query must be ordered to paginate']
    synchronously, before anything is queued and whatever the data, and
    the caller's step records that exception; an argument that is not a
    [DocumentSnapshot] is only warned about and the receiver is returned. *)
Theorem startAfter_unordered_throws w r n d :
  heap w !! r = Some n -> orderedProperties n = [] ->
  startAfter r (DocSnapshot d) w = (Thrown paginate_msg, w) /\
  step w (AStartAfter r (DocSnapshot d)) = add_trace w [OThrown paginate_msg] /\
  startAfter r NotDocSnapshot w = (Ok r, snd (warn unsupported_cursor_msg w)).
Proof.
  intros Hr Ho.
  assert (E : startAfter r (DocSnapshot d) w = (Thrown paginate_msg, w)).
  { unfold startAfter, bindM, get_node. rewrite Hr. cbv beta iota. rewrite Ho. reflexivity. }
  split; [done|]. split; [|reflexivity].
  unfold step, action_m. rewrite (bind_Thrown _ _ _ _ _ E). reflexivity.
Qed.

Lemma startAfter_unordered_throws_witness :
  startAfter 0 (DocSnapshot "a") (single_world (root_node abc_records)) =
    (Thrown paginate_msg, single_world (root_node abc_records)) /\
  step (single_world (root_node abc_records)) (AStartAfter 0 (DocSnapshot "a")) =
    add_trace (single_world (root_node abc_records)) [OThrown paginate_msg] /\
  startAfter 0 NotDocSnapshot (single_world (root_node abc_records)) =
    (Ok 0%nat, snd (warn unsupported_cursor_msg (single_world (root_node abc_records)))).
Proof.
  exact (startAfter_unordered_throws (single_world (root_node abc_records)) 0
           (root_node abc_records) "a" eq_refl eq_refl).
Defined.

(** C2, counterexample: on an instance with no [orderBy], [startAfter]
    with an argument that is not a [DocumentSnapshot] does not fail: it
    returns the receiver. *)
Lemma startAfter_unordered_nondoc_returns :
  orderedProperties (root_node abc_records) = [] /\
  exists w', startAfter 0 NotDocSnapshot (single_world (root_node abc_records)) = (Ok 0%nat, w').
Proof. split; [reflexivity|]. eexists. reflexivity. Qed.

(** C3: an error injected for [onSnapshot] is reported to the error
    callback at subscription and again after every later flush, while an
    error injected for [get] rejects one promise and the next [get]
    resolves. *)
Lemma onSnapshot_injected_error_repeats :
  callbacks_of 0 (trace (run (single_world (root_node abc_records))
     [AInjectErr 0 "onSnapshot" "boom"; AOnSnapshot 0 A1Callback; AFlush 0; AFlush 0])) =
    [OCall 0 2 (PErr "boom"); OCall 0 2 (PErr "boom"); OCall 0 2 (PErr "boom")] /\
  trace (run (single_world (root_node abc_records))
     [AInjectErr 0 "get" "boom"; AGet 0; AGet 0; AFlush 0]) =
    [ORejected 0 "boom"; OResolved 1 abc_records].
Proof. split; vm_compute; reflexivity. Qed.

(** C7: with keys that are array indices, the evaluation does not keep
    the sorted order: [orderBy('x')] over [{"1":{x:2}, "2":{x:1}}] sorts
    the records as ["2"; "1"], yet [get()] resolves with the object whose
    keys enumerate as ["1"; "2"]. *)
Lemma orderBy_index_keys_unsorted :
  option_map traversal
    (heap (run (single_world (root_node [("1", rec_x 2); ("2", rec_x 1)]))
               [AOrderBy 0 (PropString "x") None]) !! 1%nat) =
    Some [("2", rec_x 1); ("1", rec_x 2)] /\
  trace (run (single_world (root_node [("1", rec_x 2); ("2", rec_x 1)]))
             [AOrderBy 0 (PropString "x") None; AGet 1; AFlush 1]) =
    [OResolved 0 [("1", rec_x 2); ("2", rec_x 1)]].
Proof. split; vm_compute; reflexivity. Qed.

(** C8: [limit(lim)] caps the evaluation: for [lim > 0] the result is
    built from the first [lim] records that pass the cursor along the
    (filtered, ordered) traversal, so it has at most [lim] entries; for
    [lim <= 0] every such record is kept. *)
Theorem limit_truncates w r lim q w' :
  world_wf w -> limit r lim w = (Ok q, w') ->
  exists n nq, heap w !! r = Some n /\ heap w' !! q = Some nq /\ limited nq = lim /\
    (0 < lim ->
       _results nq = js_build (firstn (Z.to_nat lim)
                                 (passed (buildStartFinder n) (false, false) (traversal n))) /\
       (length (_results nq) <= Z.to_nat lim)%nat) /\
    (lim <= 0 ->
       _results nq = js_build (passed (buildStartFinder n) (false, false) (traversal n))).
Proof.
  intros Hwf H. destruct (limit_spec r lim w q w' Hwf H) as (n & cn & Hr & Hcl & Hq & Hh & _).
  exists n, (with_limit cn lim). split; [done|]. split; [by rewrite Hh, lookup_insert_eq|].
  split; [reflexivity|].
  assert (Hres : _results (with_limit cn lim) =
            js_build (limit_take lim 0 (passed (buildStartFinder n) (false, false) (traversal n)))).
  { rewrite results_spec. destruct Hcl as (Hd & Ho & Hdi & Hl & Hf & _).
    unfold traversal, with_limit; cbn. rewrite Hf, Hd, Ho, Hdi. reflexivity. }
  split.
  - intros Hpos. rewrite Hres. unfold limit_take.
    replace (lim <=? 0) with false by lia. rewrite Z.sub_0_r. split; [reflexivity|].
    etransitivity; [apply length_js_build|]. apply firstn_le_length.
  - intros Hneg. rewrite Hres. by rewrite limit_take_unbounded.
Qed.

Lemma limit_truncates_witness :
  exists n nq, heap (single_world (root_node abc_records)) !! 0%nat = Some n /\
    heap (snd (limit 0 2 (single_world (root_node abc_records)))) !! 1%nat = Some nq /\
    limited nq = 2 /\
    (0 < 2 ->
       _results nq = js_build (firstn (Z.to_nat 2)
                                 (passed (buildStartFinder n) (false, false) (traversal n))) /\
       (length (_results nq) <= Z.to_nat 2)%nat) /\
    (2 <= 0 ->
       _results nq = js_build (passed (buildStartFinder n) (false, false) (traversal n))).
Proof.
  exact (limit_truncates (single_world (root_node abc_records)) 0 2 1
           (snd (limit 0 2 (single_world (root_node abc_records))))
           (single_world_wf (root_node abc_records) eq_refl eq_refl eq_refl) eq_refl).
Defined.

(** C9 (as amended): the builders never change the receiver's instance.
    [where], [orderBy], [limit] and [startAfter] with a [DocumentSnapshot]
    return a new instance; after [where], the receiver's own [get()] and
    flush still resolve with its unfiltered evaluation. [startAfter] with
    any other argument returns the receiver itself, unchanged. *)
Theorem builders_leave_receiver w r n :
  world_wf w -> heap w !! r = Some n ->
  (forall p op v q w', where_ r p op v w = (Ok q, w') -> q <> r /\ heap w' !! r = Some n) /\
  (forall p dir q w', orderBy r p dir w = (Ok q, w') -> q <> r /\ heap w' !! r = Some n) /\
  (forall lim q w', limit r lim w = (Ok q, w') -> q <> r /\ heap w' !! r = Some n) /\
  (forall d q w', startAfter r (DocSnapshot d) w = (Ok q, w') -> q <> r /\ heap w' !! r = Some n) /\
  (startAfter r NotDocSnapshot w = (Ok r, snd (warn unsupported_cursor_msg w)) /\
   heap (snd (warn unsupported_cursor_msg w)) = heap w) /\
  (lookup_err "get" (errs n) = None -> forall p op v q w',
     where_ r p op v w = (Ok q, w') ->
     In (OResolved (next_promise w') (_results n)) (trace (run w' [AGet r; AFlush r]))).
Proof.
  intros Hwf Hr. pose proof (wf_receiver_ne w r n Hwf Hr) as Hne.
  split; [|split; [|split; [|split; [|split]]]].
  - intros p op v q w' H. destruct (where_spec r p op v w q w' Hwf H) as (n' & cn & _ & _ & Hq & Hh & _).
    split; [congruence|]. rewrite Hh, lookup_insert_ne by congruence. done.
  - intros p dir q w' H. destruct (orderBy_spec r p dir w q w' Hwf H) as (n' & cn & _ & _ & Hq & Hh & _).
    split; [congruence|]. rewrite Hh, lookup_insert_ne by congruence. done.
  - intros lim q w' H. destruct (limit_spec r lim w q w' Hwf H) as (n' & cn & _ & _ & Hq & Hh & _).
    split; [congruence|]. rewrite Hh, lookup_insert_ne by congruence. done.
  - intros d q w' H. destruct (startAfter_doc_spec r d w q w' Hwf H) as (n' & cn & _ & _ & _ & Hq & Hh & _).
    split; [congruence|]. rewrite Hh, lookup_insert_ne by congruence. done.
  - split; reflexivity.
  - intros Hl p op v q w' H.
    destruct (where_spec r p op v w q w' Hwf H) as (n' & cn & _ & _ & Hq & Hh & _ & _ & _ & Hqs).
    apply get_flush_resolves.
    + rewrite Hh, lookup_insert_ne by congruence. done.
    + done.
    + rewrite Hh. apply Forall_is_Some_insert. unfold queue_events. rewrite Hqs.
      apply (wf_queue_events w (queue n) Hwf).
Qed.

Lemma builders_leave_receiver_witness :
  let w := single_world (root_node abc_records) in
  (forall p op v q w', where_ 0 p op v w = (Ok q, w') ->
     q <> 0%nat /\ heap w' !! 0%nat = Some (root_node abc_records)) /\
  (forall p dir q w', orderBy 0 p dir w = (Ok q, w') ->
     q <> 0%nat /\ heap w' !! 0%nat = Some (root_node abc_records)) /\
  (forall lim q w', limit 0 lim w = (Ok q, w') ->
     q <> 0%nat /\ heap w' !! 0%nat = Some (root_node abc_records)) /\
  (forall d q w', startAfter 0 (DocSnapshot d) w = (Ok q, w') ->
     q <> 0%nat /\ heap w' !! 0%nat = Some (root_node abc_records)) /\
  (startAfter 0 NotDocSnapshot w = (Ok 0%nat, snd (warn unsupported_cursor_msg w)) /\
   heap (snd (warn unsupported_cursor_msg w)) = heap w) /\
  (lookup_err "get" (errs (root_node abc_records)) = None -> forall p op v q w',
     where_ 0 p op v w = (Ok q, w') ->
     In (OResolved (next_promise w') (_results (root_node abc_records)))
        (trace (run w' [AGet 0; AFlush 0]))).
Proof.
  exact (builders_leave_receiver (single_world (root_node abc_records)) 0 (root_node abc_records)
           (single_world_wf (root_node abc_records) eq_refl eq_refl eq_refl) eq_refl).
Defined.

(** C9, counterexample: [startAfter] with an argument that is not a
    [DocumentSnapshot] returns the receiver itself and allocates no new
    instance. *)
Lemma startAfter_nondoc_same_instance :
  fst (startAfter 0 NotDocSnapshot (single_world (root_node abc_records))) = Ok 0%nat /\
  next_ref (snd (startAfter 0 NotDocSnapshot (single_world (root_node abc_records)))) =
    next_ref (single_world (root_node abc_records)).
Proof. split; reflexivity. Qed.

(** C10 (as amended): [where] with an operator other than ['=='],
    ['array-contains'] and ['in'] returns normally, appends the warning,
    and returns a clone holding the receiver's records unfiltered, whose
    evaluation is the receiver's (every record when the receiver has no
    limit and no cursor). *)
Theorem where_unsupported_keeps_data w r n p op v :
  world_wf w -> heap w !! r = Some n ->
  (forall pr, parent n = Some pr -> is_Some (heap w !! pr)) ->
  supported_op op = false ->
  exists q w' nq, where_ r p op v w = (Ok q, w') /\ heap w' !! q = Some nq /\
    data nq = data n /\ _results nq = _results n /\
    warnings w' = warnings w ++ [unsupported_where_msg] /\ trace w' = trace w.
Proof.
  intros Hwf Hr Hpar Hop.
  destruct (where_Ok w r n p op v Hwf Hr Hpar) as (q & w' & H).
  destruct (where_spec r p op v w q w' Hwf H)
    as (n' & cn & Hr' & Hcl & Hq & Hh & Hwarn & Htr & _).
  rewrite Hr in Hr'. injection Hr' as Hn. subst n'. rewrite Hop in Hh, Hwarn.
  exists q, w', cn. split; [done|]. split; [by rewrite Hh, lookup_insert_eq|].
  split; [apply Hcl|]. split; [by apply results_cloned|]. done.
Qed.

Lemma where_unsupported_keeps_data_witness :
  exists q w' nq,
    where_ 0 (PropString "x") "<" (VNum 5) (single_world (root_node abc_records)) = (Ok q, w') /\
    heap w' !! q = Some nq /\ data nq = abc_records /\
    _results nq = _results (root_node abc_records) /\
    warnings w' = [unsupported_where_msg] /\ trace w' = [].
Proof.
  exact (where_unsupported_keeps_data (single_world (root_node abc_records)) 0
           (root_node abc_records) (PropString "x") "<" (VNum 5)
           (single_world_wf (root_node abc_records) eq_refl eq_refl eq_refl) eq_refl
           (fun pr (H : None = Some pr) => match H in _ = o return match o with
                                             | Some _ => is_Some (heap (single_world (root_node abc_records)) !! pr)
                                             | None => True end with eq_refl => I end)
           eq_refl).
Defined.

(** C10, counterexample: on an instance limited to one record, an
    unsupported operator returns a clone whose evaluation is that one
    record, not every record. *)
Lemma where_unsupported_limited :
  option_map _results
    (heap (snd (where_ 0 (PropString "x") "<" (VNum 5)
                  (single_world (with_limit (root_node abc_records) 1)))) !! 1%nat) =
    Some [("a", rec_x 1)].
Proof. vm_compute. reflexivity. Qed.

(** C4 (a slip of the code): [clone] passes [this.parent], not [this],
    to the constructor, so [where] on a root instance gives a clone on a
    new queue (1, while the root keeps queue 0), and [autoFlush()] on the
    root leaves the clone's flag [false]: neither the queue nor the flag
    is shared with the clone. *)
Lemma root_clone_not_shared :
  option_map queue (heap (snd (where_ 0 (PropString "x") "==" (VNum 1)
                                 (single_world (root_node abc_records)))) !! 0%nat) = Some 0%nat /\
  option_map queue (heap (snd (where_ 0 (PropString "x") "==" (VNum 1)
                                 (single_world (root_node abc_records)))) !! 1%nat) = Some 1%nat /\
  option_map flushDelay
    (heap (run (snd (where_ 0 (PropString "x") "==" (VNum 1) (single_world (root_node abc_records))))
               [AAutoFlush 0 None]) !! 0%nat) = Some DTrue /\
  option_map flushDelay
    (heap (run (snd (where_ 0 (PropString "x") "==" (VNum 1) (single_world (root_node abc_records))))
               [AAutoFlush 0 None]) !! 1%nat) = Some DFalse.
Proof. vm_compute. repeat split. Qed.

(** C6: the instance [startAfter(doc)] builds carries the receiver's
    traversal and a cursor on [doc.ref.id]. Along a traversal where that
    id first appears after the records [pre], the finder answers [false]
    for [pre] and for the id's record and [true] for every record after
    it, so the evaluation, which starts a fresh finder each time, is built
    from the records strictly after the cursor, up to the limit. *)
Theorem startAfter_exclusive w r d q w' :
  world_wf w -> startAfter r (DocSnapshot d) w = (Ok q, w') ->
  exists n nq, heap w !! r = Some n /\ heap w' !! q = Some nq /\
    buildStartFinder nq = FindAfter d /\ traversal nq = traversal n /\
    limited nq = limited n /\
    forall pre v post, traversal n = pre ++ (d, v) :: post -> ~ In d (map fst pre) ->
      finder_verdicts (FindAfter d) false (traversal n) =
        repeat false (S (length pre)) ++ repeat true (length post) /\
      _results nq = js_build (limit_take (limited n) 0 post).
Proof.
  intros Hwf H.
  destruct (startAfter_doc_spec r d w q w' Hwf H) as (n & cn & Hr & _ & Hcl & Hq & Hh & _).
  pose proof (traversal_cloned n cn Hcl) as Ht.
  destruct Hcl as (_ & _ & _ & Hl & _).
  exists n, (with_finder cn (FindAfter d)). split; [done|].
  split; [by rewrite Hh, lookup_insert_eq|].
  split; [reflexivity|]. split; [exact Ht|]. split; [exact Hl|].
  intros pre v post Htr Hn. split.
  - rewrite Htr, finder_verdicts_skip by done. cbn. rewrite String.eqb_refl.
    rewrite finder_verdicts_next.
    change (false :: repeat true (length post)) with ([false] ++ repeat true (length post)).
    assert (R : forall k, repeat false k ++ [false] = false :: repeat false k)
      by (induction k as [|k IHk]; cbn; congruence).
    rewrite app_assoc, R. reflexivity.
  - rewrite results_spec. cbn [buildStartFinder limited with_finder].
    change (traversal (with_finder cn (FindAfter d))) with (traversal cn).
    rewrite Ht, Htr, passed_cursor by done. by rewrite Hl.
Qed.

Lemma startAfter_exclusive_witness :
  exists n nq,
    heap (single_world (with_order (root_node abc_records) [PropString "x"] ["asc"])) !! 0%nat = Some n /\
    heap (snd (startAfter 0 (DocSnapshot "a")
                 (single_world (with_order (root_node abc_records) [PropString "x"] ["asc"])))) !! 1%nat = Some nq /\
    buildStartFinder nq = FindAfter "a" /\ traversal nq = traversal n /\
    limited nq = limited n /\
    forall pre v post, traversal n = pre ++ ("a", v) :: post -> ~ In "a" (map fst pre) ->
      finder_verdicts (FindAfter "a") false (traversal n) =
        repeat false (S (length pre)) ++ repeat true (length post) /\
      _results nq = js_build (limit_take (limited n) 0 post).
Proof.
  exact (startAfter_exclusive (single_world (with_order (root_node abc_records) [PropString "x"] ["asc"]))
           0 "a" 1
           (snd (startAfter 0 (DocSnapshot "a")
                   (single_world (with_order (root_node abc_records) [PropString "x"] ["asc"]))))
           (single_world_wf (with_order (root_node abc_records) [PropString "x"] ["asc"])
              eq_refl eq_refl eq_refl) eq_refl).
Defined.

(** C5 (a slip of the code): the arguments are rolled only when
    [includeMetadataChanges] is truthy. An options object carrying
    [includeMetadataChanges: false] is then itself called as the
    next-callback, so the subscription throws a [TypeError] and the
    next-callback is never invoked; with [includeMetadataChanges: true]
    the next-callback, second argument, receives the initial snapshot. *)
Lemma onSnapshot_options_false_throws :
  trace (run (single_world (root_node abc_records)) [AOnSnapshot 0 (A1Options false)]) =
    [OThrown "TypeError: onNext is not a function"] /\
  subs (run (single_world (root_node abc_records)) [AOnSnapshot 0 (A1Options false)]) = [] /\
  trace (run (single_world (root_node abc_records)) [AOnSnapshot 0 (A1Options true)]) =
    [OCall 0 2 (PSnap (_results (root_node abc_records)) [])].
Proof. split; [|split]; vm_compute; reflexivity. Qed.

(* ================================================================== *)
(** * Further properties of the code *)

(** X1: _results keeps only records of the data: every record it returns is a record of [data], and it returns at most as many records as [data] has. *)
Theorem results_within_data n :
  (forall kv, In kv (_results n) -> In kv (data n)) /\
  (length (_results n) <= length (data n))%nat.
Proof.
  rewrite results_spec. split.
  - intros kv Hin. destruct (In_js_build_from kv _ [] Hin) as [[]|H1].
    apply In_limit_take, In_passed in H1.
    exact (Permutation_in _ (traversal_perm n) H1).
  - etransitivity; [apply length_js_build|].
    etransitivity; [apply length_limit_take|].
    etransitivity; [apply length_passed|].
    by rewrite (Permutation_length (traversal_perm n)).
Qed.

(** X2: With no limit ([limited <= 0]), no [startAfter] cursor and distinct data keys, [_results] returns every record of [data] exactly once, in some order. *)
Theorem results_unbounded_perm n :
  limited n <= 0 -> buildStartFinder n = FindAll -> enum_ok (data n) = true ->
  _results n ≡ₚ data n.
Proof.
  intros Hl Hf Hok. rewrite results_spec, Hf, passed_FindAll, limit_take_unbounded by done.
  rewrite js_build_perm by (by apply traversal_NoDup). apply traversal_perm.
Qed.

Lemma results_unbounded_perm_witness :
  _results (root_node abc_records) ≡ₚ data (root_node abc_records).
Proof. apply results_unbounded_perm; [cbn; lia|reflexivity|reflexivity]. Defined.

(** X3: After a single [orderBy(p, dir)], when every record has a non-index key and a number at [p], [_results] lists the records sorted by that number: non-increasing for ['desc'], non-decreasing otherwise. *)
Theorem orderBy_numeric_sorted n p dir :
  orderedProperties n = [p] -> orderedDirections n = [dir] -> enum_ok (data n) = true ->
  Forall (fun kv => array_index kv.1 = None /\ exists z, sort_value p kv = VNum z) (data n) ->
  Sorted (fun a b => num_ordered dir (sort_value p a) (sort_value p b) = true) (_results n).
Proof.
  intros Ho Hdi Hok Hall.
  set (R := fun a b => num_ordered dir (sort_value p a) (sort_value p b) = true).
  assert (Htrav : traversal n = lodash_orderBy (data n) [getPropertyPath p] [dir])
    by (unfold traversal; by rewrite Ho, Hdi).
  assert (HS : Sorted R (traversal n)).
  { rewrite Htrav. apply lodash_orderBy_num_sorted.
    eapply Forall_impl; [exact Hall|]. intros kv [_ H]. exact H. }
  assert (HSS : StronglySorted R (traversal n)).
  { apply Sorted_StronglySorted; [|exact HS]. intros a b c. apply num_ordered_trans. }
  rewrite results_spec.
  set (L := limit_take (limited n) 0 (passed (buildStartFinder n) (false, false) (traversal n))).
  assert (HL : StronglySorted R L) by (apply SSorted_limit_take, SSorted_passed, HSS).
  rewrite js_build_plain.
  - by apply StronglySorted_Sorted.
  - rewrite List.Forall_forall in Hall |- *. intros kv Hin.
    apply In_limit_take, In_passed in Hin.
    apply (Permutation_in _ (traversal_perm n)) in Hin. by destruct (Hall kv Hin).
  - apply NoDup_limit_take, NoDup_passed, traversal_NoDup, Hok.
Qed.

Lemma orderBy_numeric_sorted_witness :
  Sorted (fun a b => num_ordered "desc" (sort_value (PropString "x") a) (sort_value (PropString "x") b) = true)
    (_results (with_order (root_node abc_records) [PropString "x"] ["desc"])).
Proof.
  apply orderBy_numeric_sorted; [reflexivity|reflexivity|reflexivity|].
  repeat constructor; eexists; reflexivity.
Defined.

(** X4: Two chained [where] calls on an instance with distinct data keys keep exactly the records that pass both filters, in the order of the data. *)
Theorem where_where_conj w r n p1 op1 v1 p2 op2 v2 q1 w1 q2 w2 :
  world_wf w -> heap w !! r = Some n -> enum_ok (data n) = true ->
  where_ r p1 op1 v1 w = (Ok q1, w1) -> where_ q1 p2 op2 v2 w1 = (Ok q2, w2) ->
  exists n2, heap w2 !! q2 = Some n2 /\
    data n2 = List.filter (fun kv => where_keep p1 op1 v1 kv.1 kv.2 &&
                                     where_keep p2 op2 v2 kv.1 kv.2) (data n).
Proof.
  intros Hwf Hr Hok H1 H2.
  destruct (where_node w r p1 op1 v1 q1 w1 Hwf H1)
    as (n0 & nq & Hr0 & _ & Hh1 & _ & _ & _ & _ & _ & _ & _ & Hd1).
  rewrite Hr in Hr0. injection Hr0 as <-.
  destruct (where_node w1 q1 p2 op2 v2 q2 w2 (wf_where r p1 op1 v1 w q1 w1 Hwf H1) H2)
    as (n1 & nq2 & Hr1 & _ & Hh2 & _ & _ & _ & _ & _ & _ & _ & Hd2).
  rewrite Hh1, lookup_insert_eq in Hr1. injection Hr1 as <-.
  exists nq2. split; [by rewrite Hh2, lookup_insert_eq|].
  rewrite where_data_filter in Hd1 by done.
  rewrite Hd1, where_data_filter in Hd2.
  - rewrite Hd2. apply filter_filter'.
  - eapply enum_ok_sublist; [apply filter_sublist | exact Hok].
Qed.

(** Derived queries start with no injected errors and no children. *)

Lemma where_where_conj_witness :
  exists n2, heap (snd (where_ 1 DocumentId "==" (VStr "a")
                          (snd (where_ 0 (PropString "x") "==" (VNum 1) abc_world)))) !! 2%nat = Some n2 /\
    data n2 = List.filter (fun kv => where_keep (PropString "x") "==" (VNum 1) kv.1 kv.2 &&
                                     where_keep DocumentId "==" (VStr "a") kv.1 kv.2)
                          (data (root_node abc_records)).
Proof.
  apply (where_where_conj abc_world 0 (root_node abc_records) (PropString "x") "==" (VNum 1)
           DocumentId "==" (VStr "a") 1 (snd (where_ 0 (PropString "x") "==" (VNum 1) abc_world))
           2 (snd (where_ 1 DocumentId "==" (VStr "a")
                     (snd (where_ 0 (PropString "x") "==" (VNum 1) abc_world)))));
    discharge_concrete.
Defined.

(** X5: [where(FieldPath.documentId(), '==', k)] keeps exactly the record with key [k] when there is one, and no record otherwise. *)
Theorem where_documentId_eq w r n k q w' :
  world_wf w -> heap w !! r = Some n -> enum_ok (data n) = true ->
  where_ r DocumentId "==" (VStr k) w = (Ok q, w') ->
  exists nq, heap w' !! q = Some nq /\
    data nq = match assoc k (data n) with Some v => [(k, v)] | None => [] end.
Proof.
  intros Hwf Hr Hok H.
  destruct (where_node w r DocumentId "==" (VStr k) q w' Hwf H)
    as (n0 & nq & Hr0 & _ & Hh & _ & _ & _ & _ & _ & _ & _ & Hd).
  rewrite Hr in Hr0. injection Hr0 as <-.
  exists nq. split; [by rewrite Hh, lookup_insert_eq|].
  rewrite Hd, where_data_filter by done. exact (filter_key_enum (data n) k Hok).
Qed.

Lemma where_documentId_eq_witness :
  exists nq, heap (snd (where_ 0 DocumentId "==" (VStr "b") abc_world)) !! 1%nat = Some nq /\
    data nq = match assoc "b" (data (root_node abc_records)) with Some v => [("b", v)] | None => [] end.
Proof.
  apply (where_documentId_eq abc_world 0 (root_node abc_records) "b" 1
           (snd (where_ 0 DocumentId "==" (VStr "b") abc_world)));
    discharge_concrete.
Defined.

(** X6: [where(p, 'in', v)] with a value [v] that is not a string, array or object keeps no record and logs no warning. *)
Theorem where_in_scalar_empty w r p v q w' :
  world_wf w -> match v with VStr _ | VArr _ | VObj _ => False | _ => True end ->
  where_ r p "in" v w = (Ok q, w') ->
  exists nq, heap w' !! q = Some nq /\ data nq = [] /\ warnings w' = warnings w.
Proof.
  intros Hwf Hv H.
  destruct (where_spec r p "in" v w q w' Hwf H) as (n & cn & _ & _ & _ & Hh & Hw & _).
  exists (with_data cn (if Nat.eqb (length (data n)) 0 then [] else where_results (data n) p "in" v)).
  split; [by rewrite Hh, lookup_insert_eq|]. split; [|by rewrite Hw, app_nil_r].
  cbn [data with_data]. destruct (Nat.eqb (length (data n)) 0); [done|].
  apply where_results_none. intros k x. destruct v; try contradiction; reflexivity.
Qed.

Lemma where_in_scalar_empty_witness :
  exists nq, heap (snd (where_ 0 (PropString "x") "in" (VNum 1) abc_world)) !! 1%nat = Some nq /\
    data nq = [] /\
    warnings (snd (where_ 0 (PropString "x") "in" (VNum 1) abc_world)) = warnings abc_world.
Proof.
  apply (where_in_scalar_empty abc_world 0 (PropString "x") (VNum 1) 1
           (snd (where_ 0 (PropString "x") "in" (VNum 1) abc_world)));
    discharge_concrete.
Defined.

(** X7: [limit(a).limit(b)] returns the same results as [limit(b)] alone: the last limit wins. *)
Theorem limit_last_wins w r a b q1 w1 q2 w2 :
  world_wf w -> limit r a w = (Ok q1, w1) -> limit q1 b w1 = (Ok q2, w2) ->
  exists q3 w3 n2 n3, limit r b w = (Ok q3, w3) /\
    heap w2 !! q2 = Some n2 /\ heap w3 !! q3 = Some n3 /\ _results n2 = _results n3.
Proof.
  intros Hwf H1 H2.
  destruct (limit_clone r a w q1 w1 Hwf H1) as (wc & Hc).
  destruct (limit_from_clone r b w q1 wc Hwf Hc) as (w3 & H3).
  destruct (limit_spec r a w q1 w1 Hwf H1) as (n & cn & Hr & Hcl & _ & Hh1 & _).
  destruct (limit_spec q1 b w1 q2 w2 (wf_limit r a w q1 w1 Hwf H1) H2)
    as (n1 & cn1 & Hr1 & Hcl1 & _ & Hh2 & _).
  destruct (limit_spec r b w q1 w3 Hwf H3) as (n' & cn' & Hr' & Hcl' & _ & Hh3 & _).
  rewrite Hr in Hr'. injection Hr' as <-.
  rewrite Hh1, lookup_insert_eq in Hr1. injection Hr1 as <-.
  exists q1, w3, (with_limit cn1 b), (with_limit cn' b).
  split; [done|]. split; [by rewrite Hh2, lookup_insert_eq|].
  split; [by rewrite Hh3, lookup_insert_eq|].
  destruct Hcl as (Hd & Ho & Hdi & _ & Hf & _).
  destruct Hcl1 as (Hd1 & Ho1 & Hdi1 & _ & Hf1 & _).
  destruct Hcl' as (Hd' & Ho' & Hdi' & _ & Hf' & _).
  apply results_ext; cbn in *; congruence.
Qed.

Lemma limit_last_wins_witness :
  exists q3 w3 n2 n3, limit 0 2 abc_world = (Ok q3, w3) /\
    heap (snd (limit 1 2 (snd (limit 0 1 abc_world)))) !! 2%nat = Some n2 /\
    heap w3 !! q3 = Some n3 /\ _results n2 = _results n3.
Proof.
  apply (limit_last_wins abc_world 0 1 2 1 (snd (limit 0 1 abc_world))
           2 (snd (limit 1 2 (snd (limit 0 1 abc_world)))));
    discharge_concrete.
Defined.

(** X8: [startAfter(d1).startAfter(d2)] returns the same results as [startAfter(d2)] alone: the last cursor wins. *)
Theorem startAfter_last_wins w r d1 d2 q1 w1 q2 w2 :
  world_wf w -> startAfter r (DocSnapshot d1) w = (Ok q1, w1) ->
  startAfter q1 (DocSnapshot d2) w1 = (Ok q2, w2) ->
  exists q3 w3 n2 n3, startAfter r (DocSnapshot d2) w = (Ok q3, w3) /\
    heap w2 !! q2 = Some n2 /\ heap w3 !! q3 = Some n3 /\ _results n2 = _results n3.
Proof.
  intros Hwf H1 H2.
  destruct (startAfter_doc_spec r d1 w q1 w1 Hwf H1) as (n & cn & Hr & Ho & Hcl & _ & Hh1 & _).
  destruct (startAfter_clone r d1 w q1 w1 Hwf H1) as (wc & Hc).
  destruct (startAfter_from_clone r d2 w n q1 wc Hwf Hr Ho Hc) as (w3 & H3).
  destruct (startAfter_doc_spec q1 d2 w1 q2 w2 (wf_startAfter r _ w q1 w1 Hwf H1) H2)
    as (n1 & cn1 & Hr1 & _ & Hcl1 & _ & Hh2 & _).
  destruct (startAfter_doc_spec r d2 w q1 w3 Hwf H3) as (n' & cn' & Hr' & _ & Hcl' & _ & Hh3 & _).
  rewrite Hr in Hr'. injection Hr' as <-.
  rewrite Hh1, lookup_insert_eq in Hr1. injection Hr1 as <-.
  exists q1, w3, (with_finder cn1 (FindAfter d2)), (with_finder cn' (FindAfter d2)).
  split; [done|]. split; [by rewrite Hh2, lookup_insert_eq|].
  split; [by rewrite Hh3, lookup_insert_eq|].
  destruct Hcl as (Hd & Ho' & Hdi & Hl & _).
  destruct Hcl1 as (Hd1 & Ho1 & Hdi1 & Hl1 & _).
  destruct Hcl' as (Hd' & Ho'' & Hdi' & Hl' & _).
  apply results_ext; cbn in *; congruence.
Qed.

(** orderBy(p, dir).limit(k) and limit(k).orderBy(p, dir) *)

Lemma startAfter_last_wins_witness :
  exists q3 w3 n2 n3,
    startAfter 1 (DocSnapshot "c") (snd (orderBy 0 (PropString "x") (Some "asc"%string) abc_world)) = (Ok q3, w3) /\
    heap (snd (startAfter 2 (DocSnapshot "c")
                 (snd (startAfter 1 (DocSnapshot "a")
                         (snd (orderBy 0 (PropString "x") (Some "asc"%string) abc_world)))))) !! 3%nat = Some n2 /\
    heap w3 !! q3 = Some n3 /\ _results n2 = _results n3.
Proof.
  apply (startAfter_last_wins (snd (orderBy 0 (PropString "x") (Some "asc"%string) abc_world)) 1 "a" "c"
           2 (snd (startAfter 1 (DocSnapshot "a") (snd (orderBy 0 (PropString "x") (Some "asc"%string) abc_world))))
           3 (snd (startAfter 2 (DocSnapshot "c")
                     (snd (startAfter 1 (DocSnapshot "a")
                             (snd (orderBy 0 (PropString "x") (Some "asc"%string) abc_world)))))));
    discharge_concrete.
Defined.

(** X9: [orderBy(p, dir).limit(k)] and [limit(k).orderBy(p, dir)] return the same results. *)
Theorem orderBy_limit_commute w r p dir lim q1 w1 q2 w2 :
  world_wf w -> orderBy r p dir w = (Ok q1, w1) -> limit q1 lim w1 = (Ok q2, w2) ->
  exists q1' w1' q2' w2' n2 n2',
    limit r lim w = (Ok q1', w1') /\ orderBy q1' p dir w1' = (Ok q2', w2') /\
    heap w2 !! q2 = Some n2 /\ heap w2' !! q2' = Some n2' /\ _results n2' = _results n2.
Proof.
  intros Hwf H1 H2.
  destruct (orderBy_clone r p dir w q1 w1 H1) as (wc & Hc).
  destruct (limit_from_clone r lim w q1 wc Hwf Hc) as (w1' & H1').
  destruct (orderBy_spec r p dir w q1 w1 Hwf H1) as (n & cn & Hr & Hcl & _ & Hh1 & _).
  destruct (limit_spec q1 lim w1 q2 w2 (wf_orderBy r p dir w q1 w1 Hwf H1) H2)
    as (n1 & cn1 & Hr1 & Hcl1 & _ & Hh2 & _).
  destruct (limit_spec r lim w q1 w1' Hwf H1') as (n' & cn' & Hr' & Hcl' & _ & Hh1' & _).
  rewrite Hr in Hr'. injection Hr' as <-.
  rewrite Hh1, lookup_insert_eq in Hr1. injection Hr1 as <-.
  assert (Hn1' : heap w1' !! q1 = Some (with_limit cn' lim)) by (by rewrite Hh1', lookup_insert_eq).
  destruct (clone_succeeds w1' q1 (with_limit cn' lim) Hn1') as (q2' & wc' & Hc').
  { intros pp Hpp. rewrite Hh1'. apply is_Some_insert.
    apply (clone_parent_exists r w q1 wc n Hc Hr). destruct Hcl' as (_ & _ & _ & _ & _ & Hp & _).
    cbn in Hpp. congruence. }
  destruct (orderBy_from_clone q1 p dir w1' q2' wc' Hc') as (w2' & H2').
  destruct (orderBy_spec q1 p dir w1' q2' w2' (wf_limit r lim w q1 w1' Hwf H1') H2')
    as (n1' & cn1' & Hr1' & Hcl1' & _ & Hh2' & _).
  rewrite Hn1' in Hr1'. injection Hr1' as <-.
  exists q1, w1', q2', w2', (with_limit cn1 lim),
    (with_order cn1' (orderedProperties (with_limit cn' lim) ++ [p])
       (orderedDirections (with_limit cn' lim) ++
          [match dir with Some s => if String.eqb s "" then "asc" else s | None => "asc" end])).
  split; [done|]. split; [done|].
  split; [by rewrite Hh2, lookup_insert_eq|]. split; [by rewrite Hh2', lookup_insert_eq|].
  destruct Hcl as (Hd & Ho & Hdi & Hl & Hf & _).
  destruct Hcl1 as (Hd1 & Ho1 & Hdi1 & Hl1 & Hf1 & _).
  destruct Hcl' as (Hd' & Ho' & Hdi' & Hl' & Hf' & _).
  destruct Hcl1' as (Hd1' & Ho1' & Hdi1' & Hl1' & Hf1' & _).
  apply results_ext; cbn in *; congruence.
Qed.

(** where(...).orderBy(...) and orderBy(...).where(...) *)

Lemma orderBy_limit_commute_witness :
  exists q1' w1' q2' w2' n2 n2',
    limit 0 2 abc_world = (Ok q1', w1') /\ orderBy q1' (PropString "x") (Some "desc"%string) w1' = (Ok q2', w2') /\
    heap (snd (limit 1 2 (snd (orderBy 0 (PropString "x") (Some "desc"%string) abc_world)))) !! 2%nat = Some n2 /\
    heap w2' !! q2' = Some n2' /\ _results n2' = _results n2.
Proof.
  apply (orderBy_limit_commute abc_world 0 (PropString "x") (Some "desc"%string) 2 1
           (snd (orderBy 0 (PropString "x") (Some "desc"%string) abc_world))
           2 (snd (limit 1 2 (snd (orderBy 0 (PropString "x") (Some "desc"%string) abc_world)))));
    discharge_concrete.
Defined.

(** X10: [where(...).orderBy(...)] and [orderBy(...).where(...)] with the same arguments return the same results. *)
Theorem where_orderBy_commute w r p op v p' dir q1 w1 q2 w2 :
  world_wf w -> where_ r p op v w = (Ok q1, w1) -> orderBy q1 p' dir w1 = (Ok q2, w2) ->
  exists q1' w1' q2' w2' n2 n2',
    orderBy r p' dir w = (Ok q1', w1') /\ where_ q1' p op v w1' = (Ok q2', w2') /\
    heap w2 !! q2 = Some n2 /\ heap w2' !! q2' = Some n2' /\ _results n2' = _results n2.
Proof.
  intros Hwf H1 H2.
  destruct (where_clone r p op v w q1 w1 Hwf H1) as (wc & Hc).
  destruct (orderBy_from_clone r p' dir w q1 wc Hc) as (w1' & H1').
  destruct (where_node w r p op v q1 w1 Hwf H1)
    as (n & nq & Hr & _ & Hh1 & Ho & Hdi & Hl & Hf & Hp & _ & _ & Hd).
  destruct (orderBy_spec q1 p' dir w1 q2 w2 (wf_where r p op v w q1 w1 Hwf H1) H2)
    as (n1 & cn1 & Hr1 & Hcl1 & _ & Hh2 & _).
  rewrite Hh1, lookup_insert_eq in Hr1. injection Hr1 as <-.
  destruct (orderBy_spec r p' dir w q1 w1' Hwf H1') as (n' & cn' & Hr' & Hcl' & _ & Hh1' & _).
  rewrite Hr in Hr'. injection Hr' as <-.
  set (dn := match dir with Some s => if String.eqb s "" then "asc" else s | None => "asc" end).
  assert (Hn1' : heap w1' !! q1 =
            Some (with_order cn' (orderedProperties n ++ [p']) (orderedDirections n ++ [dn])))
    by (by rewrite Hh1', lookup_insert_eq).
  destruct (clone_succeeds w1' q1 _ Hn1') as (q2' & wc' & Hc').
  { intros pp Hpp. rewrite Hh1'. apply is_Some_insert.
    apply (clone_parent_exists r w q1 wc n Hc Hr). destruct Hcl' as (_ & _ & _ & _ & _ & Hp' & _).
    cbn in Hpp. congruence. }
  destruct (where_from_clone q1 p op v w1' q2' wc' (wf_orderBy r p' dir w q1 w1' Hwf H1') Hc')
    as (w2' & H2').
  destruct (where_node w1' q1 p op v q2' w2' (wf_orderBy r p' dir w q1 w1' Hwf H1') H2')
    as (n1' & nq' & Hr1' & _ & Hh2' & Ho' & Hdi' & Hl' & Hf' & _ & _ & _ & Hd').
  rewrite Hn1' in Hr1'. injection Hr1' as <-.
  exists q1, w1', q2', w2',
    (with_order cn1 (orderedProperties nq ++ [p']) (orderedDirections nq ++ [dn])), nq'.
  split; [done|]. split; [done|].
  split; [by rewrite Hh2, lookup_insert_eq|]. split; [by rewrite Hh2', lookup_insert_eq|].
  destruct Hcl1 as (Hd1 & Ho1 & Hdi1 & Hl1 & Hf1 & _).
  destruct Hcl' as (Hdc & Hoc & Hdic & Hlc & Hfc & _).
  cbn [data with_order] in Hd'. rewrite Hdc in Hd'.
  apply results_ext; cbn [data orderedProperties orderedDirections limited buildStartFinder with_order] in *; congruence.
Qed.

Lemma where_orderBy_commute_witness :
  exists q1' w1' q2' w2' n2 n2',
    orderBy 0 (PropString "x") (Some "desc"%string) abc_world = (Ok q1', w1') /\
    where_ q1' (PropString "x") "==" (VNum 1) w1' = (Ok q2', w2') /\
    heap (snd (orderBy 1 (PropString "x") (Some "desc"%string)
                 (snd (where_ 0 (PropString "x") "==" (VNum 1) abc_world)))) !! 2%nat = Some n2 /\
    heap w2' !! q2' = Some n2' /\ _results n2' = _results n2.
Proof.
  apply (where_orderBy_commute abc_world 0 (PropString "x") "==" (VNum 1) (PropString "x") (Some "desc"%string) 1
           (snd (where_ 0 (PropString "x") "==" (VNum 1) abc_world))
           2 (snd (orderBy 1 (PropString "x") (Some "desc"%string)
                     (snd (where_ 0 (PropString "x") "==" (VNum 1) abc_world)))));
    discharge_concrete.
Defined.

(** X11: A query made by [where], [orderBy], [limit] or [startAfter] with a snapshot starts with no injected errors and no children, whatever was injected into the receiver. *)
Theorem derived_queries_start_clean w r :
  world_wf w ->
  (forall p op v q w', where_ r p op v w = (Ok q, w') ->
     exists nq, heap w' !! q = Some nq /\ errs nq = [] /\ children nq = []) /\
  (forall p dir q w', orderBy r p dir w = (Ok q, w') ->
     exists nq, heap w' !! q = Some nq /\ errs nq = [] /\ children nq = []) /\
  (forall lim q w', limit r lim w = (Ok q, w') ->
     exists nq, heap w' !! q = Some nq /\ errs nq = [] /\ children nq = []) /\
  (forall d q w', startAfter r (DocSnapshot d) w = (Ok q, w') ->
     exists nq, heap w' !! q = Some nq /\ errs nq = [] /\ children nq = []).
Proof.
  intros Hwf. split; [|split; [|split]].
  - intros p op v q w' H.
    destruct (where_node w r p op v q w' Hwf H)
      as (n & nq & _ & _ & Hh & _ & _ & _ & _ & _ & He & Hc & _).
    exists nq. by rewrite Hh, lookup_insert_eq.
  - intros p dir q w' H.
    destruct (orderBy_spec r p dir w q w' Hwf H) as (n & cn & _ & Hcl & _ & Hh & _).
    destruct Hcl as (_ & _ & _ & _ & _ & _ & Hc & He).
    eexists. rewrite Hh, lookup_insert_eq. split; [done|]. cbn. auto.
  - intros lim q w' H.
    destruct (limit_spec r lim w q w' Hwf H) as (n & cn & _ & Hcl & _ & Hh & _).
    destruct Hcl as (_ & _ & _ & _ & _ & _ & Hc & He).
    eexists. rewrite Hh, lookup_insert_eq. split; [done|]. cbn. auto.
  - intros d q w' H.
    destruct (startAfter_doc_spec r d w q w' Hwf H) as (n & cn & _ & _ & Hcl & _ & Hh & _).
    destruct Hcl as (_ & _ & _ & _ & _ & _ & Hc & He).
    eexists. rewrite Hh, lookup_insert_eq. split; [done|]. cbn. auto.
Qed.

Lemma derived_queries_start_clean_witness :
  (forall p op v q w', where_ 0 p op v get_err_world = (Ok q, w') ->
     exists nq, heap w' !! q = Some nq /\ errs nq = [] /\ children nq = []) /\
  (forall p dir q w', orderBy 0 p dir get_err_world = (Ok q, w') ->
     exists nq, heap w' !! q = Some nq /\ errs nq = [] /\ children nq = []) /\
  (forall lim q w', limit 0 lim get_err_world = (Ok q, w') ->
     exists nq, heap w' !! q = Some nq /\ errs nq = [] /\ children nq = []) /\
  (forall d q w', startAfter 0 (DocSnapshot d) get_err_world = (Ok q, w') ->
     exists nq, heap w' !! q = Some nq /\ errs nq = [] /\ children nq = []).
Proof.
  exact (derived_queries_start_clean get_err_world 0
           (single_world_wf (with_errs (root_node abc_records) [("get", "boom")]) eq_refl eq_refl eq_refl)).
Defined.

(** X12: [extractName] of a path that ends in ['/'] and a segment without ['/'] gives that segment when it is non-empty and free of ['.'], ['$'], ['['], [']'] and ['#'], and nothing otherwise. *)
Theorem extractName_after_slash pre s :
  string_forallb (fun c => negb (Ascii.eqb c "/"%char)) s = true ->
  extractName (pre ++ String "/"%char s) =
    if String.eqb s "" then None
    else if string_forallb (fun c => negb (forbidden_char c)) s then Some s else None.
Proof.
  intros Hs. unfold extractName. rewrite after_last_slash_app by done.
  destruct s as [|c rest]; reflexivity.
Qed.

Lemma extractName_after_slash_witness :
  extractName ("Mock:/" ++ String "/"%char "users") =
    if String.eqb "users" "" then None
    else if string_forallb (fun c => negb (forbidden_char c)) "users" then Some "users"%string else None.
Proof. apply extractName_after_slash. reflexivity. Defined.

(** X13: A name found by [extractName] is non-empty, free of the characters ['.'], ['$'], ['['], [']'] and ['#'], and is the segment after the last ['/'] of the path. *)
Theorem extractName_sound p s :
  extractName p = Some s ->
  s <> ""%string /\ string_forallb (fun c => negb (forbidden_char c)) s = true /\
  exists pre : string, p = (pre ++ String "/"%char s)%string.
Proof.
  unfold extractName. intros H.
  destruct (after_last_slash p) as [seg|] eqn:E; [|discriminate].
  destruct seg as [|c rest]; [discriminate|].
  destruct (string_forallb _ (String c rest)) eqn:F; [|discriminate].
  injection H as <-. split; [discriminate|]. split; [exact F|].
  by apply after_last_slash_some.
Qed.

Lemma extractName_sound_witness :
  "users"%string <> ""%string /\
  string_forallb (fun c => negb (forbidden_char c)) "users" = true /\
  exists pre : string, "Mock://users"%string = (pre ++ String "/"%char "users")%string.
Proof. apply extractName_sound. reflexivity. Defined.



(** X15: An error [e] injected for [get] rejects the promise of the first [get()] with [e] (or resolves it when [e] is empty), and the promise of a second [get()] resolves with the results, once the queue is flushed. *)
Theorem get_error_consumed w r n e :
  world_wf w -> heap w !! r = Some n -> lookup_err "get" (errs n) = Some e ->
  In (if String.eqb e "" then OResolved (next_promise w) (_results n)
      else ORejected (next_promise w) e) (trace (run w [AGet r; AGet r; AFlush r])) /\
  In (OResolved (S (next_promise w)) (_results n)) (trace (run w [AGet r; AGet r; AFlush r])).
Proof.
  intros Hwf Hr He. unfold run. cbn [fold_left].
  rewrite (get_step w r n Hr), He.
  set (n1 := with_errs n (remove_key "get" (errs n))).
  set (err1 := if String.eqb e "" then None else Some e).
  set (ev1 := mkEvent r err1 (KCaller (next_promise w))).
  rewrite (get_step _ r n1) by (cbn; apply lookup_insert_eq).
  cbn [heap queues next_promise errs n1 with_errs].
  rewrite lookup_err_remove_same.
  set (n2 := with_errs n1 (remove_key "get" (errs n1))).
  set (ev2 := mkEvent r None (KCaller (S (next_promise w)))).
  set (W2 := mkWorld _ _ _ _ _ _ _ _ _).
  assert (Hq : queue_events W2 (queue n) = (queue_events w (queue n) ++ [ev1]) ++ [ev2]).
  { unfold W2, queue_events at 1. cbn. rewrite lookup_insert_eq. unfold queue_events at 1.
    cbn. by rewrite lookup_insert_eq. }
  assert (Hr2 : heap W2 !! r = Some n2) by (unfold W2; cbn; apply lookup_insert_eq).
  assert (Hall : Forall (fun ev => is_Some (heap W2 !! ev_ref ev)) (queue_events W2 (queue n2))).
  { change (queue n2) with (queue n). rewrite Hq. unfold W2; cbn.
    apply Forall_app. split; [apply Forall_app; split|].
    - do 2 apply Forall_is_Some_insert. by apply wf_queue_events.
    - constructor; [|constructor]. cbn. rewrite lookup_insert_eq. by eexists.
    - constructor; [|constructor]. cbn. rewrite lookup_insert_eq. by eexists. }
  assert (Hres : _results n2 = _results n) by reflexivity.
  split; apply step_trace; cbn [action_m].
  - pose proof (flush_settles r W2 n2 ev1 n2 (next_promise w) Hr2 Hall) as F.
    rewrite Hres in F. unfold ev1, err1 in F. cbn [ev_err] in F.
    destruct (String.eqb e ""); apply F; try reflexivity; try exact Hr2;
      change (queue n2) with (queue n); rewrite Hq; apply in_or_app; left;
      apply in_or_app; right; by left.
  - pose proof (flush_settles r W2 n2 ev2 n2 (S (next_promise w)) Hr2 Hall) as F.
    rewrite Hres in F. cbn [ev_err ev2] in F. apply F; try reflexivity; try exact Hr2.
    change (queue n2) with (queue n). rewrite Hq. apply in_or_app. right. by left.
Qed.

Lemma get_error_consumed_witness :
  In (if String.eqb "boom" "" then OResolved (next_promise get_err_world) (_results (root_node abc_records))
      else ORejected (next_promise get_err_world) "boom")
     (trace (run get_err_world [AGet 0; AGet 0; AFlush 0])) /\
  In (OResolved (S (next_promise get_err_world)) (_results (root_node abc_records)))
     (trace (run get_err_world [AGet 0; AGet 0; AFlush 0])).
Proof.
  apply (get_error_consumed get_err_world 0 (with_errs (root_node abc_records) [("get", "boom")]) "boom");
    discharge_concrete.
Defined.

(** X16: A successful [autoFlush(d)] leaves the receiver with the flag [d] ([true] when [d] is omitted); every other instance keeps its fields except for the flag, which becomes [d] or stays; no instance is added, and no output or subscription changes. *)
Theorem autoFlush_only_sets_flag w r d u w' :
  autoFlush r d w = (Ok u, w') ->
  (exists n', heap w' !! r = Some n' /\
              flushDelay n' = match d with Some x => x | None => DTrue end) /\
  (forall y m', heap w' !! y = Some m' ->
     exists m, heap w !! y = Some m /\
               (m' = m \/ m' = with_delay m (match d with Some x => x | None => DTrue end))) /\
  frame w' = frame w.
Proof.
  intros E. split; [|split].
  - exact (autoFlush_go_sets _ _ _ _ _ _ E).
  - pose proof (autoFlush_go_only_flags (S (size (heap w))) r
                  (match d with Some x => x | None => DTrue end) w w) as H.
    unfold autoFlush in E. rewrite E in H. apply H. intros y m' Hy. exists m'. by split; [|left].
  - pose proof (quiet_autoFlush r d w) as H. by rewrite E in H.
Qed.

Lemma autoFlush_only_sets_flag_witness :
  (exists n', heap (snd (autoFlush 0 (Some (DMs 10)) abc_world)) !! 0%nat = Some n' /\
              flushDelay n' = DMs 10) /\
  (forall y m', heap (snd (autoFlush 0 (Some (DMs 10)) abc_world)) !! y = Some m' ->
     exists m, heap abc_world !! y = Some m /\ (m' = m \/ m' = with_delay m (DMs 10))) /\
  frame (snd (autoFlush 0 (Some (DMs 10)) abc_world)) = frame abc_world.
Proof.
  apply (autoFlush_only_sets_flag abc_world 0 (Some (DMs 10)) tt
           (snd (autoFlush 0 (Some (DMs 10)) abc_world)));
    discharge_concrete.
Defined.

(** X17: When the receiver's flag differs from [d], a successful [autoFlush(d)] also sets the flag [d] on each of its children and on its parent. *)
Theorem autoFlush_reaches_links w r n d u w' c :
  heap w !! r = Some n ->
  flushDelay n <> match d with Some x => x | None => DTrue end ->
  (In c (children n) \/ parent n = Some c) ->
  autoFlush r d w = (Ok u, w') ->
  exists m, heap w' !! c = Some m /\ flushDelay m = match d with Some x => x | None => DTrue end.
Proof.
  intros Hn Hne Hc E. unfold autoFlush in E.
  set (dd := match d with Some x => x | None => DTrue end) in *.
  rewrite (autoFlush_go_S _ r dd w n Hn) in E.
  destruct (delay_eqb (flushDelay n) dd) eqn:Ed; [by apply delay_eqb_true in Ed|].
  unfold bindM at 1, put_node at 1, modifyM at 1 in E. cbn [fst snd] in E.
  revert E. set (Q := fun w => exists m, heap w !! c = Some m /\ flushDelay m = dd).
  change (exists m, heap w' !! c = Some m /\ flushDelay m = dd) with (Q w').
  destruct Hc as [Hin|Hp].
  - apply (establishes_bind_l Q).
    + intros w1 w2 a. apply (establishes_fold _ _ c (children n)).
      * intros c'. apply autoFlush_go_keeps_flag.
      * intros w3 w4 v. apply autoFlush_go_sets.
      * by right.
    + intros _. destruct (parent n); [apply autoFlush_go_keeps_flag|apply preserves_ret].
  - apply (establishes_bind_r Q). intros _ w1 w2 b. rewrite Hp. apply autoFlush_go_sets.
Qed.

Lemma autoFlush_reaches_links_witness :
  exists m, heap (snd (autoFlush 1 None linked_world)) !! 0%nat = Some m /\ flushDelay m = DTrue.
Proof.
  apply (autoFlush_reaches_links linked_world 1 child_node None tt
           (snd (autoFlush 1 None linked_world)) 0);
    discharge_concrete.
Defined.
